(** * Kaleidoscope front end: lexer, parser and code generation

    A shallow embedding of [Kaleidoscope.cpp] (the lexer of [lexer.h] is the
    same text as the one in [Kaleidoscope.cpp]).  The global variables of the
    program ([LastChar], [IdentifierStr], [NumVal], [CurTok],
    [BinopPrecedence], [TheModule], [Builder], [NamedValues]) and the three
    streams (standard input, [std::cout], [std::cerr]/[errs()]) are the fields
    of one [State] record that every function threads.

    The LLVM library is not part of the repository.  It is modelled by the
    small part of its behaviour the program relies on: a module is a list of
    functions, a function has argument names and basic blocks, the builder
    appends instructions at its insertion point and folds operations on
    constants, symbol tables keep names unique. *)

From Stdlib Require Import ZArith Lia Ascii String.
From stdpp Require Import base option list gmap strings pretty.

Set Warnings "-register-all,-clear-no-such-hyp".

Open Scope string_scope.
Open Scope Z_scope.

(** ** Characters and the C library *)

(** [getchar] returns an [unsigned char] converted to [int], or [EOF]. *)
Definition EOF : Z := -1.

Definition int_of_char (c : ascii) : Z := Z.of_N (N_of_ascii c).

(** Conversion of an [int] to [char], as in [IdentifierStr += LastChar]. *)
Definition char_of_int (c : Z) : ascii := ascii_of_N (Z.to_N (c mod 256)).

(** <cctype>, "C" locale; every one of them is false on [EOF]. *)
Definition isspace (c : Z) : bool := (c =? 32) || ((9 <=? c) && (c <=? 13)).
Definition isdigit (c : Z) : bool := (48 <=? c) && (c <=? 57).
Definition isalpha (c : Z) : bool :=
  ((65 <=? c) && (c <=? 90)) || ((97 <=? c) && (c <=? 122)).
Definition isalnum (c : Z) : bool := isalpha c || isdigit c.
Definition isascii (c : Z) : bool := (0 <=? c) && (c <=? 127).

(** A [double] is kept as the text that [strtod] converted: floating-point
    arithmetic is not modelled, and nothing below compares two doubles. *)
Inductive double : Type :=
| strtod (NumStr : string).

(** Decimal rendering of a counter, as [raw_ostream << unsigned]. *)
Definition utostr (n : nat) : string := pretty n.

(** ** The LLVM objects the program builds *)

Inductive BinaryOps : Type := FAdd | FSub | FMul | FDiv.

(** Constants.  The builder's constant folder turns an operation on constants
    into a constant; the folded value is kept as the operation it stands for. *)
Inductive Constant : Type :=
| ConstantFP (Val : double)
| FoldBinOp (Opc : BinaryOps) (L R : Constant)
| FoldFCmpULT (L R : Constant)
| FoldUIToFP (V : Constant).

(** A [Value*] that is not null.  A function is referred to by its handle (its
    address), an argument by its function and position, an instruction by its
    function, block and position in the block. *)
Inductive Value : Type :=
| Const (C : Constant)
| Argument (F : nat) (ArgNo : nat)
| Inst (F : nat) (BB : nat) (Idx : nat).

(** [Name] is the name asked for ("addtmp", ...); it is only displayed. *)
Inductive Instruction : Type :=
| BinaryOperator (Opc : BinaryOps) (L R : Value) (Name : string)
| FCmpULT (L R : Value) (Name : string)
| UIToFP (V : Value) (Name : string)
| CallInst (Callee : nat) (Args : list Value) (Name : string)
| ReturnInst (V : Value).

Record BasicBlock : Type := mkBasicBlock {
  BBName : string;
  Insts : list Instruction
}.

Record Function : Type := mkFunction {
  Fid : nat;                  (* the handle: what a [Function*] points to *)
  FName : string;             (* the name in the module's symbol table; empty for none *)
  FArgs : list string;        (* the argument names *)
  FBlocks : list BasicBlock   (* empty for a declaration *)
}.

Record Module : Type := mkModule {
  Functions : list Function;
  LastUnique : nat            (* the counter of the module's symbol table *)
}.

(** What the program writes. *)
Inductive Output : Type :=
| cout (text : string)
| cerr (text : string) (Val : double)
| errs_Function (F : Function)
| errs_Module (Fs : list Function).

(** ** The program state *)

Record State : Type := mkState {
  stdin : string;
  LastChar : Z;
  IdentifierStr : string;
  NumVal : double;
  CurTok : Z;
  BinopPrecedence : gmap ascii Z;
  TheModule : Module;
  Builder : nat * nat;                       (* insertion block: function, block *)
  NamedValues : gmap string (option Value);  (* [None] is a null [Value*] *)
  output : list Output
}.

Definition set_lexer (i : string) (c : Z) (s : State) : State :=
  mkState i c (IdentifierStr s) (NumVal s) (CurTok s) (BinopPrecedence s)
          (TheModule s) (Builder s) (NamedValues s) (output s).
Definition set_IdentifierStr (v : string) (s : State) : State :=
  mkState (stdin s) (LastChar s) v (NumVal s) (CurTok s) (BinopPrecedence s)
          (TheModule s) (Builder s) (NamedValues s) (output s).
Definition set_NumVal (v : double) (s : State) : State :=
  mkState (stdin s) (LastChar s) (IdentifierStr s) v (CurTok s) (BinopPrecedence s)
          (TheModule s) (Builder s) (NamedValues s) (output s).
Definition set_CurTok (v : Z) (s : State) : State :=
  mkState (stdin s) (LastChar s) (IdentifierStr s) (NumVal s) v (BinopPrecedence s)
          (TheModule s) (Builder s) (NamedValues s) (output s).
Definition set_BinopPrecedence (v : gmap ascii Z) (s : State) : State :=
  mkState (stdin s) (LastChar s) (IdentifierStr s) (NumVal s) (CurTok s) v
          (TheModule s) (Builder s) (NamedValues s) (output s).
Definition set_TheModule (v : Module) (s : State) : State :=
  mkState (stdin s) (LastChar s) (IdentifierStr s) (NumVal s) (CurTok s) (BinopPrecedence s)
          v (Builder s) (NamedValues s) (output s).
Definition set_Builder (v : nat * nat) (s : State) : State :=
  mkState (stdin s) (LastChar s) (IdentifierStr s) (NumVal s) (CurTok s) (BinopPrecedence s)
          (TheModule s) v (NamedValues s) (output s).
Definition set_NamedValues (v : gmap string (option Value)) (s : State) : State :=
  mkState (stdin s) (LastChar s) (IdentifierStr s) (NumVal s) (CurTok s) (BinopPrecedence s)
          (TheModule s) (Builder s) v (output s).
Definition write (o : Output) (s : State) : State :=
  mkState (stdin s) (LastChar s) (IdentifierStr s) (NumVal s) (CurTok s) (BinopPrecedence s)
          (TheModule s) (Builder s) (NamedValues s) (output s ++ [o])%list.

(** ** Computations

    A function of the program either returns, or ends the process with
    [exit], or (in the model only) runs out of the fuel that bounds the
    parser's recursion. *)
Inductive Outcome (A : Type) : Type :=
| Done (a : A) (s : State)
| Exited (status : Z) (s : State)
| OutOfFuel.
Arguments Done {A} a s.
Arguments Exited {A} status s.
Arguments OutOfFuel {A}.

Definition M (A : Type) : Type := State → Outcome A.

Definition ret {A} (a : A) : M A := λ s, Done a s.
Definition bind {A B} (m : M A) (k : A → M B) : M B :=
  λ s, match m s with
       | Done a s' => k a s'
       | Exited st s' => Exited st s'
       | OutOfFuel => OutOfFuel
       end.
Definition exit {A} (status : Z) : M A := λ s, Exited status s.
Definition get {A} (f : State → A) : M A := λ s, Done (f s) s.
Definition modify (f : State → State) : M unit := λ s, Done () (f s).

Notation "'let*' x ':=' m 'in' k" := (bind m (λ x, k))
  (at level 10, x name, m at level 100, k at level 200).
Notation "m '>>' k" := (bind m (λ _, k))
  (at level 90, right associativity).

(** ** Lexer *)

Definition tok_eof : Z := -1.
Definition tok_def : Z := -2.
Definition tok_extern : Z := -3.
Definition tok_identifier : Z := -4.
Definition tok_number : Z := -5.

(** [while(isspace(LastChar)) LastChar = getchar();]
    Each loop of [gettok] is a function of the pending input and the current
    [LastChar]; it returns what is left of the input and the new [LastChar]. *)
Fixpoint skipWhitespace (input : string) (c : Z) : string * Z :=
  if isspace c then
    match input with
    | EmptyString => (EmptyString, EOF)
    | String c' rest => skipWhitespace rest (int_of_char c')
    end
  else (input, c).

(** [while(isalnum((LastChar = getchar()))) IdentifierStr += LastChar;] *)
Fixpoint readIdentifier (input : string) (Id : string) : string * Z * string :=
  match input with
  | EmptyString => (EmptyString, EOF, Id)
  | String c' rest =>
      if isalnum (int_of_char c')
      then readIdentifier rest (Id +:+ String c' EmptyString)
      else (rest, int_of_char c', Id)
  end.

(** The [do ... while(isdigit(LastChar) || LastChar == '.')] loop, entered
    with [LastChar = c]. *)
Fixpoint readNumber (input : string) (c : Z) (NumStr : string)
    (hasDecimal decimalError : bool) : string * Z * string * bool :=
  let decimalError := if (c =? 46) && hasDecimal then true else decimalError in
  let hasDecimal := if c =? 46 then true else hasDecimal in
  let NumStr := NumStr +:+ String (char_of_int c) EmptyString in
  match input with
  | EmptyString => (EmptyString, EOF, NumStr, decimalError)
  | String c' rest =>
      if isdigit (int_of_char c') || (int_of_char c' =? 46)
      then readNumber rest (int_of_char c') NumStr hasDecimal decimalError
      else (rest, int_of_char c', NumStr, decimalError)
  end.

(** [do LastChar = getchar(); while(LastChar != EOF && LastChar != '\n' && LastChar != '\r');] *)
Fixpoint skipComment (input : string) : string * Z :=
  match input with
  | EmptyString => (EmptyString, EOF)
  | String c' rest =>
      if (int_of_char c' =? 10) || (int_of_char c' =? 13)
      then (rest, int_of_char c')
      else skipComment rest
  end.

(** The end of [gettok]: the end-of-file check and the single-character token. *)
Definition gettok_char (input : string) (c : Z) : M Z := λ s,
  if c =? EOF then Done tok_eof (set_lexer input c s)
  else
    match input with
    | EmptyString => Done c (set_lexer EmptyString EOF s)
    | String c' rest => Done c (set_lexer rest (int_of_char c') s)
    end.

(** [gettok], with [n] bounding the calls of [gettok] from itself after a
    comment. *)
Fixpoint gettok_rec (n : nat) : M Z := λ s,
  let '(input, c) := skipWhitespace (stdin s) (LastChar s) in
  if isalpha c then
    let '(input, c, Id) := readIdentifier input (String (char_of_int c) EmptyString) in
    let s := set_IdentifierStr Id (set_lexer input c s) in
    if String.eqb Id "def" then Done tok_def s
    else if String.eqb Id "extern" then Done tok_extern s
    else Done tok_identifier s
  else if isdigit c || (c =? 46) then
    let '(input, c, NumStr, decimalError) := readNumber input c EmptyString false false in
    let s := set_NumVal (strtod NumStr) (set_lexer input c s) in
    if decimalError
    then Exited 1 (write (cerr "Number Syntax Error! Too many decimals: " (NumVal s)) s)
    else Done tok_number s
  else if c =? 35 then
    let '(input, c) := skipComment input in
    if negb (c =? EOF) then
      match n with
      | O => OutOfFuel
      | S n => gettok_rec n (set_lexer input c s)
      end
    else gettok_char input c s
  else gettok_char input c s.

(** Every call of [gettok] from itself follows a comment, which took at least
    one character of the input: the length of the input bounds them. *)
Definition gettok : M Z := λ s, gettok_rec (String.length (stdin s)) s.

(** ** Abstract syntax tree *)

Inductive ExprAST : Type :=
| NumberExprAST (Val : double)
| VariableExprAST (Name : string)
| BinaryExprAST (Op : ascii) (LHS RHS : ExprAST)
| CallExprAST (Callee : string) (Args : list ExprAST).

Record PrototypeAST : Type := mkPrototypeAST {
  getName : string;
  getArgs : list string
}.

Record FunctionAST : Type := mkFunctionAST {
  Proto : PrototypeAST;
  Body : ExprAST
}.

(** ** Parser *)

Definition endl : string := String (ascii_of_N 10) EmptyString.

Definition getNextToken : M Z :=
  let* Tok := gettok in
  modify (set_CurTok Tok) >> ret Tok.

(** [std::map::operator[]]: a key that is absent is inserted with the default
    value [d], and that value is returned. *)
Definition subscript `{Countable K} {V} (m : gmap K V) (k : K) (d : V) : V * gmap K V :=
  match m !! k with
  | Some v => (v, m)
  | None => (d, <[k := d]> m)
  end.

(** [LogError], [LogErrorP] and [LogErrorV] print the message and return a
    null pointer of their type. *)
Definition logged (Str : string) (s : State) : State :=
  write (cout ("Error: " +:+ Str +:+ endl)) s.

Definition LogError (Str : string) : M (option ExprAST) :=
  modify (logged Str) >> ret None.

Definition LogErrorP (Str : string) : M (option PrototypeAST) :=
  modify (logged Str) >> ret None.

Definition ParseNumberExpr : M (option ExprAST) :=
  let* Val := get NumVal in
  let Result := NumberExprAST Val in
  getNextToken >> ret (Some Result).

Definition getTokPrecedence : M Z :=
  let* Tok := get CurTok in
  if negb (isascii Tok) then ret (-1)
  else
    let* TokPrec := (λ s,
      let '(v, m) := subscript (BinopPrecedence s) (char_of_int Tok) 0 in
      Done v (set_BinopPrecedence m s)) in
    if TokPrec <=? 0 then ret (-1) else ret TokPrec.

(** The expression parser.  Its functions call each other; [fuel] bounds the
    depth of the calls, and a [while(true)] loop is a call of the function
    that holds it. *)
Fixpoint ParseExpression (fuel : nat) : M (option ExprAST) :=
  match fuel with
  | O => λ _, OutOfFuel
  | S fuel =>
      let* LHS := ParsePrimary fuel in
      match LHS with
      | None => ret None
      | Some LHS => ParseBinOpRHS fuel 0 LHS
      end
  end

with ParsePrimary (fuel : nat) : M (option ExprAST) :=
  match fuel with
  | O => λ _, OutOfFuel
  | S fuel =>
      let* Tok := get CurTok in
      if Tok =? tok_identifier then ParseIdentifierExpr fuel
      else if Tok =? tok_number then ParseNumberExpr
      else if Tok =? 40 then ParseParenExpr fuel
      else LogError "Unknown token when expecting an expression"
  end

with ParseParenExpr (fuel : nat) : M (option ExprAST) :=
  match fuel with
  | O => λ _, OutOfFuel
  | S fuel =>
      getNextToken >>
      let* V := ParseExpression fuel in
      match V with
      | None => ret None
      | Some V =>
          let* Tok := get CurTok in
          if negb (Tok =? 41) then LogError "expected ')'"
          else getNextToken >> ret (Some V)
      end
  end

with ParseIdentifierExpr (fuel : nat) : M (option ExprAST) :=
  match fuel with
  | O => λ _, OutOfFuel
  | S fuel =>
      let* IdName := get IdentifierStr in
      getNextToken >>
      let* Tok := get CurTok in
      if negb (Tok =? 40) then ret (Some (VariableExprAST IdName))
      else
        getNextToken >>
        let* Tok := get CurTok in
        let* Args := (if negb (Tok =? 41) then ParseArgs fuel [] else ret (Some [])) in
        match Args with
        | None => ret None
        | Some Args => getNextToken >> ret (Some (CallExprAST IdName Args))
        end
  end

(** The [while(true)] loop of [ParseIdentifierExpr]; [None] is its
    [return nullptr], [Some] its [break]. *)
with ParseArgs (fuel : nat) (Args : list ExprAST) : M (option (list ExprAST)) :=
  match fuel with
  | O => λ _, OutOfFuel
  | S fuel =>
      let* Arg := ParseExpression fuel in
      match Arg with
      | None => ret None
      | Some Arg =>
          let Args := (Args ++ [Arg])%list in
          let* Tok := get CurTok in
          if Tok =? 41 then ret (Some Args)
          else if negb (Tok =? 44)
          then LogError "Expected ')' or ',' in argument list" >> ret None
          else getNextToken >> ParseArgs fuel Args
      end
  end

with ParseBinOpRHS (fuel : nat) (ExprPrec : Z) (LHS : ExprAST) : M (option ExprAST) :=
  match fuel with
  | O => λ _, OutOfFuel
  | S fuel =>
      let* TokPrec := getTokPrecedence in
      if TokPrec <? ExprPrec then ret (Some LHS)
      else
        let* BinOp := get CurTok in
        getNextToken >>
        let* RHS := ParsePrimary fuel in
        match RHS with
        | None => ret None
        | Some RHS =>
            let* NextPrec := getTokPrecedence in
            let* RHS := (if TokPrec <? NextPrec
                         then ParseBinOpRHS fuel (TokPrec + 1) RHS
                         else ret (Some RHS)) in
            match RHS with
            | None => ret None
            | Some RHS =>
                ParseBinOpRHS fuel ExprPrec (BinaryExprAST (char_of_int BinOp) LHS RHS)
            end
        end
  end.

(** [while(getNextToken() == tok_identifier) ArgNames.push_back(IdentifierStr);] *)
Fixpoint ParseArgNames (fuel : nat) (ArgNames : list string) : M (list string) :=
  match fuel with
  | O => λ _, OutOfFuel
  | S fuel =>
      let* Tok := getNextToken in
      if Tok =? tok_identifier then
        let* Id := get IdentifierStr in
        ParseArgNames fuel (ArgNames ++ [Id])%list
      else ret ArgNames
  end.

Definition ParsePrototype (fuel : nat) : M (option PrototypeAST) :=
  let* FnType := get CurTok in
  getNextToken >>
  let* Tok := get CurTok in
  if negb (Tok =? tok_identifier) then LogErrorP "Expected function name in prototype"
  else
    let* FnName := get IdentifierStr in
    let FnName :=
      if FnType =? tok_def then FnName +:+ "_def"
      else if FnType =? tok_extern then FnName +:+ "_ext"
      else FnName in
    getNextToken >>
    let* Tok := get CurTok in
    if negb (Tok =? 40) then LogErrorP "Expected '(' in protype"
    else
      let* ArgNames := ParseArgNames fuel [] in
      let* Tok := get CurTok in
      if negb (Tok =? 41) then LogErrorP "Expected ')' in prototype"
      else getNextToken >> ret (Some (mkPrototypeAST FnName ArgNames)).

Definition ParseDefinition (fuel : nat) : M (option FunctionAST) :=
  let* Proto := ParsePrototype fuel in
  match Proto with
  | None => ret None
  | Some Proto =>
      let* E := ParseExpression fuel in
      match E with
      | Some E => ret (Some (mkFunctionAST Proto E))
      | None => ret None
      end
  end.

Definition ParseExtern (fuel : nat) : M (option PrototypeAST) :=
  ParsePrototype fuel.

Definition ParseTopLevelExpr (fuel : nat) : M (option FunctionAST) :=
  let* E := ParseExpression fuel in
  match E with
  | Some E =>
      let Proto := mkPrototypeAST EmptyString [] in
      ret (Some (mkFunctionAST Proto E))
  | None => ret None
  end.

(** ** The module and the builder (LLVM) *)

(** [Module::getFunction]: the function of that name in the symbol table.  A
    function without a name is not in the table. *)
Definition getFunction (Name : string) (TheModule : Module) : option Function :=
  if String.eqb Name EmptyString then None
  else List.find (λ f, String.eqb (FName f) Name) (Functions TheModule).

(** What a [Function*] points to. *)
Definition atHandle (F : nat) (TheModule : Module) : option Function :=
  List.find (λ f, Nat.eqb (Fid f) F) (Functions TheModule).

(** A new function gets a handle that no function of the module has.  Handle
    0 is the null pointer. *)
Definition newHandle (TheModule : Module) : nat :=
  S (foldr Nat.max 0%nat (map Fid (Functions TheModule))).

(** [ValueSymbolTable::makeUniqueName]: append the next value of the table's
    counter ([dot] is "." for a global value) until the name is free.  There
    are more candidates than names in the table, which bounds the search. *)
Fixpoint makeUniqueName (n : nat) (taken : list string) (dot Base : string)
    (LastUnique : nat) : string * nat :=
  let LastUnique := S LastUnique in
  let UniqueName := Base +:+ dot +:+ utostr LastUnique in
  if bool_decide (UniqueName ∈ taken) then
    match n with
    | O => (UniqueName, LastUnique)
    | S n => makeUniqueName n taken dot Base LastUnique
    end
  else (UniqueName, LastUnique).

(** [Value::setName] on a value that has no name yet: an empty name leaves it
    without one, a name that is taken is made unique. *)
Definition createValueName (taken : list string) (dot Name : string)
    (LastUnique : nat) : string * nat :=
  if String.eqb Name EmptyString then (EmptyString, LastUnique)
  else if bool_decide (Name ∈ taken) then
    makeUniqueName (length taken) taken dot Name LastUnique
  else (Name, LastUnique).

(** [Function::Create(FT, ExternalLinkage, Name, TheModule)] for a type of
    [NumParams] parameters: the function is appended to the module, with no
    block and no argument names. *)
Definition Function_Create (NumParams : nat) (Name : string) (TheModule : Module)
    : nat * Module :=
  let '(Name, LU) :=
    createValueName (map FName (Functions TheModule)) "." Name (LastUnique TheModule) in
  let F := mkFunction (newHandle TheModule) Name (replicate NumParams EmptyString) [] in
  (Fid F, mkModule (Functions TheModule ++ [F])%list LU).

(** Change the function a handle points to. *)
Definition updateFunction (F : nat) (g : Function → Function) (TheModule : Module) : Module :=
  mkModule (map (λ f, if Nat.eqb (Fid f) F then g f else f) (Functions TheModule))
           (LastUnique TheModule).

(** [for(auto &Arg : F->args()) Arg.setName(Args[Idx++]);] in a function whose
    symbol table holds [taken]. *)
Fixpoint setArgNames (Args : list string) (taken : list string) (LastUnique : nat)
    : list string :=
  match Args with
  | [] => []
  | Name :: Args =>
      let '(Name, LU) := createValueName taken EmptyString Name LastUnique in
      Name :: setArgNames Args (if String.eqb Name EmptyString then taken else Name :: taken) LU
  end.

(** [Function::eraseFromParent]. *)
Definition eraseFromParent (F : nat) (TheModule : Module) : Module :=
  mkModule (List.filter (λ f, negb (Nat.eqb (Fid f) F)) (Functions TheModule))
           (LastUnique TheModule).

(** [BasicBlock::Create(Context, Name, TheFunction)]: the block is appended to
    the function; its position is returned. *)
Definition BasicBlock_Create (Name : string) (F : nat) (TheModule : Module) : nat * Module :=
  let BB := match atHandle F TheModule with
            | Some f => length (FBlocks f)
            | None => 0%nat
            end in
  (BB, updateFunction F (λ f,
         mkFunction (Fid f) (FName f) (FArgs f) (FBlocks f ++ [mkBasicBlock Name []])%list)
         TheModule).

(** The builder inserts an instruction at the end of its insertion block and
    returns it. *)
Definition Insert (Ins : Instruction) (s : State) : Value * State :=
  let '(F, BB) := Builder s in
  let Idx := match atHandle F (TheModule s) with
             | Some f => match FBlocks f !! BB with
                         | Some b => length (Insts b)
                         | None => 0%nat
                         end
             | None => 0%nat
             end in
  (Inst F BB Idx,
   set_TheModule (updateFunction F (λ f,
       mkFunction (Fid f) (FName f) (FArgs f)
         (alter (λ b, mkBasicBlock (BBName b) (Insts b ++ [Ins])%list) BB (FBlocks f)))
       (TheModule s)) s).

(** The [Create...] functions of the builder fold an operation whose operands
    are constants and insert an instruction otherwise. *)
Definition CreateBinOp (Opc : BinaryOps) (L R : Value) (Name : string) (s : State)
    : Value * State :=
  match L, R with
  | Const LC, Const RC => (Const (FoldBinOp Opc LC RC), s)
  | _, _ => Insert (BinaryOperator Opc L R Name) s
  end.

Definition CreateFCmpULT (L R : Value) (Name : string) (s : State) : Value * State :=
  match L, R with
  | Const LC, Const RC => (Const (FoldFCmpULT LC RC), s)
  | _, _ => Insert (FCmpULT L R Name) s
  end.

Definition CreateUIToFP (V : Value) (Name : string) (s : State) : Value * State :=
  match V with
  | Const C => (Const (FoldUIToFP C), s)
  | _ => Insert (UIToFP V Name) s
  end.

Definition CreateCall (Callee : nat) (Args : list Value) (Name : string) (s : State)
    : Value * State :=
  Insert (CallInst Callee Args Name) s.

Definition CreateRet (V : Value) (s : State) : Value * State :=
  Insert (ReturnInst V) s.

(** [verifyFunction]: true when the function is broken.  Of the verifier's
    checks, the one on the shape of a body: every block ends with its only
    terminator. *)
Definition isTerminator (Ins : Instruction) : bool :=
  match Ins with
  | ReturnInst _ => true
  | _ => false
  end.

Definition wellFormedBlock (b : BasicBlock) : bool :=
  match reverse (Insts b) with
  | [] => false
  | Ins :: before => isTerminator Ins && forallb (λ J, negb (isTerminator J)) before
  end.

Definition verifyFunction (f : Function) : bool :=
  negb (forallb wellFormedBlock (FBlocks f)).

(** ** Code generation *)

Definition LogErrorV (Str : string) (s : State) : option Value * State :=
  (None, logged Str s).

(** The loop of [CallExprAST::codegen] over the arguments: the first argument
    whose code generation fails ends it. *)
Definition codegenArgs (codegen : ExprAST → State → option Value * State)
    : list ExprAST → list Value → State → option (list Value) * State :=
  fix loop (Args : list ExprAST) (ArgsV : list Value) (s : State) :=
    match Args with
    | [] => (Some ArgsV, s)
    | Arg :: Args =>
        let '(V, s) := codegen Arg s in
        match V with
        | None => (None, s)
        | Some V => loop Args (ArgsV ++ [V])%list s
        end
    end.

(** [ExprAST::codegen], one case for each class of expression. *)
Fixpoint ExprAST_codegen (e : ExprAST) (s : State) : option Value * State :=
  match e with
  | NumberExprAST Val => (Some (Const (ConstantFP Val)), s)
  | VariableExprAST Name =>
      let '(V, m) := subscript (NamedValues s) Name None in
      let s := set_NamedValues m s in
      match V with
      | None => (V, snd (LogErrorV "Unknown variable name" s))
      | Some _ => (V, s)
      end
  | BinaryExprAST Op LHS RHS =>
      let '(L, s) := ExprAST_codegen LHS s in
      let '(R, s) := ExprAST_codegen RHS s in
      match L, R with
      | Some L, Some R =>
          if Ascii.eqb Op "+" then
            let '(V, s) := CreateBinOp FAdd L R "addtmp" s in (Some V, s)
          else if Ascii.eqb Op "-" then
            let '(V, s) := CreateBinOp FSub L R "subtmp" s in (Some V, s)
          else if Ascii.eqb Op "*" then
            let '(V, s) := CreateBinOp FMul L R "multmp" s in (Some V, s)
          else if Ascii.eqb Op "/" then
            let '(V, s) := CreateBinOp FDiv L R "divtmp" s in (Some V, s)
          else if Ascii.eqb Op "<" then
            let '(L, s) := CreateFCmpULT L R "cmptmp" s in
            let '(V, s) := CreateUIToFP L "booltmp" s in (Some V, s)
          else LogErrorV "invalid binary operator" s
      | _, _ => (None, s)
      end
  | CallExprAST Callee Args =>
      match getFunction Callee (TheModule s) with
      | None => LogErrorV "Unknown function referenced" s
      | Some CalleeF =>
          if negb (Nat.eqb (length (FArgs CalleeF)) (length Args))
          then LogErrorV "Incorrect # arguments passed" s
          else
            let '(ArgsV, s) := codegenArgs ExprAST_codegen Args [] s in
            match ArgsV with
            | None => (None, s)
            | Some ArgsV =>
                let '(V, s) := CreateCall (Fid CalleeF) ArgsV "calltmp" s in (Some V, s)
            end
      end
  end.

Definition PrototypeAST_codegen (P : PrototypeAST) (s : State) : nat * State :=
  let '(F, Mod) := Function_Create (length (getArgs P)) (getName P) (TheModule s) in
  let Mod := updateFunction F (λ f,
      mkFunction (Fid f) (FName f) (setArgNames (getArgs P) [] 0) (FBlocks f)) Mod in
  (F, set_TheModule Mod s).

(** [for(auto &Arg : TheFunction->args()) NamedValues[std::string(Arg.getName())] = &Arg;] *)
Fixpoint recordArgs (TheFunction : nat) (ArgNo : nat) (Names : list string)
    (m : gmap string (option Value)) : gmap string (option Value) :=
  match Names with
  | [] => m
  | Name :: Names =>
      recordArgs TheFunction (S ArgNo) Names (<[Name := Some (Argument TheFunction ArgNo)]> m)
  end.

(** [FunctionAST::codegen] from [if(!TheFunction)] on, [TheFunction] being the
    function that was found or declared.  A handle that points to no function
    of the module stands for the null pointer. *)
Definition FunctionAST_codegen_body (Body : ExprAST) (TheFunction : nat) (s : State)
    : option nat * State :=
  match atHandle TheFunction (TheModule s) with
  | None => (None, s)
  | Some f =>
      if negb (Nat.eqb (length (FBlocks f)) 0)
      then (None, logged "Function cannot be redefined." s)
      else
        let '(BB, Mod) := BasicBlock_Create "entry" TheFunction (TheModule s) in
        let s := set_Builder (TheFunction, BB) (set_TheModule Mod s) in
        let s := set_NamedValues (recordArgs TheFunction 0 (FArgs f) ∅) s in
        let '(RetVal, s) := ExprAST_codegen Body s in
        match RetVal with
        | Some RetVal =>
            let '(_, s) := CreateRet RetVal s in
            let _ := option_map verifyFunction (atHandle TheFunction (TheModule s)) in
            (Some TheFunction, s)
        | None =>
            (None, set_TheModule (eraseFromParent TheFunction (TheModule s)) s)
        end
  end.

Definition FunctionAST_codegen (FnAST : FunctionAST) (s : State) : option nat * State :=
  let '(TheFunction, s) :=
    match getFunction (getName (Proto FnAST)) (TheModule s) with
    | Some f => (Fid f, s)
    | None => PrototypeAST_codegen (Proto FnAST) s
    end in
  FunctionAST_codegen_body (Body FnAST) TheFunction s.

(** ** Top-level parsing *)

Definition InitializeModule : M unit :=
  modify (set_TheModule (mkModule [] 0)) >> modify (set_Builder (0%nat, 0%nat)).

(** A computation that always returns. *)
Definition run {A} (f : State → A * State) : M A :=
  λ s, let '(a, s) := f s in Done a s.

(** [FnIR->print(errs())] *)
Definition print (FnIR : nat) : M unit := λ s,
  match atHandle FnIR (TheModule s) with
  | Some f => Done () (write (errs_Function f) s)
  | None => Done () s
  end.

Definition HandleDefinition (fuel : nat) : M unit :=
  let* FnAST := ParseDefinition fuel in
  match FnAST with
  | Some FnAST =>
      let* FnIR := run (FunctionAST_codegen FnAST) in
      match FnIR with
      | Some FnIR =>
          modify (write (cout ("Parsed a function definition:" +:+ endl))) >>
          print FnIR >>
          modify (write (cout endl))
      | None => ret ()
      end
  | None => getNextToken >> ret ()
  end.

Definition HandleExtern (fuel : nat) : M unit :=
  let* ProtoAST := ParseExtern fuel in
  match ProtoAST with
  | Some ProtoAST =>
      let* FnIR := run (PrototypeAST_codegen ProtoAST) in
      modify (write (cout ("Parsed an extern:" +:+ endl))) >>
      print FnIR >>
      modify (write (cout endl))
  | None => getNextToken >> ret ()
  end.

Definition HandleTopLevelExpression (fuel : nat) : M unit :=
  let* FnAST := ParseTopLevelExpr fuel in
  match FnAST with
  | Some FnAST =>
      let* FnIR := run (FunctionAST_codegen FnAST) in
      match FnIR with
      | Some FnIR =>
          modify (write (cout ("Parsed a top-level expression:" +:+ endl))) >>
          print FnIR >>
          modify (write (cout endl)) >>
          modify (λ s, set_TheModule (eraseFromParent FnIR (TheModule s)) s)
      | None => ret ()
      end
  | None => getNextToken >> ret ()
  end.

Fixpoint MainLoop (fuel : nat) : M unit :=
  match fuel with
  | O => λ _, OutOfFuel
  | S fuel =>
      let* Tok := get CurTok in
      if Tok =? tok_eof then ret ()
      else if Tok =? 59 then
        modify (write (cout "ready> ")) >> getNextToken >> MainLoop fuel
      else if Tok =? tok_def then HandleDefinition fuel >> MainLoop fuel
      else if Tok =? tok_extern then HandleExtern fuel >> MainLoop fuel
      else HandleTopLevelExpression fuel >> MainLoop fuel
  end.

(** ** Main driver code *)

(** The five assignments that open [main]. *)
Definition installBinops (m : gmap ascii Z) : gmap ascii Z :=
  <["/"%char := 40]> (<["*"%char := 40]> (<["-"%char := 20]>
    (<["+"%char := 20]> (<["<"%char := 10]> m)))).

Definition main (fuel : nat) : M Z :=
  modify (λ s, set_BinopPrecedence (installBinops (BinopPrecedence s)) s) >>
  modify (write (cout "ready> ")) >>
  getNextToken >>
  InitializeModule >>
  MainLoop fuel >>
  (λ s, Done () (write (errs_Module (Functions (TheModule s))) s)) >>
  ret 0.

(** The state in which the process starts, reading [input]. *)
Definition start (input : string) : State :=
  mkState input 32 EmptyString (strtod "0") 0 ∅ (mkModule [] 0) (0%nat, 0%nat) ∅ [].

(** ** What the theorems speak about *)

(** The value a computation returned, and the state in which it returned or
    ended the process. *)
Definition result {A} (o : Outcome A) : option A :=
  match o with
  | Done a _ => Some a
  | _ => None
  end.

Definition final {A} (o : Outcome A) : option State :=
  match o with
  | Done _ s => Some s
  | Exited _ s => Some s
  | OutOfFuel => None
  end.

(** [m'] is [m] with, possibly, new keys bound to the default value [d]: what
    [operator[]] can do to a map. *)
Definition grows `{Countable K} {V} (d : V) (m m' : gmap K V) : Prop :=
  ∀ k, m' !! k = m !! k ∨ (m !! k = None ∧ m' !! k = Some d).

(** What the lexer and the parser may do to the state: they read the input,
    set their own variables and write messages, look precedences up, and
    leave the module, the builder and the symbol table alone. *)
Definition parserStep (s s' : State) : Prop :=
  grows 0 (BinopPrecedence s) (BinopPrecedence s') ∧
  TheModule s' = TheModule s ∧
  Builder s' = Builder s ∧
  NamedValues s' = NamedValues s.

(** The one way the process ends early: status 1, after the report of a
    malformed number. *)
Definition fatalExit (status : Z) (s : State) : Prop :=
  status = 1 ∧
  ∃ before Val,
    output s = (before ++ [cerr "Number Syntax Error! Too many decimals: " Val])%list.

(** [m] relates the state it starts in to the state it returns in by [R], and
    ends the process only as [E] allows. *)
Definition satisfies {A} (R : relation State) (E : Z → State → Prop) (m : M A) : Prop :=
  ∀ s, match m s with
       | Done _ s' => R s s'
       | Exited status s' => E status s'
       | OutOfFuel => True
       end.

(** Handles are distinct, and no function is broken: each one is a
    declaration or has blocks that end with their only terminator. *)
Definition ModuleOK (TheModule : Module) : Prop :=
  NoDup (map Fid (Functions TheModule)) ∧
  Forall (λ f, verifyFunction f = false) (Functions TheModule).

(** The characters of a number that follow its first one, and the decimal
    points of a text. *)
Fixpoint numberRun (input : string) : string :=
  match input with
  | EmptyString => EmptyString
  | String c rest =>
      if isdigit (int_of_char c) || (int_of_char c =? 46)
      then String c (numberRun rest)
      else EmptyString
  end.

Fixpoint decimalPoints (text : string) : nat :=
  match text with
  | EmptyString => 0%nat
  | String c rest => ((if Ascii.eqb c "." then 1 else 0) + decimalPoints rest)%nat
  end.

(** The names that the symbol table binds to a value. *)
Definition bound (m : gmap string (option Value)) (Name : string) : Prop :=
  ∃ V, m !! Name = Some (Some V).

(** The module after the instructions [Is] are appended to block [BB] of
    function [F]. *)
Definition appendInsts (F BB : nat) (Is : list Instruction) (TheModule : Module) : Module :=
  updateFunction F (λ f,
    mkFunction (Fid f) (FName f) (FArgs f)
      (alter (λ b, mkBasicBlock (BBName b) (Insts b ++ Is)%list) BB (FBlocks f)))
    TheModule.

(** What the code generation of an expression may do to the state: it appends
    instructions that are no terminators at the builder's insertion point,
    adds null entries to the symbol table and writes messages. *)
Definition exprStep (s s' : State) : Prop :=
  stdin s' = stdin s ∧ LastChar s' = LastChar s ∧
  IdentifierStr s' = IdentifierStr s ∧ NumVal s' = NumVal s ∧
  CurTok s' = CurTok s ∧ BinopPrecedence s' = BinopPrecedence s ∧
  Builder s' = Builder s ∧
  grows None (NamedValues s) (NamedValues s') ∧
  ∃ Is, Forall (λ Ins, isTerminator Ins = false) Is ∧
        TheModule s' = appendInsts (Builder s).1 (Builder s).2 Is (TheModule s).

(** The function that [PrototypeAST::codegen] adds to a module, and a function
    that got its body: one block, the instructions [Is] and the return. *)
Definition declaration (P : PrototypeAST) (TheModule : Module) : Function :=
  mkFunction (newHandle TheModule)
    (createValueName (map FName (Functions TheModule)) "." (getName P)
       (LastUnique TheModule)).1
    (setArgNames (getArgs P) [] 0) [].

Definition completed (Is : list Instruction) (RetVal : Value) (f : Function) : Function :=
  mkFunction (Fid f) (FName f) (FArgs f)
    [mkBasicBlock "entry" (Is ++ [ReturnInst RetVal])%list].

(** The state in which [FunctionAST::codegen] generates the code of the body
    of [f]: the entry block is there, the builder is in it, the symbol table
    holds the arguments of [f]. *)
Definition bodyEntry (f : Function) (s : State) : State :=
  set_NamedValues (recordArgs (Fid f) 0 (FArgs f) ∅)
    (set_Builder (Fid f, 0%nat)
       (set_TheModule (BasicBlock_Create "entry" (Fid f) (TheModule s)).2 s)).

(** Every function of the module has a name. *)
Definition allNamed (TheModule : Module) : Prop :=
  Forall (λ f, FName f ≠ EmptyString) (Functions TheModule).

(** What one turn of the top-level loop may do: precedences are only looked
    up, and a module that is well formed and holds named functions only
    stays so. *)
Definition driverInv (s : State) : Prop :=
  ModuleOK (TheModule s) ∧ allNamed (TheModule s).

Definition driverStep (s s' : State) : Prop :=
  grows 0 (BinopPrecedence s) (BinopPrecedence s') ∧ (driverInv s → driverInv s').

(** [holds R E o s]: the outcome [o] of a computation started in [s] is as
    [R] and [E] allow. *)
Definition holds {A} (R : relation State) (E : Z → State → Prop) (o : Outcome A)
    (s : State) : Prop :=
  match o with
  | Done _ s' => R s s'
  | Exited status s' => E status s'
  | OutOfFuel => True
  end.

(** [ParseExpression] on the text [input], after what [main] does before it
    parses: the operators are installed and the first token is read. *)
Definition parseText (fuel : nat) (input : string) : Outcome (option ExprAST) :=
  (modify (λ s, set_BinopPrecedence (installBinops (BinopPrecedence s)) s) >>
   getNextToken >> ParseExpression fuel) (start input).

(** The characters of an identifier that follow its first one. *)
Fixpoint identifierRun (input : string) : string :=
  match input with
  | EmptyString => EmptyString
  | String c rest =>
      if isalnum (int_of_char c) then String c (identifierRun rest) else EmptyString
  end.

(** What [gettok] may return and keep in [LastChar]: the tokens of the
    enumeration and the characters, or [EOF] and the characters. *)
Definition isToken (t : Z) : Prop := -5 ≤ t ≤ 255.
Definition isChar (c : Z) : Prop := c = EOF ∨ 0 ≤ c ≤ 255.

(** The variables of the lexer and of the parser are the same in two
    states. *)
Definition sameFront (s s' : State) : Prop :=
  stdin s' = stdin s ∧ LastChar s' = LastChar s ∧
  IdentifierStr s' = IdentifierStr s ∧ NumVal s' = NumVal s ∧
  CurTok s' = CurTok s ∧ BinopPrecedence s' = BinopPrecedence s.

(** [m'] returns what [m] returns, wherever [m] has fuel enough to return. *)
Definition refines {A} (m m' : M A) : Prop :=
  ∀ s, m s = OutOfFuel ∨ m s = m' s.

(** The characters that are still to be read, [LastChar] included, and the
    tokens that are still to be handled, [CurTok] included (one for all that
    is unread). *)
Definition charCount (c : Z) : nat := if c =? EOF then 0%nat else 1%nat.

Definition pending (s : State) : nat :=
  (String.length (stdin s) + charCount (LastChar s))%nat.

Definition tokensLeft (s : State) : nat :=
  (pending s + (if (CurTok s =? tok_eof)%Z then 0 else 1))%nat.

(** A text of letters and digits only: what an identifier is. *)
Fixpoint alnumOnly (text : string) : bool :=
  match text with
  | EmptyString => true
  | String c rest => isalnum (int_of_char c) && alnumOnly rest
  end.

(** The five operators that [main] installs. *)
Definition isStandardOp (Op : ascii) : bool :=
  Ascii.eqb Op "<" || Ascii.eqb Op "+" || Ascii.eqb Op "-" || Ascii.eqb Op "*" ||
  Ascii.eqb Op "/".

(** An expression as the parser of [main] returns them: the callees are
    spelt with letters and digits, the operators are among the five. *)
Fixpoint parsable (e : ExprAST) : bool :=
  match e with
  | NumberExprAST _ => true
  | VariableExprAST _ => true
  | BinaryExprAST Op LHS RHS => isStandardOp Op && parsable LHS && parsable RHS
  | CallExprAST Callee Args => alnumOnly Callee && forallb parsable Args
  end.

(** The precedence table binds no operator but the five to a precedence
    above zero. *)
Definition standardOps (m : gmap ascii Z) : Prop :=
  ∀ c p, m !! c = Some p → 0 < p → isStandardOp c = true.

(** The variables of the lexer and of the parser in a run of [main]:
    [IdentifierStr] is a text of letters and digits, the operators are the
    five. *)
Definition front (s : State) : Prop :=
  alnumOnly (IdentifierStr s) = true ∧ standardOps (BinopPrecedence s).

(** The computation came to its end: it returned, as [Q] describes, or it
    ended the process. *)
Definition ensures {A} (Q : A → State → Prop) (o : Outcome A) : Prop :=
  match o with
  | Done a s' => Q a s'
  | Exited _ _ => True
  | OutOfFuel => False
  end.

(** A line that [LogError] writes. *)
Definition isError (o : Output) : Prop := ∃ Str, o = cout ("Error: " +:+ Str +:+ endl).

(** Between [s] and [s'] error messages were written, at least one, and
    nothing else. *)
Definition failed (s s' : State) : Prop :=
  ∃ lines, output s' = (output s ++ lines)%list ∧ lines ≠ [] ∧ Forall isError lines.

(** Between [s] and [s'] one error message was written, and nothing else. *)
Definition failedOnce (s s' : State) : Prop :=
  ∃ Str, output s' = (output s ++ [cout ("Error: " +:+ Str +:+ endl)])%list.

(** What a function of the parser that returned [r] has done: no character or
    token is put back and the variables stay as in a run of [main]; a result
    comes without a line written, and is as [ok] says when the variables were
    as in a run of [main]; the null pointer comes with one error message. *)
Definition parsed {A} (ok : A → Prop) (s : State) (r : option A) (s' : State) : Prop :=
  (tokensLeft s' ≤ tokensLeft s)%nat ∧
  (front s → front s') ∧
  match r with
  | Some a => output s' = output s ∧ (front s → ok a)
  | None => failedOnce s s'
  end.

(** A token was consumed, or the function failed on the token it was called
    with. *)
Definition advanced {A} (s : State) (r : option A) (s' : State) : Prop :=
  (tokensLeft s' < tokensLeft s)%nat ∨ (r = None ∧ CurTok s' = CurTok s).

(** No instruction of the function is a call. *)
Definition isCall (Ins : Instruction) : bool :=
  match Ins with
  | CallInst _ _ _ => true
  | _ => false
  end.

Definition callFree (f : Function) : Prop :=
  Forall (λ b, Forall (λ Ins, isCall Ins = false) (Insts b)) (FBlocks f).

(** No identifier is the name of the function: it has no name, or its name
    has a character that is no letter and no digit. *)
Definition outOfReach (f : Function) : Prop :=
  FName f = EmptyString ∨ alnumOnly (FName f) = false.

Definition sealedModule (TheModule : Module) : Prop :=
  Forall (λ f, callFree f ∧ outOfReach f) (Functions TheModule).

(** What was printed holds no call. *)
Definition callFreeOutput (o : Output) : Prop :=
  match o with
  | errs_Function f => callFree f
  | errs_Module Fs => Forall callFree Fs
  | _ => True
  end.

(** The two messages of the code generation that a run of [main] never
    writes, and a line that is none of them. *)
Definition liveOutput (o : Output) : bool :=
  match o with
  | cout text =>
      negb (String.eqb text ("Error: invalid binary operator" +:+ endl) ||
            String.eqb text ("Error: Incorrect # arguments passed" +:+ endl))
  | _ => true
  end.

(** Lines were written between [s] and [s'], none of them one of the two
    messages. *)
Definition spoke (s s' : State) : Prop :=
  ∃ lines, output s' = (output s ++ lines)%list ∧ Forall (λ o, liveOutput o = true) lines.

(** A name that [ParsePrototype] made of an identifier. *)
Definition mangled (suffix Name : string) : Prop :=
  ∃ Id, alnumOnly Id = true ∧ Name = Id +:+ suffix.

(** The two kinds of function in the module of a run of [main]: a function
    with a body, named by a definition, and a function without one, named by
    an extern (and renamed when that name was taken). *)
Definition defined (f : Function) : Prop :=
  FBlocks f ≠ [] ∧ mangled "_def" (FName f).

Definition declared (f : Function) : Prop :=
  FBlocks f = [] ∧ ∃ rest, mangled ("_ext" +:+ rest) (FName f).

Definition classified (TheModule : Module) : Prop :=
  ModuleOK TheModule ∧ Forall (λ f, defined f ∨ declared f) (Functions TheModule).

(** The state of a run in which no call can be resolved, and none was. *)
Definition sealed (s : State) : Prop :=
  front s ∧
  sealedModule (TheModule s) ∧
  classified (TheModule s) ∧
  Forall callFreeOutput (output s) ∧
  Forall (λ o, liveOutput o = true) (output s).

(** What a function that handles a top-level item writes: error messages,
    or the line [Text], the function and an empty line. *)
Definition answered (Text : string) (s s' : State) : Prop :=
  failed s s' ∨
  ∃ f, output s' = (output s ++ [cout (Text +:+ endl); errs_Function f; cout endl])%list.

(** The outcome of a code generation: a value comes without a line written,
    the null pointer with error messages. *)
Definition reports {A} (s : State) (r : option A) (s' : State) : Prop :=
  match r with
  | Some _ => output s' = output s
  | None => failed s s'
  end.

(** What handling a top-level item comes to: a token at least is consumed, a
    sealed state stays sealed, and the item is answered. *)
Definition handled (Text : string) (s s' : State) : Prop :=
  (tokensLeft s' < tokensLeft s)%nat ∧ (sealed s → sealed s') ∧ answered Text s s'.

(** ** Operators and operands *)

(** An operator that follows an operand: its character, its precedence in
    the table, and the operand that follows it. *)
Record Link : Type := mkLink {
  LinkOp : ascii;
  LinkPrec : Z;
  LinkRHS : ExprAST
}.

(** [chain fuel s links s']: from state [s] on, the input is the operators
    and operands of [links] and then a token that is no operator.  The
    current token of [s] is the first operator, or that token; each operator
    has a precedence above zero in the table; each operand is what
    [ParsePrimary] returns after the operator; [s'] is the state when
    [getTokPrecedence] has seen the token after the last operand. *)
Fixpoint chain (fuel : nat) (s : State) (links : list Link) (s' : State) : Prop :=
  match links with
  | [] => getTokPrecedence s = Done (-1) s'
  | l :: links =>
      isascii (CurTok s) = true ∧ char_of_int (CurTok s) = LinkOp l ∧
      BinopPrecedence s !! LinkOp l = Some (LinkPrec l) ∧ 0 < LinkPrec l ∧
      ∃ t s1 s2, getNextToken s = Done t s1 ∧
                 ParsePrimary fuel s1 = Done (Some (LinkRHS l)) s2 ∧
                 chain fuel s2 links s'
  end.

(** [climbs A links T]: [T] is the tree that precedence gives to the operand
    [A] followed by [links].  Its root is an operator of [links]: the
    operators before it bind at least as tightly and make up its left
    operand with [A], the operators after it bind strictly more tightly and
    make up its right operand. *)
Inductive climbs : ExprAST → list Link → ExprAST → Prop :=
| climbs_operand A : climbs A [] A
| climbs_operator A before l after TL TR :
    climbs A before TL →
    climbs (LinkRHS l) after TR →
    Forall (λ x, LinkPrec l ≤ LinkPrec x) before →
    Forall (λ x, LinkPrec l < LinkPrec x) after →
    climbs A (before ++ l :: after) (BinaryExprAST (LinkOp l) TL TR).

(** The operators of equal precedence, folded to the left. *)
Definition foldLeft (A : ExprAST) (links : list Link) : ExprAST :=
  fold_left (λ T l, BinaryExprAST (LinkOp l) T (LinkRHS l)) links A.

(** ** Recovery *)

(** The parse that [MainLoop] starts on the current token of [s] returns the
    null pointer, in state [s']. *)
Definition failsAt (fuel : nat) (s s' : State) : Prop :=
  if CurTok s =? tok_def then ParseDefinition fuel s = Done None s'
  else if CurTok s =? tok_extern then ParseExtern fuel s = Done None s'
  else ParseTopLevelExpr fuel s = Done None s'.

(** Two states that the loop cannot tell apart: the input that is left, the
    current token with its text or value, the precedence of every character
    (one that is not in the table has precedence 0, as an entry of value 0
    has) and the module are the same.  What was written, the text and the
    value of earlier tokens, the builder and the symbol table may differ. *)
Definition alike (s c : State) : Prop :=
  stdin s = stdin c ∧ LastChar s = LastChar c ∧ isChar (LastChar c) ∧
  CurTok s = CurTok c ∧
  (CurTok c = tok_identifier → IdentifierStr s = IdentifierStr c) ∧
  (CurTok c = tok_number → NumVal s = NumVal c) ∧
  (∀ k, default 0 (BinopPrecedence s !! k) = default 0 (BinopPrecedence c !! k)) ∧
  TheModule s = TheModule c.

(** From [s] to [s'] and from [c] to [c'] the same lines were written. *)
Definition sameLines (s s' c c' : State) : Prop :=
  ∃ lines, output s' = (output s ++ lines)%list ∧ output c' = (output c ++ lines)%list.

(** Two runs, from [s] and from [c], that come to the same end: the same
    result in states that are alike, or the same exit status, with the same
    lines written. *)
Definition sameRun {A} (s c : State) (o o' : Outcome A) : Prop :=
  match o, o' with
  | Done a s', Done a' c' => a = a' ∧ alike s' c' ∧ sameLines s s' c c'
  | Exited st s', Exited st' c' => st = st' ∧ sameLines s s' c c'
  | OutOfFuel, OutOfFuel => True
  | _, _ => False
  end.

(** The module, the builder and the symbol table are the same. *)
Definition sameBack (s c : State) : Prop :=
  TheModule s = TheModule c ∧ Builder s = Builder c ∧ NamedValues s = NamedValues c.

(** What is the same after [gettok] in two states with the same input. *)
Definition lexed (s c : State) (o o' : Outcome Z) : Prop :=
  match o, o' with
  | Done t s', Done t' c' =>
      t = t' ∧ stdin s' = stdin c' ∧ LastChar s' = LastChar c' ∧ isChar (LastChar c') ∧
      (t = tok_identifier → IdentifierStr s' = IdentifierStr c') ∧
      (t = tok_number → NumVal s' = NumVal c') ∧
      (BinopPrecedence s' = BinopPrecedence s ∧ TheModule s' = TheModule s ∧
       output s' = output s) ∧
      (BinopPrecedence c' = BinopPrecedence c ∧ TheModule c' = TheModule c ∧
       output c' = output c)
  | Exited st s', Exited st' c' => st = st' ∧ sameLines s s' c c'
  | OutOfFuel, OutOfFuel => True
  | _, _ => False
  end.

(** [f] does the same from two states with the same module, builder and
    symbol table: same result, same lines written, and these three are the
    same afterwards. *)
Definition alikeStep {A} (f : State → A * State) : Prop :=
  ∀ s c, sameBack s c →
    (f s).1 = (f c).1 ∧ sameBack (f s).2 (f c).2 ∧ sameLines s (f s).2 c (f c).2.

(** * Properties *)

(** ** Computations *)

Lemma bind_Done {A B} (m : M A) (k : A → M B) s b s'' :
  bind m k s = Done b s'' → ∃ a s', m s = Done a s' ∧ k a s' = Done b s''.
Proof. unfold bind. destruct (m s); naive_solver. Qed.

Lemma satisfies_ret {A} R E `{!Reflexive R} (a : A) : satisfies R E (ret a).
Proof. intros s. simpl. reflexivity. Qed.

Lemma satisfies_get {A} R E `{!Reflexive R} (f : State → A) : satisfies R E (get f).
Proof. intros s. simpl. reflexivity. Qed.

Lemma satisfies_modify R E (f : State → State) :
  (∀ s, R s (f s)) → satisfies R E (modify f).
Proof. intros H s. apply H. Qed.

Lemma satisfies_bind {A B} R E `{!Transitive R} (m : M A) (k : A → M B) :
  satisfies R E m → (∀ a, satisfies R E (k a)) → satisfies R E (bind m k).
Proof.
  intros Hm Hk s. unfold bind. specialize (Hm s).
  destruct (m s) as [a s'| |]; try done.
  specialize (Hk a s'). destruct (k a s'); try done. by etrans.
Qed.

Lemma satisfies_weaken {A} (R R' : relation State) E (m : M A) :
  (∀ s s', R s s' → R' s s') → satisfies R E m → satisfies R' E m.
Proof. intros HR Hm s. specialize (Hm s). destruct (m s); auto. Qed.

Lemma satisfies_out_of_fuel {A} R E : satisfies (A:=A) R E (λ _, OutOfFuel).
Proof. by intros s. Qed.

(** ** What the lexer and the parser leave alone *)

Lemma grows_refl `{Countable K} {V} (d : V) (m : gmap K V) : grows d m m.
Proof. intros k. by left. Qed.

Lemma grows_trans `{Countable K} {V} (d : V) (m1 m2 m3 : gmap K V) :
  grows d m1 m2 → grows d m2 m3 → grows d m1 m3.
Proof.
  intros H12 H23 k. destruct (H12 k) as [E1|[E1 E1']], (H23 k) as [E2|[E2 E2']].
  - left. congruence.
  - right. split; congruence.
  - right. split; congruence.
  - congruence.
Qed.

Lemma grows_subscript `{Countable K} {V} (d : V) (m : gmap K V) k :
  grows d m (subscript m k d).2.
Proof.
  unfold subscript. destruct (m !! k) eqn:Hk; simpl; [apply grows_refl|].
  intros k'. destruct (decide (k = k')) as [->|Hne].
  - right. by rewrite lookup_insert_eq.
  - left. by rewrite lookup_insert_ne.
Qed.

#[local] Instance parserStep_preorder : PreOrder parserStep.
Proof.
  split.
  - intros s. repeat split. apply grows_refl.
  - intros s1 s2 s3 (G1 & M1 & B1 & N1) (G2 & M2 & B2 & N2).
    repeat split; try congruence. by eapply grows_trans.
Qed.

Lemma parserStep_write o s : parserStep s (write o s).
Proof. repeat split. apply grows_refl. Qed.

Lemma fatalExit_write s Val :
  fatalExit 1 (write (cerr "Number Syntax Error! Too many decimals: " Val) s).
Proof. split; [done|]. by exists (output s), Val. Qed.

Lemma gettok_char_satisfies input c : satisfies parserStep fatalExit (gettok_char input c).
Proof.
  intros s. unfold gettok_char. destruct (c =? EOF); [|destruct input];
    repeat split; apply grows_refl.
Qed.

Lemma gettok_rec_satisfies n : satisfies parserStep fatalExit (gettok_rec n).
Proof.
  induction n as [|n IH]; intros s; simpl;
    destruct (skipWhitespace (stdin s) (LastChar s)) as [input c];
    (destruct (isalpha c);
     [destruct (readIdentifier input _) as [[input' c'] Id];
      destruct (String.eqb Id "def"); [|destruct (String.eqb Id "extern")];
      repeat split; apply grows_refl|]);
    (destruct (isdigit c || (c =? 46));
     [destruct (readNumber input c _ _ _) as [[[input' c'] NumStr] de];
      destruct de; [apply fatalExit_write | repeat split; apply grows_refl]|]);
    (destruct (c =? 35); [|apply gettok_char_satisfies]);
    destruct (skipComment input) as [input' c'];
    (destruct (negb (c' =? EOF)); [|apply gettok_char_satisfies]).
  - done.
  - specialize (IH (set_lexer input' c' s)).
    destruct (gettok_rec n _); done.
Qed.

Lemma gettok_satisfies : satisfies parserStep fatalExit gettok.
Proof. intros s. apply gettok_rec_satisfies. Qed.

Lemma getNextToken_satisfies : satisfies parserStep fatalExit getNextToken.
Proof.
  unfold getNextToken. apply satisfies_bind; [apply _|apply gettok_satisfies|intros Tok].
  apply satisfies_bind; [apply _| |intros; apply satisfies_ret; apply _].
  apply satisfies_modify. intros s. repeat split. apply grows_refl.
Qed.

Lemma getTokPrecedence_satisfies : satisfies parserStep fatalExit getTokPrecedence.
Proof.
  intros s. unfold getTokPrecedence, bind, get. simpl.
  destruct (negb (isascii (CurTok s))); simpl; [reflexivity|].
  pose proof (grows_subscript 0 (BinopPrecedence s) (char_of_int (CurTok s))) as HG.
  destruct (subscript _ _ _) as [v m]. simpl in *.
  destruct (v <=? 0); simpl; repeat split; done.
Qed.

Lemma LogError_satisfies Str : satisfies parserStep fatalExit (LogError Str).
Proof. intros s. simpl. apply parserStep_write. Qed.

Lemma LogErrorP_satisfies Str : satisfies parserStep fatalExit (LogErrorP Str).
Proof. intros s. simpl. apply parserStep_write. Qed.

Ltac parser_step :=
  match goal with
  | |- satisfies _ _ (bind _ _) => apply satisfies_bind; [apply _| |intros ?]
  | |- satisfies _ _ (ret _) => apply satisfies_ret; apply _
  | |- satisfies _ _ (get _) => apply satisfies_get; apply _
  | |- satisfies _ _ (λ _, OutOfFuel) => apply satisfies_out_of_fuel
  | |- satisfies _ _ getNextToken => apply getNextToken_satisfies
  | |- satisfies _ _ getTokPrecedence => apply getTokPrecedence_satisfies
  | |- satisfies _ _ (LogError _) => apply LogError_satisfies
  | |- satisfies _ _ (LogErrorP _) => apply LogErrorP_satisfies
  | |- satisfies _ _ (if ?b then _ else _) => destruct b
  | |- satisfies _ _ (match ?x with _ => _ end) => destruct x
  end.

Lemma ParseNumberExpr_satisfies : satisfies parserStep fatalExit ParseNumberExpr.
Proof. unfold ParseNumberExpr. repeat parser_step. Qed.

Lemma expression_parser_satisfies fuel :
  satisfies parserStep fatalExit (ParseExpression fuel) ∧
  satisfies parserStep fatalExit (ParsePrimary fuel) ∧
  satisfies parserStep fatalExit (ParseParenExpr fuel) ∧
  satisfies parserStep fatalExit (ParseIdentifierExpr fuel) ∧
  (∀ Args, satisfies parserStep fatalExit (ParseArgs fuel Args)) ∧
  (∀ ExprPrec LHS, satisfies parserStep fatalExit (ParseBinOpRHS fuel ExprPrec LHS)).
Proof.
  induction fuel as [|fuel (IHe & IHp & IHpar & IHid & IHargs & IHrhs)].
  { repeat split; intros; apply satisfies_out_of_fuel. }
  repeat split; intros; simpl;
    repeat first [ parser_step | apply ParseNumberExpr_satisfies | apply IHe | apply IHp
                 | apply IHpar | apply IHid | apply IHargs | apply IHrhs ].
Qed.

Lemma ParseExpression_satisfies fuel : satisfies parserStep fatalExit (ParseExpression fuel).
Proof. apply expression_parser_satisfies. Qed.

Lemma ParsePrimary_satisfies fuel : satisfies parserStep fatalExit (ParsePrimary fuel).
Proof. apply expression_parser_satisfies. Qed.

Lemma ParseBinOpRHS_satisfies fuel ExprPrec LHS :
  satisfies parserStep fatalExit (ParseBinOpRHS fuel ExprPrec LHS).
Proof. apply expression_parser_satisfies. Qed.

Lemma ParseArgNames_satisfies fuel ArgNames :
  satisfies parserStep fatalExit (ParseArgNames fuel ArgNames).
Proof.
  revert ArgNames. induction fuel as [|fuel IH]; intros; simpl;
    repeat first [ parser_step | apply IH ].
Qed.

Lemma ParsePrototype_satisfies fuel : satisfies parserStep fatalExit (ParsePrototype fuel).
Proof.
  unfold ParsePrototype. repeat first [ parser_step | apply ParseArgNames_satisfies ].
Qed.

Lemma ParseDefinition_satisfies fuel : satisfies parserStep fatalExit (ParseDefinition fuel).
Proof.
  unfold ParseDefinition.
  repeat first [ parser_step | apply ParsePrototype_satisfies | apply ParseExpression_satisfies ].
Qed.

Lemma ParseTopLevelExpr_satisfies fuel : satisfies parserStep fatalExit (ParseTopLevelExpr fuel).
Proof.
  unfold ParseTopLevelExpr. repeat first [ parser_step | apply ParseExpression_satisfies ].
Qed.

(** ** What code generation does to the module *)

Lemma ExprAST_ind' (P : ExprAST → Prop) :
  (∀ Val, P (NumberExprAST Val)) →
  (∀ Name, P (VariableExprAST Name)) →
  (∀ Op LHS RHS, P LHS → P RHS → P (BinaryExprAST Op LHS RHS)) →
  (∀ Callee Args, Forall P Args → P (CallExprAST Callee Args)) →
  ∀ e, P e.
Proof.
  intros HN HV HB HC. fix IH 1. intros [Val|Name|Op LHS RHS|Callee Args].
  - apply HN.
  - apply HV.
  - apply HB; apply IH.
  - apply HC. induction Args as [|Arg Args IHArgs]; constructor; [apply IH|apply IHArgs].
Qed.

Lemma updateFunction_updateFunction F g1 g2 TheModule :
  (∀ f, Fid (g1 f) = Fid f) →
  updateFunction F g2 (updateFunction F g1 TheModule) =
  updateFunction F (λ f, g2 (g1 f)) TheModule.
Proof.
  intros Hid. unfold updateFunction. simpl. f_equal. rewrite map_map.
  apply map_ext. intros f. destruct (Nat.eqb (Fid f) F) eqn:E.
  - by rewrite Hid, E.
  - by rewrite E.
Qed.

Lemma appendInsts_nil F BB TheModule : appendInsts F BB [] TheModule = TheModule.
Proof.
  destruct TheModule as [Fs LU]. unfold appendInsts, updateFunction. simpl. f_equal.
  rewrite <- (map_id Fs) at 2. apply map_ext. intros [id name args blocks]. simpl.
  destruct (Nat.eqb id F); [|done]. f_equal.
  apply list_alter_id. intros [n insts]. simpl. by rewrite app_nil_r.
Qed.

Lemma appendInsts_appendInsts F BB Is1 Is2 TheModule :
  appendInsts F BB Is2 (appendInsts F BB Is1 TheModule) =
  appendInsts F BB (Is1 ++ Is2) TheModule.
Proof.
  unfold appendInsts. rewrite updateFunction_updateFunction by done.
  unfold updateFunction. f_equal. apply map_ext. intros f.
  destruct (Nat.eqb (Fid f) F); [|done]. simpl. f_equal.
  rewrite list_alter_alter_eq. apply list_alter_ext; [|done].
  intros b _. simpl. by rewrite app_assoc.
Qed.

#[local] Instance exprStep_preorder : PreOrder exprStep.
Proof.
  split.
  - intros s. repeat split; try apply grows_refl.
    exists []. split; [constructor|]. by rewrite appendInsts_nil.
  - intros s1 s2 s3 (I1 & C1 & D1 & N1 & T1 & P1 & B1 & G1 & Is1 & F1 & M1)
                    (I2 & C2 & D2 & N2 & T2 & P2 & B2 & G2 & Is2 & F2 & M2).
    repeat split; try congruence; [by eapply grows_trans|].
    exists (Is1 ++ Is2)%list. split; [by apply Forall_app|].
    rewrite M2, M1, B1. apply appendInsts_appendInsts.
Qed.

Lemma exprStep_logged Str s : exprStep s (logged Str s).
Proof.
  repeat split; try apply grows_refl.
  exists []. split; [constructor|]. simpl. by rewrite appendInsts_nil.
Qed.

Lemma exprStep_Insert Ins s :
  isTerminator Ins = false → exprStep s (Insert Ins s).2.
Proof.
  intros HT. unfold Insert. destruct (Builder s) as [F BB] eqn:HB. simpl.
  repeat split; try done; try apply grows_refl.
  exists [Ins]. split; [by repeat constructor|]. by rewrite HB.
Qed.

Lemma exprStep_CreateBinOp Opc L R Name s : exprStep s (CreateBinOp Opc L R Name s).2.
Proof.
  unfold CreateBinOp. destruct L, R; try (by apply exprStep_Insert); reflexivity.
Qed.

Lemma exprStep_CreateFCmpULT L R Name s : exprStep s (CreateFCmpULT L R Name s).2.
Proof.
  unfold CreateFCmpULT. destruct L, R; try (by apply exprStep_Insert); reflexivity.
Qed.

Lemma exprStep_CreateUIToFP V Name s : exprStep s (CreateUIToFP V Name s).2.
Proof.
  unfold CreateUIToFP. destruct V; try (by apply exprStep_Insert); reflexivity.
Qed.

Lemma exprStep_CreateCall Callee Args Name s : exprStep s (CreateCall Callee Args Name s).2.
Proof. by apply exprStep_Insert. Qed.

Lemma exprStep_subscript Name s :
  exprStep s (set_NamedValues (subscript (NamedValues s) Name None).2 s).
Proof.
  repeat split; try done; [apply grows_subscript|].
  exists []. split; [constructor|]. simpl. by rewrite appendInsts_nil.
Qed.

Lemma codegenArgs_step codegen Args :
  Forall (λ Arg, ∀ s, exprStep s (codegen Arg s).2) Args →
  ∀ ArgsV s, exprStep s (codegenArgs codegen Args ArgsV s).2.
Proof.
  induction 1 as [|Arg Args HArg _ IH]; intros ArgsV s; simpl; [reflexivity|].
  specialize (HArg s). destruct (codegen Arg s) as [[V|] s1]; simpl in *; [|done].
  etrans; [exact HArg|apply IH].
Qed.

Lemma ExprAST_codegen_step e : ∀ s, exprStep s (ExprAST_codegen e s).2.
Proof.
  induction e as [Val|Name|Op LHS RHS IHL IHR|Callee Args IHArgs] using ExprAST_ind';
    intros s; simpl.
  - reflexivity.
  - pose proof (exprStep_subscript Name s) as HS.
    destruct (subscript (NamedValues s) Name None) as [[V|] m]; simpl in *; [done|].
    etrans; [exact HS|apply exprStep_logged].
  - specialize (IHL s). destruct (ExprAST_codegen LHS s) as [L s1]. simpl in *.
    specialize (IHR s1). destruct (ExprAST_codegen RHS s1) as [R s2]. simpl in *.
    assert (exprStep s s2) as H12 by (by etrans).
    destruct L as [L|], R as [R|]; try done.
    repeat match goal with
    | |- context [if Ascii.eqb Op ?c then _ else _] => destruct (Ascii.eqb Op c)
    end.
    + pose proof (exprStep_CreateBinOp FAdd L R "addtmp" s2).
      destruct (CreateBinOp _ _ _ _ _). simpl in *. by etrans.
    + pose proof (exprStep_CreateBinOp FSub L R "subtmp" s2).
      destruct (CreateBinOp _ _ _ _ _). simpl in *. by etrans.
    + pose proof (exprStep_CreateBinOp FMul L R "multmp" s2).
      destruct (CreateBinOp _ _ _ _ _). simpl in *. by etrans.
    + pose proof (exprStep_CreateBinOp FDiv L R "divtmp" s2).
      destruct (CreateBinOp _ _ _ _ _). simpl in *. by etrans.
    + pose proof (exprStep_CreateFCmpULT L R "cmptmp" s2) as H1.
      destruct (CreateFCmpULT _ _ _ _) as [L' s3]. simpl in *.
      pose proof (exprStep_CreateUIToFP L' "booltmp" s3) as H2.
      destruct (CreateUIToFP _ _ _). simpl in *. etrans; [exact H12|]. by etrans.
    + simpl. etrans; [exact H12|apply exprStep_logged].
  - destruct (getFunction Callee (TheModule s)) as [CalleeF|]; [|apply exprStep_logged].
    destruct (negb _); [apply exprStep_logged|].
    pose proof (codegenArgs_step ExprAST_codegen Args IHArgs [] s) as HA.
    destruct (codegenArgs _ _ _ _) as [[ArgsV|] s1]; simpl in *; [|done].
    pose proof (exprStep_CreateCall (Fid CalleeF) ArgsV "calltmp" s1).
    destruct (CreateCall _ _ _ _). simpl in *. by etrans.
Qed.

(** ** Handles and the functions of a module *)

Lemma newHandle_above TheModule f :
  f ∈ Functions TheModule → (Fid f < newHandle TheModule)%nat.
Proof.
  unfold newHandle. induction (Functions TheModule) as [|g Fs IH]; intros Hin.
  - by apply elem_of_nil in Hin.
  - apply elem_of_cons in Hin as [->|Hin]; simpl; [lia|].
    specialize (IH Hin). lia.
Qed.

Lemma newHandle_fresh TheModule f :
  f ∈ Functions TheModule → Fid f ≠ newHandle TheModule.
Proof. intros H%newHandle_above. lia. Qed.

Lemma map_update_fresh F (g : Function → Function) Fs :
  (∀ f, f ∈ Fs → Fid f ≠ F) →
  map (λ f, if Nat.eqb (Fid f) F then g f else f) Fs = Fs.
Proof.
  intros Hfresh. rewrite <- (map_id Fs) at 2. apply map_ext_in.
  intros f Hf%list_elem_of_In. apply Hfresh in Hf.
  by apply Nat.eqb_neq in Hf as ->.
Qed.

Lemma updateFunction_last F g Fs f0 LU :
  (∀ f, f ∈ Fs → Fid f ≠ F) → Fid f0 = F →
  updateFunction F g (mkModule (Fs ++ [f0]) LU) = mkModule (Fs ++ [g f0]) LU.
Proof.
  intros Hfresh Hid. unfold updateFunction. simpl. f_equal.
  rewrite map_app, map_update_fresh by done. simpl.
  by apply Nat.eqb_eq in Hid as ->.
Qed.

Lemma atHandle_last F Fs f0 LU :
  (∀ f, f ∈ Fs → Fid f ≠ F) → Fid f0 = F →
  atHandle F (mkModule (Fs ++ [f0]) LU) = Some f0.
Proof.
  intros Hfresh Hid. unfold atHandle. simpl.
  induction Fs as [|g Fs IH]; simpl.
  - by apply Nat.eqb_eq in Hid as ->.
  - assert (Fid g ≠ F) as Hg by (apply Hfresh; left).
    apply Nat.eqb_neq in Hg as ->. apply IH. intros f Hf. apply Hfresh. by right.
Qed.

Lemma eraseFromParent_last F Fs f0 LU :
  (∀ f, f ∈ Fs → Fid f ≠ F) → Fid f0 = F →
  eraseFromParent F (mkModule (Fs ++ [f0]) LU) = mkModule Fs LU.
Proof.
  intros Hfresh Hid. unfold eraseFromParent. simpl. f_equal.
  rewrite List.filter_app. simpl.
  apply Nat.eqb_eq in Hid as ->. simpl. rewrite app_nil_r.
  induction Fs as [|g Fs IH]; simpl; [done|].
  assert (Fid g ≠ F) as Hg by (apply Hfresh; left).
  apply Nat.eqb_neq in Hg as ->. simpl. f_equal. apply IH.
  intros f Hf. apply Hfresh. by right.
Qed.

Lemma eraseFromParent_updateFunction F g TheModule :
  (∀ f, Fid (g f) = Fid f) →
  eraseFromParent F (updateFunction F g TheModule) = eraseFromParent F TheModule.
Proof.
  intros Hid. unfold eraseFromParent, updateFunction. simpl. f_equal.
  induction (Functions TheModule) as [|f Fs IH]; simpl; [done|].
  destruct (Nat.eqb (Fid f) F) eqn:E; simpl.
  - by rewrite Hid, E.
  - rewrite E. simpl. by f_equal.
Qed.

Lemma eraseFromParent_appendInsts F BB Is TheModule :
  eraseFromParent F (appendInsts F BB Is TheModule) = eraseFromParent F TheModule.
Proof. by apply eraseFromParent_updateFunction. Qed.

Lemma atHandle_updateFunction F g TheModule :
  (∀ f, Fid (g f) = Fid f) →
  atHandle F (updateFunction F g TheModule) = g <$> atHandle F TheModule.
Proof.
  intros Hid. unfold atHandle, updateFunction. simpl.
  induction (Functions TheModule) as [|f Fs IH]; simpl; [done|].
  destruct (Nat.eqb (Fid f) F) eqn:E; simpl.
  - by rewrite Hid, E.
  - by rewrite E.
Qed.

Lemma atHandle_Some F TheModule f :
  atHandle F TheModule = Some f → f ∈ Functions TheModule ∧ Fid f = F.
Proof.
  unfold atHandle. intros H. apply List.find_some in H as [Hin HF].
  split; [by apply list_elem_of_In|by apply Nat.eqb_eq].
Qed.

Lemma atHandle_unique TheModule f :
  NoDup (map Fid (Functions TheModule)) → f ∈ Functions TheModule →
  atHandle (Fid f) TheModule = Some f.
Proof.
  unfold atHandle. induction (Functions TheModule) as [|g Fs IH]; simpl; intros ND Hin.
  - by apply elem_of_nil in Hin.
  - apply NoDup_cons in ND as [Hg ND].
    apply elem_of_cons in Hin as [->|Hin]; [by rewrite Nat.eqb_refl|].
    destruct (Nat.eqb (Fid g) (Fid f)) eqn:E; [|by apply IH].
    apply Nat.eqb_eq in E. exfalso. apply Hg. rewrite E.
    by apply list_elem_of_fmap_2.
Qed.

Lemma getFunction_Some Name TheModule f :
  getFunction Name TheModule = Some f →
  f ∈ Functions TheModule ∧ FName f = Name ∧ Name ≠ EmptyString.
Proof.
  unfold getFunction. destruct (String.eqb Name EmptyString) eqn:E; [done|].
  intros H. apply List.find_some in H as [Hin HN].
  apply String.eqb_eq in HN. apply String.eqb_neq in E.
  split; [by apply list_elem_of_In|done].
Qed.

Lemma Fid_updateFunction F g TheModule :
  (∀ f, Fid (g f) = Fid f) →
  map Fid (Functions (updateFunction F g TheModule)) = map Fid (Functions TheModule).
Proof.
  intros Hid. unfold updateFunction. simpl. rewrite map_map. apply map_ext.
  intros f. by destruct (Nat.eqb (Fid f) F).
Qed.

Lemma Forall_updateFunction (P : Function → Prop) F g TheModule :
  Forall P (Functions TheModule) →
  (∀ f, f ∈ Functions TheModule → Fid f = F → P (g f)) →
  Forall P (Functions (updateFunction F g TheModule)).
Proof.
  intros HP Hg. unfold updateFunction. simpl. apply Forall_forall.
  intros f' Hin. apply list_elem_of_fmap in Hin as (f & -> & Hin).
  destruct (Nat.eqb (Fid f) F) eqn:E.
  - apply Hg; [done|by apply Nat.eqb_eq].
  - by eapply Forall_forall in HP.
Qed.

Lemma elem_of_eraseFromParent F TheModule f :
  f ∈ Functions (eraseFromParent F TheModule) ↔ f ∈ Functions TheModule ∧ Fid f ≠ F.
Proof.
  unfold eraseFromParent. simpl. rewrite !list_elem_of_In, List.filter_In.
  rewrite Bool.negb_true_iff, Nat.eqb_neq. done.
Qed.

(** ** [PrototypeAST::codegen] and [FunctionAST::codegen] *)

Lemma PrototypeAST_codegen_eq P s :
  PrototypeAST_codegen P s =
  (newHandle (TheModule s),
   set_TheModule
     (mkModule (Functions (TheModule s) ++ [declaration P (TheModule s)])
        (createValueName (map FName (Functions (TheModule s))) "." (getName P)
           (LastUnique (TheModule s))).2) s).
Proof.
  unfold PrototypeAST_codegen, Function_Create, declaration.
  destruct (createValueName _ _ _ _) as [N LU]. simpl.
  rewrite updateFunction_last; [done| |done].
  intros f. apply newHandle_fresh.
Qed.

Lemma wellFormedBlock_completed Is RetVal :
  Forall (λ Ins, isTerminator Ins = false) Is →
  wellFormedBlock (mkBasicBlock "entry" (Is ++ [ReturnInst RetVal])) = true.
Proof.
  intros HIs. unfold wellFormedBlock. simpl. rewrite reverse_app. simpl.
  apply forallb_forall. intros J HJ%list_elem_of_In. rewrite elem_of_reverse in HJ.
  rewrite Forall_forall in HIs. by rewrite (HIs J HJ).
Qed.

Lemma verifyFunction_completed Is RetVal f :
  Forall (λ Ins, isTerminator Ins = false) Is →
  verifyFunction (completed Is RetVal f) = false.
Proof.
  intros HIs. unfold verifyFunction. simpl. by rewrite wellFormedBlock_completed.
Qed.

Lemma updateFunction_only F g h TheModule :
  (∀ f, f ∈ Functions TheModule → Fid f = F → g f = h f) →
  updateFunction F g TheModule = updateFunction F h TheModule.
Proof.
  intros Hgh. unfold updateFunction. f_equal. apply map_ext_in.
  intros f Hf%list_elem_of_In. destruct (Nat.eqb (Fid f) F) eqn:E; [|done].
  apply Hgh; [done|by apply Nat.eqb_eq].
Qed.

(** The two ways in which the code of a body is generated for a function that
    has none yet. *)
Lemma FunctionAST_codegen_body_spec Body s f :
  atHandle (Fid f) (TheModule s) = Some f →
  (∀ f', f' ∈ Functions (TheModule s) → Fid f' = Fid f → f' = f) →
  FBlocks f = [] →
  ∃ r s1 Is,
    ExprAST_codegen Body (bodyEntry f s) = (r, s1) ∧
    exprStep (bodyEntry f s) s1 ∧
    Forall (λ Ins, isTerminator Ins = false) Is ∧
    match r with
    | Some RetVal =>
        FunctionAST_codegen_body Body (Fid f) s =
        (Some (Fid f),
         set_TheModule (updateFunction (Fid f) (completed Is RetVal) (TheModule s)) s1)
    | None =>
        FunctionAST_codegen_body Body (Fid f) s =
        (None, set_TheModule (eraseFromParent (Fid f) (TheModule s)) s1)
    end.
Proof.
  intros Hat Honly Hblocks.
  pose proof (ExprAST_codegen_step Body (bodyEntry f s)) as Hstep.
  unfold FunctionAST_codegen_body. rewrite Hat, Hblocks. simpl.
  unfold BasicBlock_Create. rewrite Hat, Hblocks. simpl.
  unfold bodyEntry, BasicBlock_Create in Hstep. rewrite Hat, Hblocks in Hstep. simpl in Hstep.
  unfold bodyEntry, BasicBlock_Create. rewrite Hat, Hblocks. simpl.
  destruct (ExprAST_codegen Body _) as [r s1]. simpl in Hstep.
  pose proof Hstep as (_ & _ & _ & _ & _ & _ & HB & HG & Is & HIs & HM).
  simpl in HB, HM.
  exists r, s1, Is. do 3 (split; [done|]). destruct r as [RetVal|].
  - unfold CreateRet, Insert. rewrite HB. simpl. f_equal. f_equal.
    rewrite HM. fold (appendInsts (Fid f) 0 [ReturnInst RetVal]
      (appendInsts (Fid f) 0 Is (updateFunction (Fid f)
         (λ f0, mkFunction (Fid f0) (FName f0) (FArgs f0)
            (FBlocks f0 ++ [mkBasicBlock "entry" []])) (TheModule s)))).
    rewrite appendInsts_appendInsts. unfold appendInsts.
    rewrite updateFunction_updateFunction by done.
    apply updateFunction_only. intros f' Hin Hid.
    rewrite (Honly f' Hin Hid). unfold completed. simpl. by rewrite Hblocks.
  - f_equal. f_equal. rewrite HM.
    by rewrite eraseFromParent_appendInsts, eraseFromParent_updateFunction.
Qed.

(** The three paths of [FunctionAST::codegen]. *)

Lemma FunctionAST_codegen_redefinition FnAST s f :
  NoDup (map Fid (Functions (TheModule s))) →
  getFunction (getName (Proto FnAST)) (TheModule s) = Some f →
  FBlocks f ≠ [] →
  FunctionAST_codegen FnAST s = (None, logged "Function cannot be redefined." s).
Proof.
  intros ND HG Hblocks. unfold FunctionAST_codegen. rewrite HG.
  apply getFunction_Some in HG as (Hin & _ & _).
  unfold FunctionAST_codegen_body. rewrite (atHandle_unique _ _ ND Hin).
  destruct (FBlocks f); done.
Qed.

Lemma FunctionAST_codegen_reuse FnAST s f :
  NoDup (map Fid (Functions (TheModule s))) →
  getFunction (getName (Proto FnAST)) (TheModule s) = Some f →
  FBlocks f = [] →
  ∃ r s1 Is,
    ExprAST_codegen (Body FnAST) (bodyEntry f s) = (r, s1) ∧
    exprStep (bodyEntry f s) s1 ∧
    Forall (λ Ins, isTerminator Ins = false) Is ∧
    match r with
    | Some RetVal =>
        FunctionAST_codegen FnAST s =
        (Some (Fid f),
         set_TheModule (updateFunction (Fid f) (completed Is RetVal) (TheModule s)) s1)
    | None =>
        FunctionAST_codegen FnAST s =
        (None, set_TheModule (eraseFromParent (Fid f) (TheModule s)) s1)
    end.
Proof.
  intros ND HG Hblocks. unfold FunctionAST_codegen. rewrite HG.
  apply getFunction_Some in HG as (Hin & _ & _).
  apply FunctionAST_codegen_body_spec; [by apply atHandle_unique| |done].
  intros f' Hin' Hid.
  pose proof (atHandle_unique _ _ ND Hin') as H1.
  pose proof (atHandle_unique _ _ ND Hin) as H2. congruence.
Qed.

Lemma FunctionAST_codegen_fresh FnAST s :
  getFunction (getName (Proto FnAST)) (TheModule s) = None →
  let f := declaration (Proto FnAST) (TheModule s) in
  let LU := (createValueName (map FName (Functions (TheModule s))) "."
               (getName (Proto FnAST)) (LastUnique (TheModule s))).2 in
  let s0 := set_TheModule (mkModule (Functions (TheModule s) ++ [f]) LU) s in
  ∃ r s1 Is,
    ExprAST_codegen (Body FnAST) (bodyEntry f s0) = (r, s1) ∧
    exprStep (bodyEntry f s0) s1 ∧
    Forall (λ Ins, isTerminator Ins = false) Is ∧
    match r with
    | Some RetVal =>
        FunctionAST_codegen FnAST s =
        (Some (Fid f),
         set_TheModule (mkModule (Functions (TheModule s) ++ [completed Is RetVal f]) LU) s1)
    | None =>
        FunctionAST_codegen FnAST s =
        (None, set_TheModule (mkModule (Functions (TheModule s)) LU) s1)
    end.
Proof.
  intros HG f LU s0. unfold FunctionAST_codegen. rewrite HG, PrototypeAST_codegen_eq.
  fold f. fold LU. fold s0.
  assert (∀ g, g ∈ Functions (TheModule s) → Fid g ≠ Fid f) as Hfresh.
  { intros g. apply newHandle_fresh. }
  destruct (FunctionAST_codegen_body_spec (Body FnAST) s0 f) as (r & s1 & Is & HE & HS & HIs & Hr).
  - by apply atHandle_last.
  - intros f' Hin' Hid. simpl in Hin'. apply elem_of_app in Hin' as [Hin'|Hin'].
    + by apply Hfresh in Hin'.
    + by apply list_elem_of_singleton in Hin'.
  - done.
  - exists r, s1, Is. do 3 (split; [done|]). change (newHandle (TheModule s)) with (Fid f).
    destruct r as [RetVal|]; rewrite Hr; simpl.
    + by rewrite updateFunction_last.
    + by rewrite eraseFromParent_last.
Qed.

(** ** Modules stay well formed *)

Lemma NoDup_Fid_filter (p : Function → bool) Fs :
  NoDup (map Fid Fs) → NoDup (map Fid (List.filter p Fs)).
Proof.
  induction Fs as [|f Fs IH]; simpl; [done|]. intros [Hf ND]%NoDup_cons.
  destruct (p f); simpl; [|by apply IH]. apply NoDup_cons. split; [|by apply IH].
  intros Hin. apply Hf. apply list_elem_of_fmap in Hin as (g & Hg & Hin).
  apply list_elem_of_fmap. exists g. split; [done|].
  apply list_elem_of_In, List.filter_In in Hin as [Hin _]. by apply list_elem_of_In.
Qed.

Lemma ModuleOK_eraseFromParent F TheModule :
  ModuleOK TheModule → ModuleOK (eraseFromParent F TheModule).
Proof.
  intros [ND HV]. split; simpl.
  - by apply NoDup_Fid_filter.
  - apply Forall_forall. intros f Hin.
    apply list_elem_of_In, List.filter_In in Hin as [Hin%list_elem_of_In _].
    rewrite Forall_forall in HV. by apply HV.
Qed.

Lemma ModuleOK_completed F Is RetVal TheModule :
  Forall (λ Ins, isTerminator Ins = false) Is →
  ModuleOK TheModule → ModuleOK (updateFunction F (completed Is RetVal) TheModule).
Proof.
  intros HIs [ND HV]. split.
  - by rewrite Fid_updateFunction.
  - apply Forall_updateFunction; [done|]. intros f _ _. by apply verifyFunction_completed.
Qed.

Lemma ModuleOK_snoc Fs f LU LU' :
  ModuleOK (mkModule Fs LU) → (∀ g, g ∈ Fs → Fid g ≠ Fid f) → verifyFunction f = false →
  ModuleOK (mkModule (Fs ++ [f]) LU').
Proof.
  intros [ND HV] Hfresh Hf. split; simpl in *.
  - rewrite map_app. simpl. apply NoDup_app. split; [done|]. split.
    + intros x Hx Hx'. apply list_elem_of_singleton in Hx' as ->.
      apply list_elem_of_fmap in Hx as (g & Hg & Hin). by apply Hfresh in Hin.
    + apply NoDup_singleton.
  - apply Forall_app. split; [done|]. by constructor.
Qed.

Lemma ModuleOK_LastUnique Fs LU LU' :
  ModuleOK (mkModule Fs LU) → ModuleOK (mkModule Fs LU').
Proof. done. Qed.

Lemma PrototypeAST_codegen_ok P s :
  ModuleOK (TheModule s) → ModuleOK (TheModule (PrototypeAST_codegen P s).2).
Proof.
  intros HOK. rewrite PrototypeAST_codegen_eq. simpl. destruct (TheModule s) as [Fs LU] eqn:HM.
  eapply ModuleOK_snoc; [exact HOK| |done].
  intros g Hg. rewrite <- HM. apply newHandle_fresh. by rewrite HM.
Qed.

Lemma FunctionAST_codegen_ok FnAST s r s' :
  ModuleOK (TheModule s) →
  FunctionAST_codegen FnAST s = (r, s') →
  ModuleOK (TheModule s') ∧
  match r with
  | Some F => ∃ f, atHandle F (TheModule s') = Some f ∧ FBlocks f ≠ [] ∧ verifyFunction f = false
  | None => ∀ f, f ∈ Functions (TheModule s') → f ∈ Functions (TheModule s)
  end.
Proof.
  intros HOK Hcg. destruct (getFunction (getName (Proto FnAST)) (TheModule s)) as [f|] eqn:HG.
  - destruct (FBlocks f) as [|b bs] eqn:Hblocks.
    + destruct (FunctionAST_codegen_reuse FnAST s f) as (r' & s1 & Is & _ & _ & HIs & Hr);
        [apply HOK|done|done|].
      apply getFunction_Some in HG as (Hin & _ & _).
      destruct r' as [RetVal|]; rewrite Hr in Hcg; injection Hcg as <- <-; simpl.
      * split; [by apply ModuleOK_completed|].
        exists (completed Is RetVal f). split; [|split; [done|by apply verifyFunction_completed]].
        rewrite atHandle_updateFunction by done.
        by rewrite (atHandle_unique _ _ (proj1 HOK) Hin).
      * split; [by apply ModuleOK_eraseFromParent|].
        intros g Hg. by apply elem_of_eraseFromParent in Hg as [Hg _].
    + rewrite (FunctionAST_codegen_redefinition FnAST s f) in Hcg;
        [|apply HOK|done|by rewrite Hblocks].
      injection Hcg as <- <-. done.
  - destruct (FunctionAST_codegen_fresh FnAST s HG) as (r' & s1 & Is & _ & _ & HIs & Hr).
    assert (∀ g, g ∈ Functions (TheModule s) →
                 Fid g ≠ Fid (declaration (Proto FnAST) (TheModule s))) as Hfresh.
    { intros g. apply newHandle_fresh. }
    destruct (TheModule s) as [Fs LU] eqn:HM. simpl in *.
    destruct r' as [RetVal|]; rewrite Hr in Hcg; injection Hcg as <- <-; simpl.
    * split.
      { eapply ModuleOK_snoc; [exact HOK|done|by apply verifyFunction_completed]. }
      eexists. split; [by apply atHandle_last|].
      split; [done|by apply verifyFunction_completed].
    * split; [|done]. by eapply ModuleOK_LastUnique.
Qed.

(** ** Names *)

Lemma append_nonempty_l (a b : string) : a ≠ EmptyString → a +:+ b ≠ EmptyString.
Proof. by destruct a. Qed.

Lemma append_nonempty_r (a b : string) : b ≠ EmptyString → a +:+ b ≠ EmptyString.
Proof. destruct a; [done|]. by simpl. Qed.

Lemma makeUniqueName_nonempty n taken dot Base LU :
  Base ≠ EmptyString → (makeUniqueName n taken dot Base LU).1 ≠ EmptyString.
Proof.
  intros HB. revert LU. induction n as [|n IH]; intros LU; simpl;
    destruct (bool_decide _); simpl; try by apply append_nonempty_l.
  apply IH.
Qed.

Lemma createValueName_nonempty taken dot Name LU :
  Name ≠ EmptyString → (createValueName taken dot Name LU).1 ≠ EmptyString.
Proof.
  intros HN. unfold createValueName.
  apply String.eqb_neq in HN as HN'. rewrite HN'.
  destruct (bool_decide _); [by apply makeUniqueName_nonempty|done].
Qed.

Lemma getFunction_anonymous TheModule : getFunction EmptyString TheModule = None.
Proof. done. Qed.

(** ** What code generation leaves alone *)

Lemma FunctionAST_codegen_frame FnAST s :
  BinopPrecedence (FunctionAST_codegen FnAST s).2 = BinopPrecedence s ∧
  CurTok (FunctionAST_codegen FnAST s).2 = CurTok s ∧
  stdin (FunctionAST_codegen FnAST s).2 = stdin s ∧
  LastChar (FunctionAST_codegen FnAST s).2 = LastChar s.
Proof.
  unfold FunctionAST_codegen.
  assert (∀ F s1, BinopPrecedence s1 = BinopPrecedence s → CurTok s1 = CurTok s →
            stdin s1 = stdin s → LastChar s1 = LastChar s →
            let s2 := (FunctionAST_codegen_body (Body FnAST) F s1).2 in
            BinopPrecedence s2 = BinopPrecedence s ∧ CurTok s2 = CurTok s ∧
            stdin s2 = stdin s ∧ LastChar s2 = LastChar s) as Hbody.
  { intros F s1 H1 H2 H3 H4. unfold FunctionAST_codegen_body.
    destruct (atHandle F (TheModule s1)) as [f|]; [|done].
    destruct (negb _); [done|].
    destruct (BasicBlock_Create _ _ _) as [BB Mod].
    match goal with |- context [ExprAST_codegen ?e ?s0] =>
      pose proof (ExprAST_codegen_step e s0) as (I & C & _ & _ & T & P & _);
      destruct (ExprAST_codegen e s0) as [[RetVal|] s2] end; simpl in *.
    - unfold CreateRet, Insert. destruct (Builder s2). simpl. repeat split; congruence.
    - repeat split; congruence. }
  destruct (getFunction _ _) as [f|].
  - by apply Hbody.
  - rewrite PrototypeAST_codegen_eq. by apply Hbody.
Qed.

(** ** The handlers of the top-level loop *)

#[local] Instance driverStep_preorder : PreOrder driverStep.
Proof.
  split.
  - intros s. split; [apply grows_refl|done].
  - intros s1 s2 s3 [G1 I1] [G2 I2]. split; [by eapply grows_trans|auto].
Qed.

Lemma parserStep_driverStep s s' : parserStep s s' → driverStep s s'.
Proof. intros (G & M & _ & _). split; [done|]. unfold driverInv. by rewrite M. Qed.

Lemma print_state FnIR s :
  ∃ s', print FnIR s = Done () s' ∧ TheModule s' = TheModule s ∧
        BinopPrecedence s' = BinopPrecedence s.
Proof. unfold print. destruct (atHandle _ _); eauto. Qed.

Lemma ParsePrototype_name fuel s P s' :
  CurTok s = tok_def ∨ CurTok s = tok_extern →
  ParsePrototype fuel s = Done (Some P) s' → getName P ≠ EmptyString.
Proof.
  intros HT H. unfold ParsePrototype in H.
  apply bind_Done in H as (FnType & s1 & H1 & H). injection H1 as <- <-.
  apply bind_Done in H as (? & s2 & _ & H).
  apply bind_Done in H as (Tok & s3 & _ & H).
  destruct (negb (Tok =? tok_identifier)); [done|].
  apply bind_Done in H as (FnName & s4 & _ & H).
  apply bind_Done in H as (? & s5 & _ & H).
  apply bind_Done in H as (Tok' & s6 & _ & H).
  destruct (negb (Tok' =? 40)); [done|].
  apply bind_Done in H as (ArgNames & s7 & _ & H).
  apply bind_Done in H as (Tok'' & s8 & _ & H).
  destruct (negb (Tok'' =? 41)); [done|].
  apply bind_Done in H as (? & s9 & _ & H). injection H as <- _. simpl.
  destruct HT as [-> | ->]; simpl; by apply append_nonempty_r.
Qed.

Lemma ParseDefinition_name fuel s FnAST s' :
  CurTok s = tok_def →
  ParseDefinition fuel s = Done (Some FnAST) s' → getName (Proto FnAST) ≠ EmptyString.
Proof.
  intros HT H. unfold ParseDefinition in H.
  apply bind_Done in H as ([P|] & s1 & HP & H); [|done].
  apply bind_Done in H as ([E|] & s2 & _ & H); [|done].
  injection H as <- _. simpl. eapply ParsePrototype_name; [|done]. by left.
Qed.

Lemma ParseTopLevelExpr_Proto fuel s FnAST s' :
  ParseTopLevelExpr fuel s = Done (Some FnAST) s' →
  Proto FnAST = mkPrototypeAST EmptyString [].
Proof.
  intros H. unfold ParseTopLevelExpr in H.
  apply bind_Done in H as ([E|] & s1 & _ & H); [|done]. by injection H as <- _.
Qed.

Lemma allNamed_PrototypeAST_codegen P s :
  getName P ≠ EmptyString → allNamed (TheModule s) →
  allNamed (TheModule (PrototypeAST_codegen P s).2).
Proof.
  intros HN HA. rewrite PrototypeAST_codegen_eq. simpl. apply Forall_app. split; [done|].
  constructor; [|done]. simpl. by apply createValueName_nonempty.
Qed.

Lemma FunctionAST_codegen_driverInv FnAST s :
  getName (Proto FnAST) ≠ EmptyString → driverInv s →
  driverInv (FunctionAST_codegen FnAST s).2.
Proof.
  intros HN [HOK HA].
  destruct (FunctionAST_codegen FnAST s) as [r s'] eqn:Hcg. simpl.
  split; [by eapply FunctionAST_codegen_ok|].
  destruct (getFunction (getName (Proto FnAST)) (TheModule s)) as [f|] eqn:HG.
  - destruct (FBlocks f) as [|b bs] eqn:Hblocks.
    + destruct (FunctionAST_codegen_reuse FnAST s f) as (r' & s1 & Is & _ & _ & HIs & Hr);
        [apply HOK|done|done|].
      destruct r' as [RetVal|]; rewrite Hr in Hcg; injection Hcg as <- <-; simpl.
      * apply Forall_updateFunction; [done|]. intros g Hg _. simpl.
        unfold allNamed in HA. rewrite Forall_forall in HA. by apply HA.
      * apply Forall_forall. intros g [Hg _]%elem_of_eraseFromParent.
        unfold allNamed in HA. rewrite Forall_forall in HA. by apply HA.
    + rewrite (FunctionAST_codegen_redefinition FnAST s f) in Hcg;
        [|apply HOK|done|by rewrite Hblocks].
      by injection Hcg as <- <-.
  - destruct (FunctionAST_codegen_fresh FnAST s HG) as (r' & s1 & Is & _ & _ & HIs & Hr).
    destruct r' as [RetVal|]; rewrite Hr in Hcg; injection Hcg as <- <-; simpl; [|done].
    apply Forall_app. split; [done|]. constructor; [|done]. simpl.
    by apply createValueName_nonempty.
Qed.

(** The anonymous function of a top-level expression: whether its code is
    generated or not, erasing it leaves the module as it was. *)
Lemma FunctionAST_codegen_anonymous Body s :
  let FnAST := mkFunctionAST (mkPrototypeAST EmptyString []) Body in
  match (FunctionAST_codegen FnAST s).1 with
  | Some FnIR =>
      FnIR = newHandle (TheModule s) ∧
      (∃ Is RetVal,
         atHandle FnIR (TheModule (FunctionAST_codegen FnAST s).2) =
         Some (completed Is RetVal (mkFunction FnIR EmptyString [] []))) ∧
      eraseFromParent FnIR (TheModule (FunctionAST_codegen FnAST s).2) = TheModule s
  | None => TheModule (FunctionAST_codegen FnAST s).2 = TheModule s
  end.
Proof.
  intros FnAST.
  destruct (FunctionAST_codegen_fresh FnAST s (getFunction_anonymous _))
    as (r & s1 & Is & _ & _ & HIs & Hr).
  assert (∀ g, g ∈ Functions (TheModule s) → Fid g ≠ newHandle (TheModule s)) as Hfresh.
  { intros g. apply newHandle_fresh. }
  destruct (TheModule s) as [Fs LU] eqn:HM.
  destruct r as [RetVal|]; rewrite Hr; simpl; [|done].
  split; [done|]. split.
  - exists Is, RetVal. by apply atHandle_last.
  - by apply eraseFromParent_last.
Qed.

Lemma HandleDefinition_driver fuel s :
  CurTok s = tok_def → holds driverStep fatalExit (HandleDefinition fuel s) s.
Proof.
  intros HT. unfold HandleDefinition, bind.
  pose proof (ParseDefinition_satisfies fuel s) as HP.
  destruct (ParseDefinition fuel s) as [[FnAST|] s1| |] eqn:HPD; try done.
  - apply parserStep_driverStep in HP as [G1 I1].
    pose proof (ParseDefinition_name _ _ _ _ HT HPD) as HN.
    pose proof (FunctionAST_codegen_frame FnAST s1) as (HB & _).
    pose proof (FunctionAST_codegen_driverInv FnAST s1 HN) as HI.
    unfold run. destruct (FunctionAST_codegen FnAST s1) as [[FnIR|] s2]; simpl in *.
    + destruct (print_state FnIR
        (write (cout ("Parsed a function definition:" +:+ endl)) s2)) as (s3 & -> & HM & HB3).
      simpl in *. split; simpl; [by rewrite HB3, HB|].
      unfold driverInv in *. simpl. rewrite HM. auto.
    + split; [by rewrite HB|auto].
  - pose proof (getNextToken_satisfies s1) as HG.
    destruct (getNextToken s1) as [Tok s2| |]; try done. simpl.
    apply parserStep_driverStep. by etrans.
Qed.

Lemma HandleExtern_driver fuel s :
  CurTok s = tok_extern → holds driverStep fatalExit (HandleExtern fuel s) s.
Proof.
  intros HT. unfold HandleExtern, ParseExtern, bind.
  pose proof (ParsePrototype_satisfies fuel s) as HP.
  destruct (ParsePrototype fuel s) as [[P|] s1| |] eqn:HPP; try done.
  - apply parserStep_driverStep in HP as [G1 I1].
    assert (getName P ≠ EmptyString) as HN by (eapply ParsePrototype_name; [by right|done]).
    pose proof (PrototypeAST_codegen_ok P s1) as HOK.
    pose proof (allNamed_PrototypeAST_codegen P s1 HN) as HA.
    unfold run. rewrite PrototypeAST_codegen_eq in *. simpl in *.
    match goal with |- context [print ?F ?s0] =>
      destruct (print_state F s0) as (s3 & -> & HM & HB3) end.
    simpl in *. split; simpl; [by rewrite HB3|].
    unfold driverInv in *. simpl. rewrite HM. simpl.
    intros HI. destruct (I1 HI). auto.
  - pose proof (getNextToken_satisfies s1) as HG.
    destruct (getNextToken s1) as [Tok s2| |]; try done. simpl.
    apply parserStep_driverStep. by etrans.
Qed.

Lemma HandleTopLevelExpression_module fuel s :
  holds (λ s s', grows 0 (BinopPrecedence s) (BinopPrecedence s') ∧
                 TheModule s' = TheModule s)
        fatalExit (HandleTopLevelExpression fuel s) s.
Proof.
  unfold HandleTopLevelExpression, bind.
  pose proof (ParseTopLevelExpr_satisfies fuel s) as HP.
  destruct (ParseTopLevelExpr fuel s) as [[FnAST|] s1| |] eqn:HPT; try done.
  - destruct HP as (G1 & M1 & _).
    pose proof (ParseTopLevelExpr_Proto _ _ _ _ HPT) as HProto.
    destruct FnAST as [P Body]. simpl in HProto. subst P.
    pose proof (FunctionAST_codegen_frame
                  (mkFunctionAST (mkPrototypeAST EmptyString []) Body) s1) as (HB & _).
    pose proof (FunctionAST_codegen_anonymous Body s1) as HA. cbv zeta in HA.
    unfold run. destruct (FunctionAST_codegen _ s1) as [[FnIR|] s2]; simpl in *.
    + destruct HA as (_ & _ & HE).
      destruct (print_state FnIR
        (write (cout ("Parsed a top-level expression:" +:+ endl)) s2)) as (s3 & -> & HM & HB3).
      simpl in *. split; simpl; [by rewrite HB3, HB|]. rewrite HM. simpl. congruence.
    + split; [by rewrite HB|congruence].
  - pose proof (getNextToken_satisfies s1) as HG.
    destruct (getNextToken s1) as [Tok s2| |]; try done. simpl.
    destruct HP as (G1 & M1 & _), HG as (G2 & M2 & _).
    split; [by eapply grows_trans|congruence].
Qed.

Lemma HandleTopLevelExpression_driver fuel s :
  holds driverStep fatalExit (HandleTopLevelExpression fuel s) s.
Proof.
  pose proof (HandleTopLevelExpression_module fuel s) as H.
  destruct (HandleTopLevelExpression fuel s); try done. simpl in *.
  destruct H as [G HM]. split; [done|]. unfold driverInv. by rewrite HM.
Qed.

Lemma holds_bind {A B} R E `{!Transitive R} (m : M A) (k : A → M B) s :
  holds R E (m s) s → (∀ a, satisfies R E (k a)) → holds R E (bind m k s) s.
Proof.
  intros Hm Hk. unfold bind. destruct (m s) as [a s'| |]; try done.
  specialize (Hk a s'). destruct (k a s'); try done. simpl in *. by etrans.
Qed.

Lemma MainLoop_driver fuel : satisfies driverStep fatalExit (MainLoop fuel).
Proof.
  induction fuel as [|fuel IH]; [done|]. intros s. simpl.
  change (holds driverStep fatalExit
    ((if CurTok s =? tok_eof then ret ()
      else if CurTok s =? 59 then
        modify (write (cout "ready> ")) >> getNextToken >> MainLoop fuel
      else if CurTok s =? tok_def then HandleDefinition fuel >> MainLoop fuel
      else if CurTok s =? tok_extern then HandleExtern fuel >> MainLoop fuel
      else HandleTopLevelExpression fuel >> MainLoop fuel) s) s).
  destruct (CurTok s =? tok_eof); [simpl; reflexivity|].
  destruct (CurTok s =? 59).
  { apply holds_bind; [apply _| |intros _].
    - simpl. split; [apply grows_refl|done].
    - apply satisfies_bind; [apply _| |done].
      eapply satisfies_weaken; [apply parserStep_driverStep|apply getNextToken_satisfies]. }
  destruct (CurTok s =? tok_def) eqn:Hdef.
  { apply holds_bind; [apply _| |done]. apply HandleDefinition_driver. by apply Z.eqb_eq. }
  destruct (CurTok s =? tok_extern) eqn:Hext.
  { apply holds_bind; [apply _| |done]. apply HandleExtern_driver. by apply Z.eqb_eq. }
  apply holds_bind; [apply _| |done]. apply HandleTopLevelExpression_driver.
Qed.

Lemma main_driver fuel input :
  match main fuel (start input) with
  | Done status s' =>
      status = 0 ∧
      grows 0 (installBinops ∅) (BinopPrecedence s') ∧
      driverInv s' ∧
      ∃ before, output s' = (before ++ [errs_Module (Functions (TheModule s'))])%list
  | Exited status s' => fatalExit status s'
  | OutOfFuel => True
  end.
Proof.
  unfold main, bind. simpl.
  match goal with |- context [getNextToken ?s0] =>
    pose proof (getNextToken_satisfies s0) as HG;
    destruct (getNextToken s0) as [Tok s1| |] end; try done.
  destruct HG as (G1 & _). simpl in G1.
  match goal with |- context [MainLoop fuel ?s2] =>
    pose proof (MainLoop_driver fuel s2) as HM;
    destruct (MainLoop fuel s2) as [[] s3| |] end; try done.
  destruct HM as [G2 I2]. simpl in *.
  split; [done|]. split; [by eapply grows_trans|]. split.
  - apply I2. repeat split; simpl; constructor.
  - by exists (output s3).
Qed.

(** ** The symbol table *)





(** ** Numbers *)

Lemma is_point (c : ascii) : (int_of_char c =? 46) = Ascii.eqb c ".".
Proof.
  destruct (Ascii.eqb c ".") eqn:E.
  - apply Ascii.eqb_eq in E as ->. done.
  - apply Z.eqb_neq. intros H. apply Ascii.eqb_neq in E. apply E.
    unfold int_of_char in H. rewrite <- (ascii_N_embedding c).
    replace (N_of_ascii c) with 46%N by lia. done.
Qed.

Lemma is_point_first c :
  isdigit c || (c =? 46) = true → (c =? 46) = Ascii.eqb (char_of_int c) ".".
Proof.
  intros H. destruct (c =? 46) eqn:E.
  - apply Z.eqb_eq in E as ->. done.
  - rewrite orb_false_r in H. unfold isdigit in H.
    apply andb_true_iff in H as [H1%Z.leb_le H2%Z.leb_le].
    assert (c = 48 ∨ c = 49 ∨ c = 50 ∨ c = 51 ∨ c = 52 ∨ c = 53 ∨ c = 54 ∨
            c = 55 ∨ c = 56 ∨ c = 57) as Hc by lia.
    destruct Hc as [->|[->|[->|[->|[->|[->|[->|[->|[->| ->]]]]]]]]]; done.
Qed.

Lemma append_snoc (a : string) c b :
  (a +:+ String c EmptyString) +:+ b = a +:+ String c b.
Proof. induction a as [|x a IH]; [done|]. cbv [String.append]. fold String.append. by f_equal. Qed.

Lemma char_of_int_of_char c : char_of_int (int_of_char c) = c.
Proof.
  unfold char_of_int, int_of_char.
  rewrite Z.mod_small, N2Z.id, ascii_N_embedding; [done|].
  pose proof (N_ascii_bounded c). lia.
Qed.

Lemma readNumber_spec input c NumStr hasDecimal decimalError :
  (c =? 46) = Ascii.eqb (char_of_int c) "." →
  let literal := String (char_of_int c) (numberRun input) in
  ∃ input' c',
    readNumber input c NumStr hasDecimal decimalError =
    (input', c', NumStr +:+ literal,
     decimalError
     || (hasDecimal && (1 <=? decimalPoints literal)%nat)
     || (2 <=? decimalPoints literal)%nat).
Proof.
  revert c NumStr hasDecimal decimalError.
  induction input as [|c' rest IH]; intros c NumStr hd de Hc; simpl; rewrite Hc.
  - exists EmptyString, EOF. f_equal.
    destruct (Ascii.eqb (char_of_int c) "."), hd, de; done.
  - destruct (isdigit (int_of_char c') || (int_of_char c' =? 46)) eqn:Hrun.
    + destruct (IH (int_of_char c') (NumStr +:+ String (char_of_int c) EmptyString)
                   (if Ascii.eqb (char_of_int c) "." then true else hd)
                   (if Ascii.eqb (char_of_int c) "." && hd then true else de))
        as (input' & c'' & ->).
      { by rewrite is_point, char_of_int_of_char. }
      exists input', c''. rewrite char_of_int_of_char, append_snoc.
      f_equal. simpl.
      destruct (Ascii.eqb (char_of_int c) "."), (Ascii.eqb c' "."), hd, de; simpl;
        try done; destruct (decimalPoints (numberRun rest)) as [|[|?]]; done.
    + exists rest, (int_of_char c'). f_equal.
      destruct (Ascii.eqb (char_of_int c) "."), hd, de; done.
Qed.

Lemma digit_not_alpha c : isdigit c || (c =? 46) = true → isalpha c = false.
Proof.
  unfold isdigit, isalpha. intros H.
  apply orb_true_iff in H as [[H1%Z.leb_le H2%Z.leb_le]%andb_true_iff|H%Z.eqb_eq].
  - apply orb_false_iff. split; apply andb_false_iff; left; apply Z.leb_gt; lia.
  - subst. done.
Qed.

Lemma gettok_rec_number n s input c :
  skipWhitespace (stdin s) (LastChar s) = (input, c) →
  isdigit c || (c =? 46) = true →
  let literal := String (char_of_int c) (numberRun input) in
  ∃ input' c',
    let s' := set_NumVal (strtod literal) (set_lexer input' c' s) in
    gettok_rec n s =
    if (2 <=? decimalPoints literal)%nat
    then Exited 1 (write (cerr "Number Syntax Error! Too many decimals: " (strtod literal)) s')
    else Done tok_number s'.
Proof.
  intros HS Hc literal.
  destruct (readNumber_spec input c EmptyString false false (is_point_first c Hc))
    as (input' & c' & HR).
  exists input', c'. destruct n; simpl; rewrite HS, (digit_not_alpha c Hc), Hc, HR; simpl;
    fold literal; by destruct (2 <=? decimalPoints literal)%nat.
Qed.

(** * The claims *)

(** ** Calls *)

Lemma CallExprAST_unknown Callee Args s :
  getFunction Callee (TheModule s) = None →
  ExprAST_codegen (CallExprAST Callee Args) s =
  (None, logged "Unknown function referenced" s).
Proof. intros H. simpl. by rewrite H. Qed.

Lemma CallExprAST_arity Callee Args s f :
  getFunction Callee (TheModule s) = Some f →
  length (FArgs f) ≠ length Args →
  ExprAST_codegen (CallExprAST Callee Args) s =
  (None, logged "Incorrect # arguments passed" s).
Proof.
  intros H Hlen. simpl. rewrite H.
  by apply Nat.eqb_neq in Hlen as ->.
Qed.

(** C1, as stated, fails: after [extern foo(x)], the call [foo(1,2)] is not
    answered with the message for a wrong number of arguments.  The extern is
    in the module as [foo_ext], the call looks [foo] up, and the run reports
    an unknown function. *)
Lemma call_after_extern_is_no_arity_error :
  ¬ ∃ s', main 20 (start "extern foo(x)
foo(1,2)
") = Done 0 s' ∧
          cout ("Error: Incorrect # arguments passed" +:+ endl) ∈ output s'.
Proof.
  intros (s' & H & Hin). vm_compute in H. injection H as <-. simpl in Hin.
  repeat (apply elem_of_cons in Hin as [Hin|Hin]; [discriminate Hin|]).
  by apply elem_of_nil in Hin.
Qed.

(** C1, amended: after [extern foo(x)], lowering the call [foo(1,2)] fails
    with "Unknown function referenced", the extern being in the module under
    the name [foo_ext], and no call instruction is emitted; the message
    "Incorrect # arguments passed" is what a call gets whose callee is in the
    module under the very name of the call with another number of arguments,
    and no instruction is emitted then either. *)
Theorem call_after_extern :
  (∀ k, ∃ s',
     main (20 + k) (start "extern foo(x)
foo(1,2)
") = Done 0 s' ∧
     output s' =
       [cout "ready> "; cout ("Parsed an extern:" +:+ endl);
        errs_Function (mkFunction 1 "foo_ext" ["x"] []); cout endl;
        cout ("Error: Unknown function referenced" +:+ endl);
        errs_Module [mkFunction 1 "foo_ext" ["x"] []]]) ∧
  (∀ Callee Args s,
     getFunction Callee (TheModule s) = None →
     ExprAST_codegen (CallExprAST Callee Args) s =
     (None, logged "Unknown function referenced" s)) ∧
  (∀ Callee Args s f,
     getFunction Callee (TheModule s) = Some f →
     length (FArgs f) ≠ length Args →
     ExprAST_codegen (CallExprAST Callee Args) s =
     (None, logged "Incorrect # arguments passed" s) ∧
     TheModule (logged "Incorrect # arguments passed" s) = TheModule s).
Proof.
  split; [|split].
  - intros k. eexists. split; [vm_compute; reflexivity|reflexivity].
  - apply CallExprAST_unknown.
  - intros Callee Args s f H Hlen. split; [by eapply CallExprAST_arity|done].
Qed.

(** The arity check at work: a call of [foo_ext] with two arguments, after
    [extern foo(x)]. *)
Lemma call_after_extern_witness :
  let s := (PrototypeAST_codegen (mkPrototypeAST "foo_ext" ["x"]) (start "")).2 in
  let Args := [NumberExprAST (strtod "1"); NumberExprAST (strtod "2")] in
  ExprAST_codegen (CallExprAST "foo" Args) s =
    (None, logged "Unknown function referenced" s) ∧
  ExprAST_codegen (CallExprAST "foo_ext" Args) s =
    (None, logged "Incorrect # arguments passed" s).
Proof.
  intros s Args. split.
  - apply (proj1 (proj2 call_after_extern)). reflexivity.
  - apply (proj2 (proj2 call_after_extern) "foo_ext" Args s (mkFunction 1 "foo_ext" ["x"] [])).
    + reflexivity.
    + simpl. lia.
Defined.

(** ** The symbol table *)




(** ** The precedence table *)

(** C3, as stated, fails: parsing [(1)] looks the precedence of [)] up and
    leaves an entry for it in the table. *)
Lemma precedence_lookup_adds_an_entry :
  ∃ r s', parseText 10 "(1)" = Done r s' ∧
          BinopPrecedence s' !! ")"%char = Some 0 ∧
          installBinops ∅ !! ")"%char = None.
Proof. do 2 eexists. split; [vm_compute; reflexivity|]. split; reflexivity. Qed.

(** C3, amended: no parsing operation removes an entry of the precedence
    table or changes its value; the precedence lookup adds an entry of value
    0, which means "no binary operator", for a looked-up ASCII token that has
    none.  So the entries of positive value stay, for every input, [<]:10,
    [+]:20, [-]:20, [*]:40, [/]:40. *)
Theorem precedence_table_keeps_its_operators :
  (∀ fuel s s',
     (∃ r, getTokPrecedence s = Done r s') ∨
     (∃ r, ParsePrimary fuel s = Done r s') ∨
     (∃ r ExprPrec LHS, ParseBinOpRHS fuel ExprPrec LHS s = Done r s') ∨
     (∃ r, ParseExpression fuel s = Done r s') ∨
     (∃ r, ParsePrototype fuel s = Done r s') ∨
     (∃ r, ParseDefinition fuel s = Done r s') ∨
     (∃ r, ParseExtern fuel s = Done r s') ∨
     (∃ r, ParseTopLevelExpr fuel s = Done r s') ∨
     (∃ r, MainLoop fuel s = Done r s') →
     ∀ c, BinopPrecedence s' !! c = BinopPrecedence s !! c ∨
          (BinopPrecedence s !! c = None ∧ BinopPrecedence s' !! c = Some 0)) ∧
  (∀ fuel input s',
     main fuel (start input) = Done 0 s' →
     ∀ c p, 0 < p →
       (BinopPrecedence s' !! c = Some p ↔
        (c, p) ∈ [("<"%char, 10); ("+"%char, 20); ("-"%char, 20);
                  ("*"%char, 40); ("/"%char, 40)])).
Proof.
  split.
  - intros fuel s s' H.
    assert (∀ A (m : M A) r, satisfies parserStep fatalExit m → m s = Done r s' →
              grows 0 (BinopPrecedence s) (BinopPrecedence s')) as Hp.
    { intros A m r Hm E. specialize (Hm s). rewrite E in Hm. apply Hm. }
    destruct H as [[r H]|[[r H]|[(r & ExprPrec & LHS & H)|[[r H]|[[r H]|[[r H]|[[r H]|[[r H]|[r H]]]]]]]]].
    + eapply Hp; [apply getTokPrecedence_satisfies|done].
    + eapply Hp; [apply ParsePrimary_satisfies|done].
    + eapply Hp; [apply ParseBinOpRHS_satisfies|done].
    + eapply Hp; [apply ParseExpression_satisfies|done].
    + eapply Hp; [apply ParsePrototype_satisfies|done].
    + eapply Hp; [apply ParseDefinition_satisfies|done].
    + eapply Hp; [apply ParsePrototype_satisfies|done].
    + eapply Hp; [apply ParseTopLevelExpr_satisfies|done].
    + pose proof (MainLoop_driver fuel s) as Hm. rewrite H in Hm. apply Hm.
  - intros fuel input s' H c p Hp.
    pose proof (main_driver fuel input) as Hm. rewrite H in Hm.
    destruct Hm as (_ & HG & _).
    assert (BinopPrecedence s' !! c = Some p ↔ installBinops ∅ !! c = Some p) as ->.
    { destruct (HG c) as [->|[H1 H2]]; [done|]. rewrite H1, H2.
      split; intros E; [injection E as <-; lia|done]. }
    unfold installBinops. rewrite !elem_of_cons, elem_of_nil.
    destruct (decide (c = "/"%char)) as [->|H1]; [rewrite lookup_insert_eq; naive_solver|].
    rewrite lookup_insert_ne by done.
    destruct (decide (c = "*"%char)) as [->|H2]; [rewrite lookup_insert_eq; naive_solver|].
    rewrite lookup_insert_ne by done.
    destruct (decide (c = "-"%char)) as [->|H3]; [rewrite lookup_insert_eq; naive_solver|].
    rewrite lookup_insert_ne by done.
    destruct (decide (c = "+"%char)) as [->|H4]; [rewrite lookup_insert_eq; naive_solver|].
    rewrite lookup_insert_ne by done.
    destruct (decide (c = "<"%char)) as [->|H5]; [rewrite lookup_insert_eq; naive_solver|].
    rewrite lookup_insert_ne, lookup_empty by done. naive_solver.
Qed.

Lemma precedence_table_keeps_its_operators_witness :
  let s := set_CurTok 41 (start "") in
  let s' := set_BinopPrecedence (<[")"%char := 0]> ∅) s in
  (BinopPrecedence s' !! ")"%char = BinopPrecedence s !! ")"%char ∨
   (BinopPrecedence s !! ")"%char = None ∧ BinopPrecedence s' !! ")"%char = Some 0)) ∧
  (BinopPrecedence s' !! "+"%char = BinopPrecedence s !! "+"%char ∨
   (BinopPrecedence s !! "+"%char = None ∧ BinopPrecedence s' !! "+"%char = Some 0)).
Proof.
  intros s s'.
  assert (getTokPrecedence s = Done (-1) s') as H by reflexivity.
  split; apply (proj1 precedence_table_keeps_its_operators 0%nat s s'); left; by exists (-1).
Defined.

(** ** Definitions *)

(** C4: lowering a definition whose name has a function with a body in the
    module fails with "Function cannot be redefined." and changes nothing but
    the messages written: the module, the builder and the symbol table are
    as before. *)
Theorem redefinition_is_rejected FnAST s f :
  NoDup (map Fid (Functions (TheModule s))) →
  getFunction (getName (Proto FnAST)) (TheModule s) = Some f →
  FBlocks f ≠ [] →
  FunctionAST_codegen FnAST s = (None, logged "Function cannot be redefined." s) ∧
  TheModule (logged "Function cannot be redefined." s) = TheModule s ∧
  Builder (logged "Function cannot be redefined." s) = Builder s ∧
  NamedValues (logged "Function cannot be redefined." s) = NamedValues s.
Proof.
  intros ND HG Hblocks. split; [by eapply FunctionAST_codegen_redefinition|done].
Qed.

(** [def foo(x) x], then [def foo(x) x+1]: the second fails and the module
    holds the first body. *)
Lemma redefinition_is_rejected_witness :
  let Proto := mkPrototypeAST "foo_def" ["x"] in
  let s := (FunctionAST_codegen (mkFunctionAST Proto (VariableExprAST "x")) (start "")).2 in
  let again := mkFunctionAST Proto
                 (BinaryExprAST "+" (VariableExprAST "x") (NumberExprAST (strtod "1"))) in
  FunctionAST_codegen again s = (None, logged "Function cannot be redefined." s) ∧
  Functions (TheModule (FunctionAST_codegen again s).2) =
    [mkFunction 1 "foo_def" ["x"] [mkBasicBlock "entry" [ReturnInst (Argument 1 0)]]].
Proof.
  intros Proto s again.
  destruct (redefinition_is_rejected again s
              (mkFunction 1 "foo_def" ["x"] [mkBasicBlock "entry" [ReturnInst (Argument 1 0)]]))
    as (H & HM & _).
  - vm_compute. apply NoDup_singleton.
  - reflexivity.
  - simpl. discriminate.
  - split; [exact H|]. rewrite H. reflexivity.
Defined.

(** C5: if lowering the body of a definition fails, the function under
    construction is removed and the failure is handed on: every function in
    the module afterwards was in it before, unchanged.  If it succeeds, the
    function returned has a body that the verifier accepts.  So, after a
    [FunctionAST::codegen] or a [PrototypeAST::codegen], a module in which
    every function is a declaration or has a complete body is again such a
    module. *)
Theorem no_function_is_left_half_built s :
  ModuleOK (TheModule s) →
  (∀ P, ModuleOK (TheModule (PrototypeAST_codegen P s).2)) ∧
  (∀ FnAST r s',
     FunctionAST_codegen FnAST s = (r, s') →
     ModuleOK (TheModule s') ∧
     match r with
     | Some F => ∃ f, atHandle F (TheModule s') = Some f ∧ FBlocks f ≠ [] ∧
                      verifyFunction f = false
     | None => ∀ f, f ∈ Functions (TheModule s') → f ∈ Functions (TheModule s)
     end).
Proof.
  intros HOK. split.
  - intros P. by apply PrototypeAST_codegen_ok.
  - intros FnAST r s'. by apply FunctionAST_codegen_ok.
Qed.

(** [def f(x) (x+x)+y]: the addition of [x] and [x] is emitted, [y] is
    unknown, and nothing of [f] stays in the module. *)
Lemma no_function_is_left_half_built_witness :
  let FnAST := mkFunctionAST (mkPrototypeAST "f_def" ["x"])
      (BinaryExprAST "+"
         (BinaryExprAST "+" (VariableExprAST "x") (VariableExprAST "x"))
         (VariableExprAST "y")) in
  (FunctionAST_codegen FnAST (start "")).1 = None ∧
  ∀ f, f ∈ Functions (TheModule (FunctionAST_codegen FnAST (start "")).2) →
       f ∈ Functions (TheModule (start "")).
Proof.
  intros FnAST.
  assert (ModuleOK (TheModule (start ""))) as HOK.
  { split; simpl; constructor. }
  pose proof (proj2 (no_function_is_left_half_built (start "") HOK) FnAST) as H.
  destruct (FunctionAST_codegen FnAST (start "")) as [r s'] eqn:Hcg.
  specialize (H r s' eq_refl). vm_compute in Hcg. injection Hcg as <- <-.
  split; [reflexivity|exact (proj2 H)].
Defined.

(** ** Errors *)

(** C8: a number with more than one decimal point is fatal: [gettok] writes
    the report and ends the process with status 1, returning no token.  It is
    the only fatal error: [LogError], [LogErrorP] and [LogErrorV] write their
    message and return a null result, and whenever the top-level loop or
    [main] ends the process, it is with status 1 and that report as the last
    thing written. *)
Theorem malformed_number_is_the_only_fatal_error :
  (∀ s input c,
     skipWhitespace (stdin s) (LastChar s) = (input, c) →
     isdigit c || (c =? 46) = true →
     (2 ≤ decimalPoints (String (char_of_int c) (numberRun input)))%nat →
     ∃ s', gettok s = Exited 1 s' ∧
           output s' =
             (output s ++ [cerr "Number Syntax Error! Too many decimals: "
                             (strtod (String (char_of_int c) (numberRun input)))])%list) ∧
  (∀ Str s,
     LogError Str s = Done None (logged Str s) ∧
     LogErrorP Str s = Done None (logged Str s) ∧
     LogErrorV Str s = (None, logged Str s)) ∧
  (∀ fuel s status s', MainLoop fuel s = Exited status s' → fatalExit status s') ∧
  (∀ fuel input status s', main fuel (start input) = Exited status s' → fatalExit status s').
Proof.
  split; [|split; [|split]].
  - intros s input c HS Hc Hdots.
    destruct (gettok_rec_number (String.length (stdin s)) s input c HS Hc)
      as (input' & c' & HG).
    cbv zeta in HG. apply Nat.leb_le in Hdots. rewrite Hdots in HG.
    eexists. split; [exact HG|done].
  - done.
  - intros fuel s status s' H. pose proof (MainLoop_driver fuel s) as Hm.
    by rewrite H in Hm.
  - intros fuel input status s' H. pose proof (main_driver fuel input) as Hm.
    by rewrite H in Hm.
Qed.

(** Tokenizing ["1.2.3"]. *)
Lemma malformed_number_is_the_only_fatal_error_witness :
  ∃ s', gettok (start "1.2.3") = Exited 1 s' ∧
        output s' = [cerr "Number Syntax Error! Too many decimals: " (strtod "1.2.3")].
Proof.
  destruct (proj1 malformed_number_is_the_only_fatal_error (start "1.2.3") ".2.3" 49)
    as (s' & H & Hout).
  - reflexivity.
  - reflexivity.
  - simpl. lia.
  - exists s'. split; [exact H|exact Hout].
Defined.

(** ** Error recovery *)

(** C9, as stated, fails: in ["def f(x"] followed by the valid line
    ["def g(y) y"], the token skipped is the [def] of the valid line.  Three
    errors are reported and [g] is never defined. *)
Lemma one_token_may_not_resynchronise :
  ∃ s', main 20 (start "def f(x
def g(y) y
") = Done 0 s' ∧
        output s' =
          [cout "ready> ";
           cout ("Error: Expected ')' in prototype" +:+ endl);
           cout ("Error: Unknown function referenced" +:+ endl);
           cout ("Error: Unknown variable name" +:+ endl);
           errs_Module []].
Proof. eexists. split; [vm_compute; reflexivity|reflexivity]. Qed.

(** ** Top-level expressions *)

(** C10: handling a top-level expression leaves the module as it found it:
    the anonymous function, when its lowering succeeds, is written to the
    error stream and then erased.  So in the module that [main] writes at the
    end of the input every function has a name: it comes from a [def] or an
    [extern]. *)
Theorem anonymous_function_is_erased :
  (∀ fuel s s',
     (∃ r, HandleTopLevelExpression fuel s = Done r s') → TheModule s' = TheModule s) ∧
  (∀ fuel s FnAST s1 FnIR s2,
     ParseTopLevelExpr fuel s = Done (Some FnAST) s1 →
     FunctionAST_codegen FnAST s1 = (Some FnIR, s2) →
     ∃ f, atHandle FnIR (TheModule s2) = Some f ∧ FName f = EmptyString ∧
          HandleTopLevelExpression fuel s =
          Done () (set_TheModule (eraseFromParent FnIR (TheModule s2))
                     (write (cout endl) (write (errs_Function f)
                        (write (cout ("Parsed a top-level expression:" +:+ endl)) s2)))) ∧
          eraseFromParent FnIR (TheModule s2) = TheModule s) ∧
  (∀ fuel input s',
     main fuel (start input) = Done 0 s' →
     ∃ before Fs,
       output s' = (before ++ [errs_Module Fs])%list ∧
       Fs = Functions (TheModule s') ∧
       Forall (λ f, FName f ≠ EmptyString) Fs).
Proof.
  split; [|split].
  - intros fuel s s' [r H].
    pose proof (HandleTopLevelExpression_module fuel s) as Hm. rewrite H in Hm. apply Hm.
  - intros fuel s FnAST s1 FnIR s2 HP Hcg.
    pose proof (ParseTopLevelExpr_satisfies fuel s) as HS. rewrite HP in HS.
    destruct HS as (_ & HM & _).
    pose proof (ParseTopLevelExpr_Proto _ _ _ _ HP) as HProto.
    destruct FnAST as [P Body]. simpl in HProto. subst P.
    pose proof (FunctionAST_codegen_anonymous Body s1) as HA. cbv zeta in HA.
    rewrite Hcg in HA. simpl in HA. destruct HA as (-> & (Is & RetVal & Hat) & HE).
    eexists. split; [exact Hat|]. split; [done|]. split; [|congruence].
    unfold HandleTopLevelExpression, bind at 1. rewrite HP.
    unfold bind at 1, run. rewrite Hcg. unfold bind, modify, print. simpl. by rewrite Hat.
  - intros fuel input s' H. pose proof (main_driver fuel input) as Hm. rewrite H in Hm.
    destruct Hm as (_ & _ & [_ HA] & before & Hout). by exists before, (Functions (TheModule s')).
Qed.

(** A definition, a top-level expression, an extern and a call in one run:
    the module at the end holds [f_def] and [g_ext]. *)
Lemma anonymous_function_is_erased_witness :
  ∃ s',
    main 20 (start "def f(x) x*2
1+2;
extern g(a b)
f(x)
") = Done 0 s' ∧
    map FName (Functions (TheModule s')) = ["f_def"; "g_ext"] ∧
    Forall (λ f, FName f ≠ EmptyString) (Functions (TheModule s')).
Proof.
  eexists. split; [vm_compute; reflexivity|]. split; [vm_compute; reflexivity|].
  match goal with |- Forall _ (Functions (TheModule ?s')) =>
    destruct (proj2 (proj2 anonymous_function_is_erased) 20%nat "def f(x) x*2
1+2;
extern g(a b)
f(x)
" s') as (before & Fs & _ & -> & Hnamed); [vm_compute; reflexivity|exact Hnamed]
  end.
Defined.

(** * Further properties *)

(** ** The lexer *)

Lemma skipWhitespace_length input c :
  (String.length (skipWhitespace input c).1 ≤ String.length input)%nat.
Proof.
  revert c. induction input as [|c' rest IH]; intros c; simpl.
  - by destruct (isspace c).
  - destruct (isspace c); simpl; [|lia]. specialize (IH (int_of_char c')). lia.
Qed.

Lemma skipComment_length input :
  (skipComment input).2 ≠ EOF →
  (String.length (skipComment input).1 < String.length input)%nat.
Proof.
  induction input as [|c' rest IH]; simpl; [done|].
  destruct ((int_of_char c' =? 10) || (int_of_char c' =? 13)); simpl; [lia|].
  intros H. specialize (IH H). lia.
Qed.

Lemma gettok_char_returns input c s : gettok_char input c s ≠ OutOfFuel.
Proof. unfold gettok_char. destruct (c =? EOF); [done|]. by destruct input. Qed.

(** [gettok] calls itself only after a comment that a line end closes; every
    other path returns at once, whatever the bound. *)
Lemma gettok_rec_cases n s :
  let input := (skipWhitespace (stdin s) (LastChar s)).1 in
  let c := (skipWhitespace (stdin s) (LastChar s)).2 in
  if isalpha c || (isdigit c || (c =? 46)) || negb (c =? 35)
     || ((skipComment input).2 =? EOF)
  then gettok_rec n s ≠ OutOfFuel ∧ ∀ m, gettok_rec m s = gettok_rec n s
  else
    (String.length (skipComment input).1 < String.length (stdin s))%nat ∧
    gettok_rec n s =
    match n with
    | O => OutOfFuel
    | S n => gettok_rec n (set_lexer (skipComment input).1 (skipComment input).2 s)
    end.
Proof.
  intros input c. subst input c.
  pose proof (skipWhitespace_length (stdin s) (LastChar s)) as HW.
  destruct (skipWhitespace (stdin s) (LastChar s)) as [input c] eqn:HS. simpl in *.
  destruct (isalpha c) eqn:Ha; simpl.
  { split; [|intros m]; destruct n; try destruct m; simpl; rewrite HS, Ha;
      destruct (readIdentifier _ _) as [[? ?] Id];
      destruct (String.eqb Id "def"); try destruct (String.eqb Id "extern"); done. }
  destruct (isdigit c || (c =? 46)) eqn:Hd; simpl.
  { split; [|intros m]; destruct n; try destruct m; simpl; rewrite HS, Ha, Hd;
      destruct (readNumber _ _ _ _ _) as [[[? ?] ?] de]; destruct de; done. }
  destruct (c =? 35) eqn:Hh; simpl.
  2:{ split; [|intros m]; destruct n; try destruct m; simpl; rewrite HS, Ha, Hd, Hh;
        try done; apply gettok_char_returns. }
  pose proof (skipComment_length input) as HL.
  destruct (skipComment input) as [input' c'] eqn:HC. simpl in *.
  destruct (c' =? EOF) eqn:Hc.
  { split; [|intros m]; destruct n; try destruct m; simpl; rewrite HS, Ha, Hd, Hh, HC, Hc;
      try done; apply gettok_char_returns. }
  split.
  - apply Z.eqb_neq in Hc. specialize (HL Hc). lia.
  - destruct n; simpl; by rewrite HS, Ha, Hd, Hh, HC, Hc.
Qed.

Lemma gettok_rec_enough n s :
  (String.length (stdin s) ≤ n)%nat →
  gettok_rec n s ≠ OutOfFuel ∧
  ∀ m, (String.length (stdin s) ≤ m)%nat → gettok_rec m s = gettok_rec n s.
Proof.
  revert s. induction n as [|n IH]; intros s Hn.
  - pose proof (gettok_rec_cases 0 s) as H0. cbv zeta in H0.
    destruct (_ || _ || _ || _).
    + split; [apply H0|]. intros m _. apply H0.
    + lia.
  - pose proof (gettok_rec_cases (S n) s) as Hn'. cbv zeta in Hn'.
    destruct (_ || _ || _ || _) eqn:Hcase.
    + split; [apply Hn'|]. intros m _. apply Hn'.
    + destruct Hn' as [HL Hn']. rewrite Hn'. split.
      * apply IH. simpl. lia.
      * intros m Hm. pose proof (gettok_rec_cases m s) as Hm'. cbv zeta in Hm'.
        rewrite Hcase in Hm'. destruct Hm' as [_ ->].
        destruct m as [|m]; [lia|]. apply IH; simpl; lia.
Qed.

(** X1: [gettok] returns a token or ends the process on every input: the
    calls of [gettok] from itself are bounded by the length of the input, and
    a larger bound changes nothing. *)
Theorem gettok_terminates s :
  gettok s ≠ OutOfFuel ∧
  ∀ n, (String.length (stdin s) ≤ n)%nat → gettok_rec n s = gettok s.
Proof.
  unfold gettok. split.
  - by apply gettok_rec_enough.
  - intros n Hn. by apply gettok_rec_enough.
Qed.

Lemma set_lexer_same s : set_lexer (stdin s) (LastChar s) s = s.
Proof. by destruct s. Qed.

Lemma gettok_rec_eof n s s' :
  gettok_rec n s = Done tok_eof s' → LastChar s' = EOF.
Proof.
  revert s. induction n as [|n IH]; intros s; simpl;
    destruct (skipWhitespace (stdin s) (LastChar s)) as [input c];
    (destruct (isalpha c);
     [destruct (readIdentifier input _) as [[input' c'] Id];
      destruct (String.eqb Id "def"); [|destruct (String.eqb Id "extern")]; done|]);
    (destruct (isdigit c || (c =? 46));
     [destruct (readNumber input c _ _ _) as [[[input' c'] NumStr] de]; by destruct de|]).
  all: assert (∀ input c, gettok_char input c s = Done tok_eof s' → LastChar s' = EOF) as Hchar.
  1,3: intros i c0; unfold gettok_char; destruct (c0 =? EOF) eqn:E;
       [apply Z.eqb_eq in E as ->; by intros [= <-]|];
       apply Z.eqb_neq in E; destruct i; intros [= -> <-]; done.
  all: destruct (c =? 35); [|by apply Hchar].
  all: destruct (skipComment input) as [input' c'].
  all: destruct (negb (c' =? EOF)); [|by apply Hchar].
  - done.
  - apply IH.
Qed.

Lemma skipWhitespace_done input c : isspace c = false → skipWhitespace input c = (input, c).
Proof. intros H. destruct input; simpl; by rewrite H. Qed.

(** X2: the end of the input is not consumed: once [gettok] has returned
    [tok_eof], it returns [tok_eof] again and changes nothing. *)
Theorem eof_is_not_eaten s s' :
  gettok s = Done tok_eof s' → gettok s' = Done tok_eof s'.
Proof.
  intros H. apply gettok_rec_eof in H.
  assert (skipWhitespace (stdin s') (LastChar s') = (stdin s', EOF)) as HS.
  { rewrite H. by destruct (stdin s'). }
  unfold gettok. destruct (String.length (stdin s')); simpl; rewrite HS; simpl;
    unfold gettok_char; simpl; by rewrite <- H, set_lexer_same.
Qed.

Lemma eof_is_not_eaten_witness :
  gettok (set_lexer "" EOF (start "")) = Done tok_eof (set_lexer "" EOF (start "")).
Proof. apply (eof_is_not_eaten (start "  ")). reflexivity. Defined.

Lemma int_of_char_isChar c : isChar (int_of_char c).
Proof.
  right. unfold int_of_char. pose proof (N_ascii_bounded c). lia.
Qed.

Lemma skipWhitespace_isChar input c : isChar c → isChar (skipWhitespace input c).2.
Proof.
  revert c. induction input as [|c' rest IH]; intros c Hc; simpl.
  - destruct (isspace c); [by left|done].
  - destruct (isspace c); [|done]. apply IH, int_of_char_isChar.
Qed.

Lemma readIdentifier_isChar input Id : isChar (readIdentifier input Id).1.2.
Proof.
  revert Id. induction input as [|c' rest IH]; intros Id; simpl; [by left|].
  destruct (isalnum _); [apply IH|apply int_of_char_isChar].
Qed.

Lemma readNumber_isChar input c NumStr hd de : isChar (readNumber input c NumStr hd de).1.1.2.
Proof.
  revert c NumStr hd de. induction input as [|c' rest IH]; intros c NumStr hd de; simpl;
    [by left|].
  destruct (_ || _); [apply IH|apply int_of_char_isChar].
Qed.

Lemma skipComment_isChar input : isChar (skipComment input).2.
Proof.
  induction input as [|c' rest IH]; simpl; [by left|].
  destruct (_ || _); [apply int_of_char_isChar|apply IH].
Qed.

Lemma gettok_char_range input c s t s' :
  isChar c → gettok_char input c s = Done t s' → isToken t ∧ isChar (LastChar s').
Proof.
  intros Hc. unfold gettok_char, isToken. destruct (c =? EOF) eqn:E.
  - apply Z.eqb_eq in E as ->. intros [= <- <-]. split; [done|by left].
  - apply Z.eqb_neq in E. destruct Hc as [Hc|Hc]; [done|].
    destruct input; intros [= <- <-]; (split; [lia|]);
      [by left|apply int_of_char_isChar].
Qed.

Lemma gettok_rec_range n s t s' :
  isChar (LastChar s) → gettok_rec n s = Done t s' → isToken t ∧ isChar (LastChar s').
Proof.
  revert s. induction n as [|n IH]; intros s Hs; simpl;
    pose proof (skipWhitespace_isChar (stdin s) _ Hs) as HW;
    destruct (skipWhitespace (stdin s) (LastChar s)) as [input c]; simpl in HW;
    (destruct (isalpha c);
     [pose proof (readIdentifier_isChar input (String (char_of_int c) EmptyString)) as HI;
      destruct (readIdentifier input _) as [[input' c'] Id]; simpl in HI;
      destruct (String.eqb Id "def"); [|destruct (String.eqb Id "extern")];
      intros [= <- <-]; done|]);
    (destruct (isdigit c || (c =? 46));
     [pose proof (readNumber_isChar input c EmptyString false false) as HN;
      destruct (readNumber input c _ _ _) as [[[input' c'] NumStr] de]; simpl in HN;
      destruct de; [done|]; intros [= <- <-]; done|]);
    (destruct (c =? 35); [|by apply gettok_char_range]);
    pose proof (skipComment_isChar input) as HC;
    destruct (skipComment input) as [input' c']; simpl in HC;
    (destruct (negb (c' =? EOF)); [|by apply gettok_char_range]).
  - done.
  - by apply IH.
Qed.

(** X3: [gettok] returns one of the five tokens of the enumeration or a
    character code from 0 to 255, and [LastChar] stays a character or
    [EOF]. *)
Theorem gettok_returns_a_token s t s' :
  isChar (LastChar s) → gettok s = Done t s' → isToken t ∧ isChar (LastChar s').
Proof. apply gettok_rec_range. Qed.

Lemma gettok_returns_a_token_witness :
  isToken tok_identifier ∧ isChar 43.
Proof.
  apply (gettok_returns_a_token (start "abc+1") tok_identifier
           (set_IdentifierStr "abc" (set_lexer "1" 43 (start "abc+1")))).
  - right. simpl. lia.
  - reflexivity.
Defined.

(** X4: a number with at most one decimal point is the token [tok_number]:
    [NumVal] is the conversion of its whole text (a lone "." is such a text),
    and nothing is written. *)
Theorem gettok_number s input c :
  skipWhitespace (stdin s) (LastChar s) = (input, c) →
  isdigit c || (c =? 46) = true →
  (decimalPoints (String (char_of_int c) (numberRun input)) ≤ 1)%nat →
  ∃ s', gettok s = Done tok_number s' ∧
        NumVal s' = strtod (String (char_of_int c) (numberRun input)) ∧
        IdentifierStr s' = IdentifierStr s ∧
        output s' = output s.
Proof.
  intros HS Hc Hdots.
  destruct (gettok_rec_number (String.length (stdin s)) s input c HS Hc)
    as (input' & c' & HG).
  cbv zeta in HG.
  assert ((2 <=? decimalPoints (String (char_of_int c) (numberRun input)))%nat = false) as E
    by (apply Nat.leb_gt; lia).
  rewrite E in HG. eexists. split; [exact HG|done].
Qed.

Lemma gettok_number_witness :
  ∃ s', gettok (start "3.14 + x") = Done tok_number s' ∧ NumVal s' = strtod "3.14" ∧
        IdentifierStr s' = EmptyString ∧ output s' = [].
Proof.
  apply (gettok_number (start "3.14 + x") ".14 + x" 51).
  - reflexivity.
  - reflexivity.
  - simpl. lia.
Defined.

Lemma readIdentifier_spec input Id :
  ∃ input' c', readIdentifier input Id = (input', c', Id +:+ identifierRun input).
Proof.
  revert Id. induction input as [|c rest IH]; intros Id; simpl.
  - exists EmptyString, EOF. f_equal. induction Id as [|x Id IHId]; [done|].
    cbv [String.append]. fold String.append. by rewrite <- IHId.
  - destruct (isalnum (int_of_char c)).
    + destruct (IH (Id +:+ String c EmptyString)) as (input' & c' & ->).
      exists input', c'. by rewrite append_snoc.
    + exists rest, (int_of_char c). f_equal. induction Id as [|x Id IHId]; [done|].
      cbv [String.append]. fold String.append. by rewrite <- IHId.
Qed.

(** X5: a letter starts an identifier, which takes all the letters and digits
    that follow.  The token is [tok_def] or [tok_extern] when the whole text
    is that keyword, and [tok_identifier] otherwise; [IdentifierStr] is the
    text in the three cases. *)
Theorem gettok_identifier s input c :
  skipWhitespace (stdin s) (LastChar s) = (input, c) →
  isalpha c = true →
  let Id := String (char_of_int c) (identifierRun input) in
  ∃ s', gettok s =
          Done (if String.eqb Id "def" then tok_def
                else if String.eqb Id "extern" then tok_extern
                else tok_identifier) s' ∧
        IdentifierStr s' = Id ∧ NumVal s' = NumVal s ∧ output s' = output s.
Proof.
  intros HS Ha Id. unfold gettok.
  destruct (readIdentifier_spec input (String (char_of_int c) EmptyString))
    as (input' & c' & HR).
  change (String (char_of_int c) EmptyString +:+ identifierRun input) with Id in HR.
  clearbody Id.
  exists (set_IdentifierStr Id (set_lexer input' c' s)).
  split; [|done].
  destruct (String.length (stdin s)); simpl; rewrite HS, Ha, HR;
    destruct (String.eqb Id "def"); try destruct (String.eqb Id "extern"); done.
Qed.

Lemma gettok_identifier_witness :
  ∃ s', gettok (start "define(") = Done tok_identifier s' ∧
        IdentifierStr s' = "define" ∧ NumVal s' = strtod "0" ∧ output s' = [].
Proof.
  apply (gettok_identifier (start "define(") "efine(" 100); reflexivity.
Defined.

(** X6: a comment is not seen by the caller: when a line end closes it,
    [gettok] returns what it returns from that line end on; when the input
    ends in it, [gettok] returns [tok_eof]. *)
Theorem gettok_comment s input input' c' :
  skipWhitespace (stdin s) (LastChar s) = (input, 35) →
  skipComment input = (input', c') →
  gettok s =
  if c' =? EOF then Done tok_eof (set_lexer input' EOF s)
  else gettok (set_lexer input' c' s).
Proof.
  intros HS HC.
  pose proof (gettok_rec_cases (String.length (stdin s)) s) as H. cbv zeta in H.
  rewrite HS in H. simpl in H. rewrite HC in H. simpl in H.
  unfold gettok at 1. destruct (c' =? EOF) eqn:E.
  - apply Z.eqb_eq in E as ->.
    destruct (String.length (stdin s)); simpl; rewrite HS; simpl; rewrite HC; done.
  - destruct H as [HL ->]. destruct (String.length (stdin s)) as [|n]; [lia|].
    unfold gettok. apply (gettok_rec_enough (String.length input') (set_lexer input' c' s));
      simpl; lia.
Qed.

Lemma gettok_comment_witness :
  gettok (start "# one
x") = gettok (set_lexer "x" 10 (start "")).
Proof.
  apply (gettok_comment (start "# one
x") " one
x" "x" 10); reflexivity.
Defined.

(** ** The parser *)

(** X7: parsing belongs to the front of the program: whatever a definition,
    an extern or a top-level expression is parsed to, the module, the
    builder's insertion point and the symbol table are as before. *)
Theorem parsing_leaves_the_module_alone fuel s s' :
  (∃ r, ParseDefinition fuel s = Done r s') ∨
  (∃ r, ParseExtern fuel s = Done r s') ∨
  (∃ r, ParseTopLevelExpr fuel s = Done r s') →
  TheModule s' = TheModule s ∧ Builder s' = Builder s ∧ NamedValues s' = NamedValues s.
Proof.
  assert (∀ A (m : M A) r, satisfies parserStep fatalExit m → m s = Done r s' →
            TheModule s' = TheModule s ∧ Builder s' = Builder s ∧
            NamedValues s' = NamedValues s) as Hp.
  { intros A m r Hm E. specialize (Hm s). rewrite E in Hm. apply Hm. }
  intros [[r H]|[[r H]|[r H]]].
  - eapply Hp; [apply ParseDefinition_satisfies|done].
  - eapply Hp; [apply ParsePrototype_satisfies|done].
  - eapply Hp; [apply ParseTopLevelExpr_satisfies|done].
Qed.

Lemma parsing_leaves_the_module_alone_witness :
  let s := set_CurTok tok_def (start "f(x) x") in
  ∃ r s', ParseDefinition 10 s = Done r s' ∧
          TheModule s' = TheModule s ∧ Builder s' = Builder s ∧
          NamedValues s' = NamedValues s.
Proof.
  intros s. do 2 eexists. split; [vm_compute; reflexivity|].
  match goal with |- TheModule ?s' = _ ∧ _ =>
    apply (parsing_leaves_the_module_alone 10 s s') end.
  left. eexists. vm_compute. reflexivity.
Defined.

Lemma getNextToken_CurTok s t s' : getNextToken s = Done t s' → CurTok s' = t.
Proof.
  unfold getNextToken. intros H. apply bind_Done in H as (t' & s1 & _ & H).
  simpl in H. by injection H as <- <-.
Qed.

(** The name of a prototype is [IdentifierStr] as it is when the token after
    the keyword has been read, with the mark of the keyword appended. *)
Lemma ParsePrototype_mangled fuel s P s' :
  ParsePrototype fuel s = Done (Some P) s' →
  ∃ s1, getNextToken s = Done tok_identifier s1 ∧
        getName P =
        if CurTok s =? tok_def then IdentifierStr s1 +:+ "_def"
        else if CurTok s =? tok_extern then IdentifierStr s1 +:+ "_ext"
        else IdentifierStr s1.
Proof.
  intros H. unfold ParsePrototype in H.
  apply bind_Done in H as (FnType & s1 & H1 & H). injection H1 as <- <-.
  apply bind_Done in H as (t & s2 & HG & H).
  apply bind_Done in H as (Tok & s3 & HT & H). injection HT as <- <-.
  destruct (negb (CurTok s2 =? tok_identifier)) eqn:E; [done|].
  apply negb_false_iff, Z.eqb_eq in E.
  apply bind_Done in H as (FnName & s4 & HI & H). injection HI as <- <-.
  apply bind_Done in H as (? & s5 & _ & H).
  apply bind_Done in H as (Tok' & s6 & _ & H).
  destruct (negb (Tok' =? 40)); [done|].
  apply bind_Done in H as (ArgNames & s7 & _ & H).
  apply bind_Done in H as (Tok'' & s8 & _ & H).
  destruct (negb (Tok'' =? 41)); [done|].
  apply bind_Done in H as (? & s9 & _ & H). injection H as <- _. simpl.
  exists s2. split; [|done].
  pose proof (getNextToken_CurTok _ _ _ HG) as HC. congruence.
Qed.

(** ** Code generation *)

Lemma exprStep_sameFront s s' : exprStep s s' → sameFront s s'.
Proof. intros (? & ? & ? & ? & ? & ? & _). by repeat split. Qed.

Lemma FunctionAST_codegen_body_sameFront Body F s :
  sameFront s (FunctionAST_codegen_body Body F s).2.
Proof.
  unfold FunctionAST_codegen_body.
  destruct (atHandle F (TheModule s)) as [f|]; [|by repeat split].
  destruct (negb _); [by repeat split|].
  destruct (BasicBlock_Create _ _ _) as [BB Mod].
  match goal with |- context [ExprAST_codegen ?e ?s0] =>
    pose proof (exprStep_sameFront _ _ (ExprAST_codegen_step e s0)) as HS;
    destruct (ExprAST_codegen e s0) as [[RetVal|] s2] end; simpl in *.
  - unfold CreateRet, Insert. destruct (Builder s2). simpl. exact HS.
  - exact HS.
Qed.

(** X9: code generation belongs to the back of the program: lowering an
    expression, a prototype or a definition leaves the input, [LastChar],
    [IdentifierStr], [NumVal], the current token and the precedence table as
    they are. *)
Theorem codegen_leaves_the_parser_alone s :
  (∀ e, sameFront s (ExprAST_codegen e s).2) ∧
  (∀ P, sameFront s (PrototypeAST_codegen P s).2) ∧
  (∀ FnAST, sameFront s (FunctionAST_codegen FnAST s).2).
Proof.
  split; [|split].
  - intros e. apply exprStep_sameFront, ExprAST_codegen_step.
  - intros P. rewrite PrototypeAST_codegen_eq. by repeat split.
  - intros FnAST. unfold FunctionAST_codegen. destruct (getFunction _ _) as [f|].
    + apply FunctionAST_codegen_body_sameFront.
    + rewrite PrototypeAST_codegen_eq.
      match goal with |- sameFront _ (FunctionAST_codegen_body ?b ?F ?s0).2 =>
        pose proof (FunctionAST_codegen_body_sameFront b F s0) as H end.
      exact H.
Qed.

(** X10: the two operands of a binary expression are both lowered, the right
    one from the state the left one leaves, also when the left one fails;
    when one of them fails, the result is null and nothing more is done, so
    that the errors of both operands are reported. *)
Theorem both_operands_are_lowered Op LHS RHS s :
  let left := ExprAST_codegen LHS s in
  let right := ExprAST_codegen RHS left.2 in
  left.1 = None ∨ right.1 = None →
  ExprAST_codegen (BinaryExprAST Op LHS RHS) s = (None, right.2).
Proof.
  intros left right H. subst left right. simpl.
  destruct (ExprAST_codegen LHS s) as [L s1]. simpl in *.
  destruct (ExprAST_codegen RHS s1) as [R s2]. simpl in *.
  destruct H as [-> | ->]; [done|by destruct L].
Qed.

Lemma both_operands_are_lowered_witness :
  ExprAST_codegen (BinaryExprAST "+" (VariableExprAST "y") (VariableExprAST "z")) (start "") =
  (None, logged "Unknown variable name"
           (set_NamedValues (<["z" := None]> (<["y" := None]> ∅))
              (logged "Unknown variable name" (start "")))).
Proof.
  apply (both_operands_are_lowered "+" (VariableExprAST "y") (VariableExprAST "z") (start "")).
  left. reflexivity.
Defined.

Lemma codegenArgs_app codegen Args1 Args2 ArgsV s :
  codegenArgs codegen (Args1 ++ Args2) ArgsV s =
  match codegenArgs codegen Args1 ArgsV s with
  | (Some ArgsV1, s1) => codegenArgs codegen Args2 ArgsV1 s1
  | (None, s1) => (None, s1)
  end.
Proof.
  revert ArgsV s. induction Args1 as [|A Args1 IH]; intros ArgsV s; simpl; [done|].
  destruct (codegen A s) as [[V|] s1]; [apply IH|done].
Qed.

(** X11: the arguments of a call are lowered from left to right and the first
    one that fails ends the call: the arguments after it are not lowered, the
    result is null and no call is emitted. *)
Theorem first_failing_argument_ends_the_call Callee f Args1 Arg Args2 s ArgsV s1 s2 :
  getFunction Callee (TheModule s) = Some f →
  length (FArgs f) = length (Args1 ++ Arg :: Args2) →
  codegenArgs ExprAST_codegen Args1 [] s = (Some ArgsV, s1) →
  ExprAST_codegen Arg s1 = (None, s2) →
  ExprAST_codegen (CallExprAST Callee (Args1 ++ Arg :: Args2)) s = (None, s2).
Proof.
  intros HG Hlen H1 HA. simpl. rewrite HG.
  apply Nat.eqb_eq in Hlen. rewrite Hlen. simpl.
  rewrite codegenArgs_app, H1. simpl. by rewrite HA.
Qed.

Lemma first_failing_argument_ends_the_call_witness :
  let s := (PrototypeAST_codegen (mkPrototypeAST "g" ["a"; "b"; "c"]) (start "")).2 in
  ExprAST_codegen
    (CallExprAST "g" [NumberExprAST (strtod "1"); VariableExprAST "y"; VariableExprAST "z"]) s =
  (None, logged "Unknown variable name" (set_NamedValues (<["y" := None]> ∅) s)).
Proof.
  intros s.
  apply (first_failing_argument_ends_the_call "g" (mkFunction 1 "g" ["a"; "b"; "c"] [])
           [NumberExprAST (strtod "1")] (VariableExprAST "y") [VariableExprAST "z"] s
           [Const (ConstantFP (strtod "1"))] s); reflexivity.
Defined.

Lemma find_app_None {A} (p : A → bool) l1 l2 :
  List.find p l1 = None → List.find p (l1 ++ l2) = List.find p l2.
Proof.
  induction l1 as [|x l1 IH]; simpl; [done|]. destruct (p x); [done|apply IH].
Qed.

Lemma find_map_same {A} (p : A → bool) (g : A → A) l :
  (∀ x, p (g x) = p x) → List.find p (map g l) = g <$> List.find p l.
Proof.
  intros Hp. induction l as [|x l IH]; simpl; [done|]. rewrite Hp.
  destruct (p x); [done|apply IH].
Qed.

Lemma getFunction_None_fresh Name TheModule :
  getFunction Name TheModule = None →
  createValueName (map FName (Functions TheModule)) "." Name (LastUnique TheModule) =
  (Name, LastUnique TheModule).
Proof.
  unfold getFunction, createValueName.
  destruct (String.eqb Name EmptyString) eqn:E.
  { apply String.eqb_eq in E as ->. done. }
  intros H. rewrite bool_decide_eq_false_2; [done|].
  intros Hin. apply list_elem_of_fmap in Hin as (f & -> & Hin).
  apply list_elem_of_In in Hin.
  eapply List.find_none in H; [|exact Hin]. simpl in H.
  by rewrite String.eqb_refl in H.
Qed.

(** X12: a definition whose prototype is new to the module either fails and
    leaves the module exactly as it was, or adds one function to it, at the
    end: the function returned, under the name of the prototype, with a body
    that the verifier accepts. *)
Theorem new_definition_adds_one_function_or_nothing FnAST s r s' :
  getFunction (getName (Proto FnAST)) (TheModule s) = None →
  FunctionAST_codegen FnAST s = (r, s') →
  match r with
  | None => TheModule s' = TheModule s
  | Some F =>
      ∃ f, Functions (TheModule s') = (Functions (TheModule s) ++ [f])%list ∧
           Fid f = F ∧ FName f = getName (Proto FnAST) ∧
           FBlocks f ≠ [] ∧ verifyFunction f = false
  end.
Proof.
  intros HG Hcg.
  destruct (FunctionAST_codegen_fresh FnAST s HG) as (r' & s1 & Is & _ & _ & HIs & Hr).
  unfold declaration in Hr. rewrite (getFunction_None_fresh _ _ HG) in Hr. simpl in Hr.
  destruct r' as [RetVal|]; rewrite Hr in Hcg; injection Hcg as <- <-; simpl.
  - eexists. split; [done|]. repeat split; [done|]. by apply verifyFunction_completed.
  - by destruct (TheModule s).
Qed.

Lemma new_definition_adds_one_function_or_nothing_witness :
  TheModule (FunctionAST_codegen
               (mkFunctionAST (mkPrototypeAST "f_def" ["x"]) (VariableExprAST "y"))
               (start "")).2 = TheModule (start "").
Proof.
  exact (new_definition_adds_one_function_or_nothing
           (mkFunctionAST (mkPrototypeAST "f_def" ["x"]) (VariableExprAST "y"))
           (start "") None _ eq_refl eq_refl).
Defined.

(** X13: a name is defined once: in a module that is well formed (no two
    functions share a handle, no function is broken), after a definition
    under a name that is not empty has succeeded, every definition under that
    name fails with "Function cannot be redefined." and changes nothing but
    the messages written. *)
Theorem a_name_is_defined_once FnAST1 FnAST2 s F s1 :
  ModuleOK (TheModule s) →
  getName (Proto FnAST1) ≠ EmptyString →
  getName (Proto FnAST2) = getName (Proto FnAST1) →
  FunctionAST_codegen FnAST1 s = (Some F, s1) →
  FunctionAST_codegen FnAST2 s1 = (None, logged "Function cannot be redefined." s1).
Proof.
  intros HOK HN Hsame Hcg.
  pose proof (FunctionAST_codegen_ok _ _ _ _ HOK Hcg) as [[ND _] _].
  assert (∃ f, getFunction (getName (Proto FnAST1)) (TheModule s1) = Some f ∧
               FBlocks f ≠ []) as (f & Hf & Hblocks).
  { apply String.eqb_neq in HN as HN'.
    destruct (getFunction (getName (Proto FnAST1)) (TheModule s)) as [f|] eqn:HG.
    - destruct (FBlocks f) as [|b bs] eqn:Hb.
      + destruct (FunctionAST_codegen_reuse FnAST1 s f) as (r' & s2 & Is & _ & _ & _ & Hr);
          [apply HOK|done|done|].
        destruct r' as [RetVal|]; rewrite Hr in Hcg; [|done]. injection Hcg as <- <-.
        exists (completed Is RetVal f). split; [|done].
        unfold getFunction in *. rewrite HN' in *. simpl.
        rewrite find_map_same; [rewrite HG; simpl; by rewrite Nat.eqb_refl|].
        intros x. by destruct (Nat.eqb (Fid x) (Fid f)).
      + rewrite (FunctionAST_codegen_redefinition FnAST1 s f) in Hcg;
          [done|apply HOK|done|by rewrite Hb].
    - destruct (FunctionAST_codegen_fresh FnAST1 s HG) as (r' & s2 & Is & _ & _ & _ & Hr).
      unfold declaration in Hr. rewrite (getFunction_None_fresh _ _ HG) in Hr. simpl in Hr.
      destruct r' as [RetVal|]; rewrite Hr in Hcg; [|done]. injection Hcg as <- <-.
      eexists. split; [|shelve].
      unfold getFunction in *. rewrite HN' in *. simpl.
      rewrite find_app_None by done. simpl. by rewrite String.eqb_refl.
      Unshelve. done. }
  apply (FunctionAST_codegen_redefinition FnAST2 s1 f); [done| |done].
  by rewrite Hsame.
Qed.

Lemma a_name_is_defined_once_witness :
  let Proto := mkPrototypeAST "foo_def" ["x"] in
  let s1 := (FunctionAST_codegen (mkFunctionAST Proto (VariableExprAST "x")) (start "")).2 in
  FunctionAST_codegen (mkFunctionAST Proto (NumberExprAST (strtod "7"))) s1 =
  (None, logged "Function cannot be redefined." s1).
Proof.
  intros Proto s1.
  apply (a_name_is_defined_once (mkFunctionAST Proto (VariableExprAST "x"))
           (mkFunctionAST Proto (NumberExprAST (strtod "7"))) (start "") 1%nat s1).
  - split; simpl; constructor.
  - discriminate.
  - reflexivity.
  - reflexivity.
Defined.

(** X14: in a module that is well formed (no two functions share a handle,
    no function is broken), a definition for a function that is in the module
    without a body takes that function over; when lowering its body fails, it
    is that function which is erased: the declaration is gone from the
    module, and the other functions are as before. *)
Theorem failed_definition_erases_the_declaration FnAST s f s' :
  ModuleOK (TheModule s) →
  getFunction (getName (Proto FnAST)) (TheModule s) = Some f →
  FBlocks f = [] →
  FunctionAST_codegen FnAST s = (None, s') →
  TheModule s' = eraseFromParent (Fid f) (TheModule s) ∧
  atHandle (Fid f) (TheModule s') = None ∧
  ∀ g, g ∈ Functions (TheModule s') ↔ g ∈ Functions (TheModule s) ∧ g ≠ f.
Proof.
  intros HOK HG Hblocks Hcg.
  destruct (FunctionAST_codegen_reuse FnAST s f) as (r' & s1 & Is & _ & _ & _ & Hr);
    [apply HOK|done|done|].
  destruct r' as [RetVal|]; rewrite Hr in Hcg; [done|]. injection Hcg as <-.
  apply getFunction_Some in HG as (Hin & _ & _).
  change (TheModule (set_TheModule (eraseFromParent (Fid f) (TheModule s)) s1))
    with (eraseFromParent (Fid f) (TheModule s)).
  split; [done|]. split.
  - destruct (atHandle _ (eraseFromParent _ _)) as [g|] eqn:Hat; [|done].
    apply atHandle_Some in Hat as [Hg Hid].
    by apply elem_of_eraseFromParent in Hg as [_ Hg].
  - intros g. rewrite elem_of_eraseFromParent. split.
    + intros [Hg Hid]. split; [done|]. by intros ->.
    + intros [Hg Hne]. split; [done|]. intros Hid. apply Hne.
      pose proof (atHandle_unique _ _ (proj1 HOK) Hg) as H1.
      pose proof (atHandle_unique _ _ (proj1 HOK) Hin) as H2.
      rewrite Hid in H1. congruence.
Qed.

Lemma failed_definition_erases_the_declaration_witness :
  let s := (PrototypeAST_codegen (mkPrototypeAST "g" ["a"]) (start "")).2 in
  let FnAST := mkFunctionAST (mkPrototypeAST "g" ["a"]) (VariableExprAST "y") in
  TheModule (FunctionAST_codegen FnAST s).2 = mkModule [] 0.
Proof.
  intros s FnAST.
  apply (failed_definition_erases_the_declaration FnAST s (mkFunction 1 "g" ["a"] [])).
  - split; [apply NoDup_singleton|]. by repeat constructor.
  - reflexivity.
  - reflexivity.
  - reflexivity.
Defined.

(** X15: whatever the input, when [main] comes to its end the module it
    writes is well formed: no two functions share a handle, and each one is a
    declaration or has blocks that end with their only terminator.  The top
    level loop keeps a module so from any state whose module is well formed
    and holds only functions that have a name. *)
Theorem the_module_stays_well_formed :
  (∀ fuel input s',
     main fuel (start input) = Done 0 s' → ModuleOK (TheModule s')) ∧
  (∀ fuel s r s',
     ModuleOK (TheModule s) → allNamed (TheModule s) →
     MainLoop fuel s = Done r s' → ModuleOK (TheModule s')).
Proof.
  split.
  - intros fuel input s' H. pose proof (main_driver fuel input) as Hm.
    rewrite H in Hm. apply Hm.
  - intros fuel s r s' HOK HA H. pose proof (MainLoop_driver fuel s) as Hm.
    rewrite H in Hm. destruct Hm as [_ Hm]. by apply Hm.
Qed.

Lemma the_module_stays_well_formed_witness :
  ∃ s', main 20 (start "def f(x) x*x
extern g(a)
def h(x) y
") = Done 0 s' ∧ ModuleOK (TheModule s').
Proof.
  eexists. split; [vm_compute; reflexivity|].
  match goal with |- ModuleOK (TheModule ?s') =>
    apply (proj1 the_module_stays_well_formed 20%nat "def f(x) x*x
extern g(a)
def h(x) y
" s') end.
  vm_compute. reflexivity.
Defined.

(** ** Fuel *)

Lemma refines_refl {A} (m : M A) : refines m m.
Proof. intros s. by right. Qed.

Lemma refines_trans {A} (m1 m2 m3 : M A) : refines m1 m2 → refines m2 m3 → refines m1 m3.
Proof.
  intros H12 H23 s. destruct (H12 s) as [E|E]; [by left|].
  destruct (H23 s) as [E'|E']; [left|right]; congruence.
Qed.

Lemma refines_bind {A B} (m m' : M A) (k k' : A → M B) :
  refines m m' → (∀ a, refines (k a) (k' a)) → refines (bind m k) (bind m' k').
Proof.
  intros Hm Hk s. unfold bind. destruct (Hm s) as [E|E].
  - left. by rewrite E.
  - rewrite <- E. destruct (m s) as [a s1| |]; [apply Hk|by right|by left].
Qed.

Lemma refines_out_of_fuel {A} (m : M A) : refines (λ _, OutOfFuel) m.
Proof. intros s. by left. Qed.

Ltac refines_step :=
  match goal with
  | |- refines (λ _, OutOfFuel) _ => apply refines_out_of_fuel
  | |- refines (bind _ _) (bind _ _) => apply refines_bind; [|intros ?]
  | |- refines (if ?b then _ else _) (if ?b then _ else _) => destruct b
  | |- refines (match ?x with _ => _ end) (match ?x with _ => _ end) => destruct x
  | |- refines ?m ?m => apply refines_refl
  end.

Lemma expression_parser_refines n : ∀ m, (n ≤ m)%nat →
  refines (ParseExpression n) (ParseExpression m) ∧
  refines (ParsePrimary n) (ParsePrimary m) ∧
  refines (ParseParenExpr n) (ParseParenExpr m) ∧
  refines (ParseIdentifierExpr n) (ParseIdentifierExpr m) ∧
  (∀ Args, refines (ParseArgs n Args) (ParseArgs m Args)) ∧
  (∀ ExprPrec LHS, refines (ParseBinOpRHS n ExprPrec LHS) (ParseBinOpRHS m ExprPrec LHS)).
Proof.
  induction n as [|n IH]; intros m Hm.
  { repeat split; intros; apply refines_out_of_fuel. }
  destruct m as [|m]; [lia|].
  destruct (IH m) as (IHe & IHp & IHpar & IHid & IHargs & IHrhs); [lia|].
  repeat split; intros; simpl;
    repeat first [ apply IHe | apply IHp | apply IHpar | apply IHid | apply IHargs
                 | apply IHrhs | refines_step | progress cbv zeta ].
Qed.

Lemma ParseArgNames_refines n : ∀ m ArgNames, (n ≤ m)%nat →
  refines (ParseArgNames n ArgNames) (ParseArgNames m ArgNames).
Proof.
  induction n as [|n IH]; intros m ArgNames Hm; [apply refines_out_of_fuel|].
  destruct m as [|m]; [lia|]. simpl.
  repeat first [ apply IH; lia | refines_step ].
Qed.

Lemma ParsePrototype_refines n m :
  (n ≤ m)%nat → refines (ParsePrototype n) (ParsePrototype m).
Proof.
  intros Hm. unfold ParsePrototype.
  repeat first [ by apply ParseArgNames_refines | refines_step ].
Qed.

Lemma ParseDefinition_refines n m :
  (n ≤ m)%nat → refines (ParseDefinition n) (ParseDefinition m).
Proof.
  intros Hm. unfold ParseDefinition.
  repeat first [ by apply ParsePrototype_refines | by apply expression_parser_refines
               | refines_step ].
Qed.

Lemma ParseTopLevelExpr_refines n m :
  (n ≤ m)%nat → refines (ParseTopLevelExpr n) (ParseTopLevelExpr m).
Proof.
  intros Hm. unfold ParseTopLevelExpr.
  repeat first [ by apply expression_parser_refines | refines_step ].
Qed.

Lemma MainLoop_refines n : ∀ m, (n ≤ m)%nat → refines (MainLoop n) (MainLoop m).
Proof.
  induction n as [|n IH]; intros m Hm; [apply refines_out_of_fuel|].
  destruct m as [|m]; [lia|]. simpl.
  assert (n ≤ m)%nat as Hm' by lia.
  unfold HandleDefinition, HandleExtern, HandleTopLevelExpression, ParseExtern.
  repeat first [ by apply IH | by apply ParseDefinition_refines
               | by apply ParsePrototype_refines | by apply ParseTopLevelExpr_refines
               | refines_step ].
Qed.

Lemma HandleDefinition_refines n m :
  (n ≤ m)%nat → refines (HandleDefinition n) (HandleDefinition m).
Proof.
  intros Hm. unfold HandleDefinition.
  repeat first [ by apply ParseDefinition_refines | refines_step ].
Qed.

Lemma HandleExtern_refines n m :
  (n ≤ m)%nat → refines (HandleExtern n) (HandleExtern m).
Proof.
  intros Hm. unfold HandleExtern, ParseExtern.
  repeat first [ by apply ParsePrototype_refines | refines_step ].
Qed.

Lemma HandleTopLevelExpression_refines n m :
  (n ≤ m)%nat → refines (HandleTopLevelExpression n) (HandleTopLevelExpression m).
Proof.
  intros Hm. unfold HandleTopLevelExpression.
  repeat first [ by apply ParseTopLevelExpr_refines | refines_step ].
Qed.

Lemma main_refines n m : (n ≤ m)%nat → refines (main n) (main m).
Proof.
  intros Hm. unfold main. repeat first [ by apply MainLoop_refines | refines_step ].
Qed.

Lemma refines_Done {A} (m m' : M A) s a s' :
  refines m m' → m s = Done a s' → m' s = Done a s'.
Proof. intros H E. destruct (H s) as [E'|E']; congruence. Qed.

(** ** What reading does *)

Section Parser_relation.
Variable R : relation State.
Variable E : Z → State → Prop.
Context `{!PreOrder R}.
Hypothesis R_getNextToken : satisfies R E getNextToken.
Hypothesis R_getTokPrecedence : satisfies R E getTokPrecedence.
Hypothesis R_logged : ∀ Str s,
  liveOutput (cout ("Error: " +:+ Str +:+ endl)) = true → R s (logged Str s).

Ltac relation_step :=
  match goal with
  | |- satisfies _ _ (bind _ _) => apply satisfies_bind; [apply _| |intros ?]
  | |- satisfies _ _ (ret _) => apply satisfies_ret; apply _
  | |- satisfies _ _ (get _) => apply satisfies_get; apply _
  | |- satisfies _ _ (λ _, OutOfFuel) => apply satisfies_out_of_fuel
  | |- satisfies _ _ getNextToken => apply R_getNextToken
  | |- satisfies _ _ getTokPrecedence => apply R_getTokPrecedence
  | |- satisfies _ _ (LogError _) => intros ?; apply R_logged; reflexivity
  | |- satisfies _ _ (LogErrorP _) => intros ?; apply R_logged; reflexivity
  | |- satisfies _ _ (if ?b then _ else _) => destruct b
  | |- satisfies _ _ (match ?x with _ => _ end) => destruct x
  end.

Lemma expression_parser_relation fuel :
  satisfies R E (ParseExpression fuel) ∧
  satisfies R E (ParsePrimary fuel) ∧
  satisfies R E (ParseParenExpr fuel) ∧
  satisfies R E (ParseIdentifierExpr fuel) ∧
  (∀ Args, satisfies R E (ParseArgs fuel Args)) ∧
  (∀ ExprPrec LHS, satisfies R E (ParseBinOpRHS fuel ExprPrec LHS)).
Proof.
  induction fuel as [|fuel (IHe & IHp & IHpar & IHid & IHargs & IHrhs)].
  { repeat split; intros; apply satisfies_out_of_fuel. }
  repeat split; intros; simpl; unfold ParseNumberExpr;
    repeat first [ relation_step | apply IHe | apply IHp
                 | apply IHpar | apply IHid | apply IHargs | apply IHrhs ].
Qed.

Lemma ParseArgNames_relation fuel ArgNames : satisfies R E (ParseArgNames fuel ArgNames).
Proof.
  revert ArgNames. induction fuel as [|fuel IH]; intros; simpl;
    repeat first [ relation_step | apply IH ].
Qed.

Lemma ParsePrototype_relation fuel : satisfies R E (ParsePrototype fuel).
Proof.
  unfold ParsePrototype. repeat first [ relation_step | apply ParseArgNames_relation ].
Qed.

Lemma ParseDefinition_relation fuel : satisfies R E (ParseDefinition fuel).
Proof.
  unfold ParseDefinition.
  repeat first [ relation_step | apply ParsePrototype_relation
               | apply expression_parser_relation ].
Qed.

Lemma ParseTopLevelExpr_relation fuel : satisfies R E (ParseTopLevelExpr fuel).
Proof.
  unfold ParseTopLevelExpr. repeat first [ relation_step | apply expression_parser_relation ].
Qed.
End Parser_relation.

Lemma charCount_int_of_char c : charCount (int_of_char c) = 1%nat.
Proof.
  unfold charCount, int_of_char. destruct (_ =? EOF) eqn:E; [|done].
  apply Z.eqb_eq in E. unfold EOF in E. lia.
Qed.

Lemma charCount_le c : (charCount c ≤ 1)%nat.
Proof. unfold charCount. destruct (c =? EOF); lia. Qed.

Lemma skipWhitespace_pending input c :
  (String.length (skipWhitespace input c).1 + charCount (skipWhitespace input c).2
   ≤ String.length input + charCount c)%nat.
Proof.
  revert c. induction input as [|c' rest IH]; intros c; simpl.
  - destruct (isspace c); simpl; [change (charCount EOF) with 0%nat|]; lia.
  - destruct (isspace c) eqn:Hs; simpl; [|lia].
    specialize (IH (int_of_char c')). rewrite charCount_int_of_char in IH.
    assert (charCount c = 1%nat) as ->; [|lia].
    unfold charCount. destruct (c =? EOF) eqn:E; [|done].
    apply Z.eqb_eq in E as ->. done.
Qed.

Lemma readIdentifier_pending input Id :
  (String.length (readIdentifier input Id).1.1 + charCount (readIdentifier input Id).1.2
   ≤ String.length input)%nat.
Proof.
  revert Id. induction input as [|c' rest IH]; intros Id; simpl; [done|].
  destruct (isalnum _); simpl.
  - specialize (IH (Id +:+ String c' EmptyString)). lia.
  - rewrite charCount_int_of_char. lia.
Qed.

Lemma readNumber_pending input c NumStr hd de :
  (String.length (readNumber input c NumStr hd de).1.1.1
   + charCount (readNumber input c NumStr hd de).1.1.2 ≤ String.length input)%nat.
Proof.
  revert c NumStr hd de. induction input as [|c' rest IH]; intros c NumStr hd de; simpl;
    [done|].
  destruct (_ || _); simpl.
  - match goal with |- context [readNumber rest ?a ?b ?x ?y] =>
      specialize (IH a b x y) end. lia.
  - rewrite charCount_int_of_char. lia.
Qed.

Lemma skipComment_pending input :
  (String.length (skipComment input).1 + charCount (skipComment input).2
   ≤ String.length input)%nat.
Proof.
  induction input as [|c' rest IH]; simpl; [done|].
  destruct (_ || _); simpl; [rewrite charCount_int_of_char|]; lia.
Qed.

Lemma alnumOnly_app a b : alnumOnly (a +:+ b) = alnumOnly a && alnumOnly b.
Proof.
  induction a as [|c a IH]; [done|]. cbv [String.append]. fold String.append.
  simpl. rewrite IH. by rewrite andb_assoc.
Qed.

Lemma alnumOnly_identifierRun input : alnumOnly (identifierRun input) = true.
Proof.
  induction input as [|c rest IH]; simpl; [done|].
  destruct (isalnum (int_of_char c)) eqn:E; [|done]. simpl. by rewrite E.
Qed.

Lemma isalpha_char c : isalpha c = true → isalnum (int_of_char (char_of_int c)) = true.
Proof.
  intros H. assert (0 ≤ c < 256) as Hc.
  { unfold isalpha in H.
    apply orb_true_iff in H as [[H1%Z.leb_le H2%Z.leb_le]%andb_true_iff
                               |[H1%Z.leb_le H2%Z.leb_le]%andb_true_iff]; lia. }
  unfold char_of_int, int_of_char. rewrite Z.mod_small by done.
  rewrite N_ascii_embedding by lia. rewrite Z2N.id by lia.
  unfold isalnum. by rewrite H.
Qed.

Lemma charCount_not_EOF c : c ≠ EOF → charCount c = 1%nat.
Proof. intros H. unfold charCount. by apply Z.eqb_neq in H as ->. Qed.

Lemma gettok_char_reads input c s t s' :
  gettok_char input c s = Done t s' →
  (pending s' + (if (t =? tok_eof)%Z then 0 else 1) ≤ String.length input + charCount c)%nat ∧
  output s' = output s ∧ IdentifierStr s' = IdentifierStr s ∧ CurTok s' = CurTok s.
Proof.
  unfold gettok_char, pending. destruct (c =? EOF) eqn:E.
  - intros [= <- <-]. simpl. apply Z.eqb_eq in E as ->. repeat split. lia.
  - apply Z.eqb_neq in E. rewrite (charCount_not_EOF c E).
    assert ((c =? tok_eof) = false) as Ht by (by apply Z.eqb_neq).
    destruct input as [|c' rest]; intros [= <- <-]; simpl; rewrite Ht; repeat split.
    + change (charCount EOF) with 0%nat. lia.
    + rewrite charCount_int_of_char. lia.
Qed.

Lemma gettok_rec_reads n s t s' :
  gettok_rec n s = Done t s' →
  (pending s' + (if (t =? tok_eof)%Z then 0 else 1) ≤ pending s)%nat ∧
  output s' = output s ∧
  (alnumOnly (IdentifierStr s) = true → alnumOnly (IdentifierStr s') = true) ∧
  CurTok s' = CurTok s.
Proof.
  revert s. induction n as [|n IH]; intros s; simpl;
    pose proof (skipWhitespace_pending (stdin s) (LastChar s)) as HW;
    fold (pending s) in HW;
    destruct (skipWhitespace (stdin s) (LastChar s)) as [input c]; simpl in HW.
  all: destruct (isalpha c) eqn:Ha.
  1,3: assert (charCount c = 1%nat) as Hc
         by (apply charCount_not_EOF; intros ->; done);
       pose proof (readIdentifier_pending input (String (char_of_int c) EmptyString)) as HI;
       destruct (readIdentifier_spec input (String (char_of_int c) EmptyString))
         as (input' & c' & HR); rewrite HR in *; simpl in HI;
       assert (alnumOnly (String (char_of_int c) EmptyString +:+ identifierRun input) = true)
         as HA by (rewrite alnumOnly_app, alnumOnly_identifierRun; simpl;
                   by rewrite (isalpha_char c Ha));
       destruct (String.eqb _ "def"); [|destruct (String.eqb _ "extern")];
       intros [= <- <-]; unfold pending in *; simpl; (repeat split; try done; try lia).
  all: destruct (isdigit c || (c =? 46)) eqn:Hd.
  1,3: assert (charCount c = 1%nat) as Hc
         by (apply charCount_not_EOF; intros ->; done);
       pose proof (readNumber_pending input c EmptyString false false) as HN;
       destruct (readNumber input c _ _ _) as [[[input' c'] NumStr] de]; simpl in HN;
       destruct de; [done|]; intros [= <- <-]; unfold pending in *; simpl;
       (repeat split; try done; try lia).
  all: destruct (c =? 35) eqn:Hh.
  2,4: intros H; apply gettok_char_reads in H as (H1 & H2 & H3 & H4);
       (unfold pending in *; repeat split; try done; try lia; try congruence).
  all: assert (charCount c = 1%nat) as Hc
         by (apply charCount_not_EOF; intros ->; done).
  all: pose proof (skipComment_pending input) as HC;
       destruct (skipComment input) as [input' c']; simpl in HC.
  all: destruct (negb (c' =? EOF)) eqn:Hc'.
  2,4: intros H; apply gettok_char_reads in H as (H1 & H2 & H3 & H4);
       (unfold pending in *; repeat split; try done; try lia; try congruence).
  - done.
  - intros H. apply IH in H as (H1 & H2 & H3 & H4). unfold pending in H1. simpl in *.
    repeat split; try done. unfold pending in *. lia.
Qed.

Lemma getNextToken_reads s t s' :
  getNextToken s = Done t s' →
  CurTok s' = t ∧
  (tokensLeft s' + (if (CurTok s =? tok_eof)%Z then 0 else 1) ≤ tokensLeft s)%nat ∧
  output s' = output s ∧
  (alnumOnly (IdentifierStr s) = true → alnumOnly (IdentifierStr s') = true).
Proof.
  unfold getNextToken. intros H.
  apply bind_Done in H as (t' & s1 & HG & H). simpl in H. injection H as <- <-.
  apply gettok_rec_reads in HG as (H1 & H2 & H3 & _).
  unfold tokensLeft, pending in *. simpl. repeat split; try done. lia.
Qed.

#[local] Instance spoke_preorder : PreOrder spoke.
Proof.
  split.
  - intros s. exists []. by rewrite app_nil_r.
  - intros s1 s2 s3 (l1 & O1 & C1) (l2 & O2 & C2).
    exists (l1 ++ l2)%list. rewrite O2, O1, app_assoc. split; [done|by apply Forall_app].
Qed.

Lemma spoke_silent s s' : output s' = output s → spoke s s'.
Proof. intros H. exists []. by rewrite app_nil_r. Qed.

Lemma getNextToken_spoke : satisfies spoke (λ _ _, True) getNextToken.
Proof.
  intros s. destruct (getNextToken s) as [t s'| |] eqn:H; try done.
  apply getNextToken_reads in H as (_ & _ & HO & _). by apply spoke_silent.
Qed.

Lemma getTokPrecedence_spoke : satisfies spoke (λ _ _, True) getTokPrecedence.
Proof.
  intros s. unfold getTokPrecedence, bind, get. simpl.
  destruct (negb (isascii (CurTok s))); simpl; [by apply spoke_silent|].
  destruct (subscript _ _ _) as [v m]. simpl.
  destruct (v <=? 0); simpl; by apply spoke_silent.
Qed.

Lemma logged_spoke Str s :
  liveOutput (cout ("Error: " +:+ Str +:+ endl)) = true → spoke s (logged Str s).
Proof. intros H. eexists. split; [done|]. by repeat constructor. Qed.

Lemma ParseDefinition_spoke fuel : satisfies spoke (λ _ _, True) (ParseDefinition fuel).
Proof.
  exact (ParseDefinition_relation spoke _ getNextToken_spoke getTokPrecedence_spoke
           logged_spoke fuel).
Qed.

Lemma ParsePrototype_spoke fuel : satisfies spoke (λ _ _, True) (ParsePrototype fuel).
Proof.
  exact (ParsePrototype_relation spoke _ getNextToken_spoke logged_spoke fuel).
Qed.

Lemma ParseTopLevelExpr_spoke fuel : satisfies spoke (λ _ _, True) (ParseTopLevelExpr fuel).
Proof.
  exact (ParseTopLevelExpr_relation spoke _ getNextToken_spoke getTokPrecedence_spoke
           logged_spoke fuel).
Qed.

(** ** The parser comes to its end *)

Lemma ensures_bind {A B} (m : M A) (k : A → M B) s Q :
  ensures (λ a s1, ensures Q (k a s1)) (m s) → ensures Q ((let* x := m in k x) s).
Proof. unfold bind. by destruct (m s). Qed.

Lemma ensures_mono {A} (P Q : A → State → Prop) o :
  ensures P o → (∀ a s', P a s' → Q a s') → ensures Q o.
Proof. destruct o; simpl; auto. Qed.

Lemma failed_logged Str s0 s : output s = output s0 → failed s0 (logged Str s).
Proof.
  intros H. exists [cout ("Error: " +:+ Str +:+ endl)]. simpl. rewrite H.
  split; [done|]. split; [done|]. repeat constructor. by exists Str.
Qed.

Lemma failed_before s s1 s' : output s1 = output s → failed s1 s' → failed s s'.
Proof. intros HO (l & Hl & HF). exists l. by rewrite <- HO. Qed.

Lemma failed_after s s1 s' : failed s s1 → output s' = output s1 → failed s s'.
Proof. intros (l & Hl & HF) HO. exists l. by rewrite HO. Qed.

Lemma failed_twice s s1 s' : failed s s1 → failed s1 s' → failed s s'.
Proof.
  intros (l1 & H1 & N1 & F1) (l2 & H2 & N2 & F2). exists (l1 ++ l2)%list.
  rewrite H2, H1, app_assoc. split; [done|]. split; [by destruct l1|by apply Forall_app].
Qed.

Lemma failedOnce_failed s s' : failedOnce s s' → failed s s'.
Proof.
  intros (Str & H). exists [cout ("Error: " +:+ Str +:+ endl)].
  split; [done|]. split; [done|]. repeat constructor. by exists Str.
Qed.

Lemma failedOnce_logged Str s0 s : output s = output s0 → failedOnce s0 (logged Str s).
Proof. intros H. exists Str. simpl. by rewrite H. Qed.

Lemma failedOnce_before s s1 s' : output s1 = output s → failedOnce s1 s' → failedOnce s s'.
Proof. intros HO (Str & Hl). exists Str. by rewrite <- HO. Qed.

Lemma failedOnce_after s s1 s' : failedOnce s s1 → output s' = output s1 → failedOnce s s'.
Proof. intros (Str & Hl) HO. exists Str. by rewrite HO. Qed.

Lemma standardOps_grows (m m' : gmap ascii Z) :
  grows 0 m m' → standardOps m → standardOps m'.
Proof.
  intros G S c p Hc Hp. destruct (G c) as [E|[_ E]]; rewrite E in Hc.
  - by eapply S.
  - injection Hc as <-. lia.
Qed.

Lemma getNextToken_ensures s :
  ensures (λ t s', CurTok s' = t ∧
             (tokensLeft s' + (if (CurTok s =? tok_eof)%Z then 0 else 1) ≤ tokensLeft s)%nat ∧
             output s' = output s ∧ (front s → front s') ∧ TheModule s' = TheModule s)
          (getNextToken s).
Proof.
  pose proof (getNextToken_satisfies s) as HM.
  destruct (getNextToken s) as [t s'| |] eqn:H; simpl; [|done|].
  - apply getNextToken_reads in H as (H1 & H2 & H3 & H4). destruct HM as (G & M & _).
    repeat split; try done.
    + apply H4, H.
    + eapply standardOps_grows; [exact G|apply H].
  - unfold getNextToken, bind in H.
    destruct (gettok s) eqn:HG; try done.
    by apply (gettok_rec_enough (String.length (stdin s)) s) in HG.
Qed.

Lemma subscript_lookup `{Countable K} {V} (m : gmap K V) k d :
  m !! k = Some (subscript m k d).1 ∨ (subscript m k d).1 = d.
Proof. unfold subscript. destruct (m !! k); [by left|by right]. Qed.

Lemma getTokPrecedence_ensures s :
  ensures (λ p s', CurTok s' = CurTok s ∧ tokensLeft s' = tokensLeft s ∧
             output s' = output s ∧ (front s → front s') ∧
             (0 ≤ p → CurTok s ≠ tok_eof ∧
                      (front s → isStandardOp (char_of_int (CurTok s)) = true)))
          (getTokPrecedence s).
Proof.
  unfold getTokPrecedence, bind, get. simpl.
  destruct (isascii (CurTok s)) eqn:Ha; simpl.
  - pose proof (subscript_lookup (BinopPrecedence s) (char_of_int (CurTok s)) 0) as HL.
    pose proof (grows_subscript 0 (BinopPrecedence s) (char_of_int (CurTok s))) as HG.
    destruct (subscript _ _ _) as [v m]. simpl in *.
    assert (CurTok s ≠ tok_eof) by (intros E; by rewrite E in Ha).
    assert (front s → front (set_BinopPrecedence m s)) as HF.
    { intros [F1 F2]. split; [done|]. simpl. by eapply standardOps_grows. }
    destruct (v <=? 0) eqn:Hv; simpl; (do 4 (split; [done|])); [done|].
    intros _. split; [done|].
    intros [_ F2]. apply Z.leb_gt in Hv. destruct HL as [HL| ->]; [|lia].
    by eapply F2.
  - do 4 (split; [done|]). done.
Qed.

Lemma forallb_parsable_snoc (Args : list ExprAST) (Arg : ExprAST) :
  forallb parsable (Args ++ [Arg]) = (forallb parsable Args && parsable Arg)%bool.
Proof. rewrite forallb_app. simpl. by rewrite andb_true_r. Qed.

Lemma tokensLeft_logged Str s : tokensLeft (logged Str s) = tokensLeft s.
Proof. done. Qed.

Lemma ensures_get {A B} (f : State → A) (k : A → M B) s Q :
  ensures Q (k (f s) s) → ensures Q ((let* x := get f in k x) s).
Proof. done. Qed.

Ltac ens_next s1 H :=
  apply ensures_bind; eapply ensures_mono; [apply getNextToken_ensures|];
  intros ? s1 H; cbv beta.

Ltac ens_prec p s1 H :=
  apply ensures_bind; eapply ensures_mono; [apply getTokPrecedence_ensures|];
  intros p s1 H; cbv beta.

Lemma expression_parser_ensures fuel :
  (∀ s, (3 * tokensLeft s + 5 ≤ fuel)%nat →
     ensures (λ r s', parsed (λ e, parsable e = true) s r s' ∧ advanced s r s')
             (ParseExpression fuel s)) ∧
  (∀ s, (3 * tokensLeft s + 4 ≤ fuel)%nat →
     ensures (λ r s', parsed (λ e, parsable e = true) s r s' ∧ advanced s r s')
             (ParsePrimary fuel s)) ∧
  (∀ s, CurTok s ≠ tok_eof → (3 * tokensLeft s + 3 ≤ fuel)%nat →
     ensures (λ r s', parsed (λ e, parsable e = true) s r s' ∧
                      (tokensLeft s' < tokensLeft s)%nat)
             (ParseParenExpr fuel s)) ∧
  (∀ s, CurTok s ≠ tok_eof → (3 * tokensLeft s + 3 ≤ fuel)%nat →
     ensures (λ r s', parsed (λ e, parsable e = true) s r s' ∧
                      (tokensLeft s' < tokensLeft s)%nat)
             (ParseIdentifierExpr fuel s)) ∧
  (∀ Args s, (3 * tokensLeft s + 6 ≤ fuel)%nat →
     ensures (parsed (λ l, forallb parsable Args = true → forallb parsable l = true) s)
             (ParseArgs fuel Args s)) ∧
  (∀ ExprPrec LHS s, 0 ≤ ExprPrec → (3 * tokensLeft s + 2 ≤ fuel)%nat →
     ensures (parsed (λ e, parsable LHS = true → parsable e = true) s)
             (ParseBinOpRHS fuel ExprPrec LHS s)).
Proof.
  induction fuel as [|fuel (IHe & IHp & IHparen & IHid & IHargs & IHrhs)].
  { repeat split; intros; lia. }
  repeat split.
  - (* ParseExpression *)
    intros s Hf. simpl. apply ensures_bind.
    eapply ensures_mono; [apply IHp; lia|]. intros [LHS|] s1 [(T1 & A1 & O1) P1]; simpl.
    + eapply ensures_mono; [apply (IHrhs 0 LHS s1); lia|].
      intros r s' (T2 & A2 & O2). destruct P1 as [P1|[? _]]; [|done].
      split; [|left; lia]. split; [lia|]. split; [auto|].
      destruct O1 as [O1 K1]. destruct r as [e|].
      * destruct O2 as [O2 K2]. split; [congruence|auto].
      * by eapply failedOnce_before.
    + split; [|done]. done.
  - (* ParsePrimary *)
    intros s Hf. simpl. apply ensures_get. cbv beta.
    destruct (CurTok s =? tok_identifier) eqn:E1.
    { apply Z.eqb_eq in E1.
      eapply ensures_mono; [apply IHid; [by rewrite E1|lia]|].
      intros r s' [HP HT]. split; [done|by left]. }
    destruct (CurTok s =? tok_number) eqn:E2.
    { apply Z.eqb_eq in E2. unfold ParseNumberExpr. apply ensures_get. cbv beta.
      ens_next s1 H1. simpl. rewrite E2 in H1. simpl in H1.
      destruct H1 as (_ & T1 & O1 & A1 & _).
      split; [|left; lia]. split; [lia|]. split; [done|]. by split. }
    destruct (CurTok s =? 40) eqn:E3.
    { apply Z.eqb_eq in E3.
      eapply ensures_mono; [apply IHparen; [by rewrite E3|lia]|].
      intros r s' [HP HT]. split; [done|by left]. }
    simpl. split; [|by right]. split; [done|]. split; [done|]. by apply failedOnce_logged.
  - (* ParseParenExpr *)
    intros s HC Hf. simpl. ens_next s1 H1.
    apply Z.eqb_neq in HC. rewrite HC in H1. destruct H1 as (_ & T1 & O1 & A1 & _).
    apply ensures_bind. eapply ensures_mono; [apply (IHe s1); lia|].
    intros [V|] s2 [(T2 & A2 & O2) _]; simpl.
    + apply ensures_get. cbv beta. destruct O2 as [O2 K2].
      destruct (negb (CurTok s2 =? 41)); simpl.
      * unfold parsed. rewrite !tokensLeft_logged.
        split; [|lia]. split; [lia|]. split; [auto|].
        apply failedOnce_logged. congruence.
      * ens_next s3 H3. simpl. destruct H3 as (_ & T3 & O3 & A3 & _).
        split; [|lia]. split; [lia|]. split; [auto|]. split; [congruence|auto].
    + split; [|lia]. split; [lia|]. split; [auto|]. by eapply failedOnce_before.
  - (* ParseIdentifierExpr *)
    intros s HC Hf. simpl. apply ensures_get. cbv beta. ens_next s1 H1.
    apply Z.eqb_neq in HC. rewrite HC in H1. destruct H1 as (_ & T1 & O1 & A1 & _).
    apply ensures_get. cbv beta.
    destruct (negb (CurTok s1 =? 40)) eqn:E; simpl.
    { split; [|lia]. split; [lia|]. split; [auto|]. by split. }
    apply negb_false_iff, Z.eqb_eq in E.
    ens_next s2 H2. rewrite E in H2. simpl in H2. destruct H2 as (_ & T2 & O2 & A2 & _).
    apply ensures_get. cbv beta. apply ensures_bind.
    destruct (negb (CurTok s2 =? 41)); simpl.
    + eapply ensures_mono; [apply (IHargs [] s2); lia|].
      intros [Args|] s3 (T3 & A3 & O3); simpl.
      * ens_next s4 H4. simpl. destruct H4 as (_ & T4 & O4 & A4 & _). destruct O3 as [O3 K3].
        split; [|lia]. split; [lia|]. split; [auto|]. split; [congruence|].
        intros HA. simpl. rewrite (proj1 HA). simpl. auto.
      * split; [|lia]. split; [lia|]. split; [auto|].
        eapply failedOnce_before; [|done]. congruence.
    + ens_next s4 H4. simpl. destruct H4 as (_ & T4 & O4 & A4 & _).
      split; [|lia]. split; [lia|]. split; [auto|]. split; [congruence|].
      intros HA. simpl. by rewrite (proj1 HA).
  - (* ParseArgs *)
    intros Args s Hf. simpl. apply ensures_bind.
    eapply ensures_mono; [apply (IHe s); lia|].
    intros [Arg|] s1 [(T1 & A1 & O1) _]; simpl; [|done].
    destruct O1 as [O1 K1]. apply ensures_get. cbv beta.
    destruct (CurTok s1 =? 41) eqn:E1; simpl.
    { split; [done|]. split; [done|]. split; [done|].
      intros HA HArgs. rewrite forallb_parsable_snoc, HArgs. simpl. auto. }
    destruct (negb (CurTok s1 =? 44)) eqn:E2; simpl.
    { split; [done|]. split; [done|]. by apply failedOnce_logged. }
    apply negb_false_iff, Z.eqb_eq in E2.
    ens_next s2 H2. rewrite E2 in H2. simpl in H2. destruct H2 as (_ & T2 & O2 & A2 & _).
    eapply ensures_mono; [apply (IHargs (Args ++ [Arg])%list s2); lia|].
    intros r s' (T3 & A3 & O3). split; [lia|]. split; [auto|].
    destruct r as [l|].
    + destruct O3 as [O3 K3]. split; [congruence|].
      intros HA HArgs. apply K3; [auto|].
      rewrite forallb_parsable_snoc, HArgs. simpl. auto.
    + eapply failedOnce_before; [|done]. congruence.
  - (* ParseBinOpRHS *)
    intros ExprPrec LHS s HP Hf. simpl. ens_prec TokPrec s1 H1.
    destruct H1 as (C1 & T1 & O1 & F1 & P1).
    destruct (TokPrec <? ExprPrec) eqn:E; simpl.
    { split; [lia|]. split; [done|]. split; [done|auto]. }
    apply Z.ltb_ge in E. destruct P1 as [HC HOp]; [lia|].
    rewrite <- C1 in HC. apply ensures_get. cbv beta. ens_next s2 H2.
    apply Z.eqb_neq in HC. rewrite HC in H2. destruct H2 as (_ & T2 & O2 & A2 & _).
    apply ensures_bind. eapply ensures_mono; [apply (IHp s2); lia|].
    intros [RHS|] s3 [(T3 & A3 & O3) _]; simpl.
    2: { split; [lia|]. split; [auto|].
         eapply failedOnce_before; [|done]. congruence. }
    destruct O3 as [O3 K3]. ens_prec NextPrec s4 H4.
    destruct H4 as (C4 & T4 & O4 & F4 & P4).
    apply ensures_bind. destruct (TokPrec <? NextPrec); simpl.
    + eapply ensures_mono; [apply (IHrhs (TokPrec + 1) RHS s4); lia|].
      intros [RHS'|] s5 (T5 & A5 & O5); simpl.
      2: { split; [lia|]. split; [auto 10|].
           eapply failedOnce_before; [|done]. congruence. }
      destruct O5 as [O5 K5].
      eapply ensures_mono; [apply (IHrhs ExprPrec _ s5); lia|].
      intros r s6 (T6 & A6 & O6). split; [lia|]. split; [auto 10|].
      destruct r as [e|].
      * destruct O6 as [O6 K6]. split; [congruence|].
        intros HA HL. apply K6; [auto 10|]. simpl.
        rewrite C1, (HOp HA), HL, K5; auto 10.
      * eapply failedOnce_before; [|done]. congruence.
    + eapply ensures_mono; [apply (IHrhs ExprPrec _ s4); lia|].
      intros r s6 (T6 & A6 & O6). split; [lia|]. split; [auto 10|].
      destruct r as [e|].
      * destruct O6 as [O6 K6]. split; [congruence|].
        intros HA HL. apply K6; [auto 10|]. simpl.
        rewrite C1, (HOp HA), HL, K3; auto 10.
      * eapply failedOnce_before; [|done]. congruence.
Qed.

Lemma ensures_ret {A} (a : A) s (Q : A → State → Prop) : Q a s → ensures Q (ret a s).
Proof. done. Qed.

Lemma ParseArgNames_ensures fuel : ∀ ArgNames s,
  CurTok s ≠ tok_eof → (tokensLeft s ≤ fuel)%nat →
  ensures (λ _ s', (tokensLeft s' < tokensLeft s)%nat ∧ output s' = output s ∧
                   (front s → front s'))
          (ParseArgNames fuel ArgNames s).
Proof.
  induction fuel as [|fuel IH]; intros ArgNames s HC Hf.
  { unfold tokensLeft in Hf. apply Z.eqb_neq in HC. rewrite HC in Hf. lia. }
  simpl. ens_next s1 H1. apply Z.eqb_neq in HC. rewrite HC in H1.
  destruct H1 as (C1 & T1 & O1 & A1 & _). subst a.
  destruct (CurTok s1 =? tok_identifier) eqn:E; simpl.
  - apply Z.eqb_eq in E. apply ensures_get. cbv beta.
    eapply ensures_mono; [apply IH; [by rewrite E|lia]|].
    intros _ s' (T2 & O2 & A2). split; [lia|]. split; [congruence|auto].
  - split; [lia|]. by split.
Qed.

Lemma alnumOnly_mangled Id suffix : alnumOnly suffix = false → alnumOnly (Id +:+ suffix) = false.
Proof. intros H. by rewrite alnumOnly_app, H, andb_false_r. Qed.

Lemma mangled_outOfReach suffix Name :
  alnumOnly suffix = false → mangled suffix Name → alnumOnly Name = false.
Proof. intros HS (Id & _ & ->). by apply alnumOnly_mangled. Qed.

Lemma ParsePrototype_ensures fuel s :
  CurTok s ≠ tok_eof → (tokensLeft s ≤ fuel)%nat →
  ensures (λ r s',
     parsed (λ P, (CurTok s = tok_def → mangled "_def" (getName P)) ∧
                  (CurTok s = tok_extern → mangled "_ext" (getName P)))
            s r s' ∧
     (tokensLeft s' < tokensLeft s)%nat)
    (ParsePrototype fuel s).
Proof.
  intros HC Hf. unfold ParsePrototype. apply ensures_get. cbv beta.
  ens_next s1 H1. pose proof HC as HC'. apply Z.eqb_neq in HC'. rewrite HC' in H1.
  destruct H1 as (_ & T1 & O1 & A1 & _).
  apply ensures_get. cbv beta.
  destruct (negb (CurTok s1 =? tok_identifier)) eqn:E1.
  { simpl. unfold parsed. rewrite !tokensLeft_logged.
    split; [|lia]. split; [lia|]. split; [done|]. by apply failedOnce_logged. }
  apply negb_false_iff, Z.eqb_eq in E1.
  apply ensures_get. cbv beta zeta. ens_next s2 H2. rewrite E1 in H2. simpl in H2.
  destruct H2 as (_ & T2 & O2 & A2 & _).
  apply ensures_get. cbv beta.
  destruct (negb (CurTok s2 =? 40)) eqn:E2.
  { simpl. unfold parsed. rewrite !tokensLeft_logged.
    split; [|lia]. split; [lia|]. split; [auto|]. apply failedOnce_logged. congruence. }
  apply negb_false_iff, Z.eqb_eq in E2.
  apply ensures_bind. eapply ensures_mono; [apply (ParseArgNames_ensures fuel [] s2)|].
  { by rewrite E2. } { lia. }
  intros ArgNames s3 (T3 & O3 & A3). cbv beta.
  apply ensures_get. cbv beta.
  destruct (negb (CurTok s3 =? 41)) eqn:E3.
  { simpl. unfold parsed. rewrite !tokensLeft_logged.
    split; [|lia]. split; [lia|]. split; [auto|]. apply failedOnce_logged. congruence. }
  ens_next s4 H4. destruct H4 as (_ & T4 & O4 & A4 & _). simpl.
  split; [|lia]. split; [lia|]. split; [auto|]. split; [congruence|].
  intros HF. destruct (A1 HF) as [HI _].
  split; intros ->; simpl; by exists (IdentifierStr s1).
Qed.

Lemma ParseDefinition_ensures fuel s :
  CurTok s ≠ tok_eof → (3 * tokensLeft s + 5 ≤ fuel)%nat →
  ensures (λ r s',
     parsed (λ F, parsable (Body F) = true ∧
                  (CurTok s = tok_def → mangled "_def" (getName (Proto F))))
            s r s' ∧
     (tokensLeft s' < tokensLeft s)%nat)
    (ParseDefinition fuel s).
Proof.
  intros HC Hf. unfold ParseDefinition. apply ensures_bind.
  eapply ensures_mono; [apply ParsePrototype_ensures; [done|lia]|].
  intros [P|] s1 [(T1 & A1 & O1) L1]; simpl; [|done].
  destruct O1 as [O1 K1]. apply ensures_bind.
  eapply ensures_mono; [apply (proj1 (expression_parser_ensures fuel) s1); lia|].
  intros [E|] s2 [(T2 & A2 & O2) _]; simpl.
  - destruct O2 as [O2 K2]. split; [|lia]. split; [lia|]. split; [auto|].
    split; [congruence|]. intros HA. split; [auto|]. by apply K1.
  - split; [|lia]. split; [lia|]. split; [auto|]. by eapply failedOnce_before.
Qed.

Lemma ParseTopLevelExpr_ensures fuel s :
  (3 * tokensLeft s + 5 ≤ fuel)%nat →
  ensures (λ r s',
     parsed (λ F, parsable (Body F) = true ∧ getName (Proto F) = EmptyString) s r s' ∧
     advanced s r s')
    (ParseTopLevelExpr fuel s).
Proof.
  intros Hf. unfold ParseTopLevelExpr. apply ensures_bind.
  eapply ensures_mono; [apply (proj1 (expression_parser_ensures fuel) s); lia|].
  intros [E|] s1 [(T1 & A1 & O1) P1]; simpl.
  - destruct O1 as [O1 K1]. destruct P1 as [P1|[? _]]; [|done].
    split; [|by left]. split; [lia|]. split; [auto|]. split; [done|]. auto.
  - split; [|destruct P1 as [P1|[_ P1]]; [by left|by right]].
    split; [done|]. by split.
Qed.

(** ** Code generation: what is written, and calls *)

Lemma Insert_output Ins s : output (Insert Ins s).2 = output s.
Proof. unfold Insert. by destruct (Builder s). Qed.

Lemma sealedModule_updateFunction F g TheModule :
  (∀ f, callFree f → callFree (g f)) → (∀ f, FName (g f) = FName f) →
  sealedModule TheModule → sealedModule (updateFunction F g TheModule).
Proof.
  intros Hc Hn HS. apply Forall_updateFunction; [done|].
  intros f Hin _. unfold sealedModule in HS. rewrite Forall_forall in HS.
  destruct (HS f Hin) as [H1 H2]. split; [auto|]. unfold outOfReach. by rewrite Hn.
Qed.

Lemma Insert_sealed Ins s :
  isCall Ins = false → sealedModule (TheModule s) → sealedModule (TheModule (Insert Ins s).2).
Proof.
  intros HI HS. unfold Insert. destruct (Builder s) as [F BB]. simpl.
  apply sealedModule_updateFunction; [|done|done].
  intros f Hf. unfold callFree in *. simpl. apply Forall_alter; [done|].
  intros b _ Hb. simpl. apply Forall_app. split; [done|]. by constructor.
Qed.

Lemma CreateBinOp_quiet Opc L R Name s :
  output (CreateBinOp Opc L R Name s).2 = output s ∧
  (sealedModule (TheModule s) → sealedModule (TheModule (CreateBinOp Opc L R Name s).2)).
Proof.
  unfold CreateBinOp.
  destruct L, R; simpl; (split; [by rewrite ?Insert_output|by try apply Insert_sealed]).
Qed.

Lemma CreateFCmpULT_quiet L R Name s :
  output (CreateFCmpULT L R Name s).2 = output s ∧
  (sealedModule (TheModule s) → sealedModule (TheModule (CreateFCmpULT L R Name s).2)).
Proof.
  unfold CreateFCmpULT.
  destruct L, R; simpl; (split; [by rewrite ?Insert_output|by try apply Insert_sealed]).
Qed.

Lemma CreateUIToFP_quiet V Name s :
  output (CreateUIToFP V Name s).2 = output s ∧
  (sealedModule (TheModule s) → sealedModule (TheModule (CreateUIToFP V Name s).2)).
Proof.
  unfold CreateUIToFP.
  destruct V; simpl; (split; [by rewrite ?Insert_output|by try apply Insert_sealed]).
Qed.

Lemma codegenArgs_reports codegen Args :
  Forall (λ e, ∀ s, reports s (codegen e s).1 (codegen e s).2) Args →
  ∀ ArgsV s, reports s (codegenArgs codegen Args ArgsV s).1 (codegenArgs codegen Args ArgsV s).2.
Proof.
  induction 1 as [|Arg Args HArg _ IH]; intros ArgsV s; simpl; [done|].
  specialize (HArg s). destruct (codegen Arg s) as [[V|] s1]; simpl in *; [|done].
  specialize (IH (ArgsV ++ [V])%list s1).
  destruct (codegenArgs codegen Args _ s1) as [[l|] s2]; simpl in *.
  - congruence.
  - by eapply failed_before.
Qed.

Lemma ExprAST_codegen_reports e :
  ∀ s, reports s (ExprAST_codegen e s).1 (ExprAST_codegen e s).2.
Proof.
  induction e as [Val|Name|Op LHS RHS IHL IHR|Callee Args IHArgs] using ExprAST_ind';
    intros s; simpl.
  - done.
  - destruct (subscript (NamedValues s) Name None) as [[V|] m]; simpl; [done|].
    by apply failed_logged.
  - specialize (IHL s). destruct (ExprAST_codegen LHS s) as [L s1]. simpl in *.
    specialize (IHR s1). destruct (ExprAST_codegen RHS s1) as [R s2]. simpl in *.
    destruct L as [L|], R as [R|]; simpl in *.
    2: by eapply failed_before.
    2: by eapply failed_after.
    2: by eapply failed_twice.
    assert (output s2 = output s) as H12 by congruence.
    repeat match goal with
    | |- context [if Ascii.eqb Op ?c then _ else _] => destruct (Ascii.eqb Op c)
    end.
    1-4: match goal with |- context [CreateBinOp ?o ?l ?r ?n ?s0] =>
           pose proof (CreateBinOp_quiet o l r n s0) as [HO _];
           destruct (CreateBinOp o l r n s0); simpl in *; congruence end.
    + pose proof (CreateFCmpULT_quiet L R "cmptmp" s2) as [H1 _].
      destruct (CreateFCmpULT _ _ _ _) as [L' s3]. simpl in *.
      pose proof (CreateUIToFP_quiet L' "booltmp" s3) as [H2 _].
      destruct (CreateUIToFP _ _ _). simpl in *. congruence.
    + simpl. by apply failed_logged.
  - destruct (getFunction Callee (TheModule s)) as [CalleeF|]; [|by apply failed_logged].
    destruct (negb _); [by apply failed_logged|].
    pose proof (codegenArgs_reports ExprAST_codegen Args IHArgs [] s) as HA.
    destruct (codegenArgs _ _ _ _) as [[ArgsV|] s1]; simpl in *; [|done].
    unfold CreateCall. pose proof (Insert_output (CallInst (Fid CalleeF) ArgsV "calltmp") s1).
    destruct (Insert _ _). simpl in *. congruence.
Qed.

Lemma getFunction_sealed Callee TheModule :
  alnumOnly Callee = true → sealedModule TheModule → getFunction Callee TheModule = None.
Proof.
  intros HA HS. destruct (getFunction Callee TheModule) as [f|] eqn:HG; [|done].
  apply getFunction_Some in HG as (Hin & HN & HE).
  unfold sealedModule in HS. rewrite Forall_forall in HS.
  destruct (HS f Hin) as [_ [H|H]]; congruence.
Qed.

Lemma sealedModule_logged Str s :
  sealedModule (TheModule s) → sealedModule (TheModule (logged Str s)).
Proof. done. Qed.

Lemma ExprAST_codegen_sealed e :
  ∀ s, parsable e = true → sealedModule (TheModule s) →
       sealedModule (TheModule (ExprAST_codegen e s).2).
Proof.
  induction e as [Val|Name|Op LHS RHS IHL IHR|Callee Args IHArgs] using ExprAST_ind';
    intros s HP HS; simpl in *.
  - done.
  - by destruct (subscript (NamedValues s) Name None) as [[V|] m].
  - apply andb_true_iff in HP as [[HOp HPL]%andb_true_iff HPR].
    specialize (IHL s HPL HS). destruct (ExprAST_codegen LHS s) as [L s1]. simpl in *.
    specialize (IHR s1 HPR IHL). destruct (ExprAST_codegen RHS s1) as [R s2]. simpl in *.
    destruct L as [L|], R as [R|]; simpl in *; try done.
    repeat match goal with
    | |- context [if Ascii.eqb Op ?c then _ else _] => destruct (Ascii.eqb Op c)
    end.
    1-4: match goal with |- context [CreateBinOp ?o ?l ?r ?n ?s0] =>
           pose proof (CreateBinOp_quiet o l r n s0) as [_ HO];
           destruct (CreateBinOp o l r n s0); simpl in *; auto end.
    + pose proof (CreateFCmpULT_quiet L R "cmptmp" s2) as [_ H1].
      destruct (CreateFCmpULT _ _ _ _) as [L' s3]. simpl in *.
      pose proof (CreateUIToFP_quiet L' "booltmp" s3) as [_ H2].
      destruct (CreateUIToFP _ _ _). simpl in *. auto.
    + done.
  - apply andb_true_iff in HP as [HC _]. by rewrite getFunction_sealed.
Qed.

Lemma atHandle_elem f TheModule :
  f ∈ Functions TheModule → is_Some (atHandle (Fid f) TheModule).
Proof.
  unfold atHandle. induction (Functions TheModule) as [|g Fs IH]; intros Hin.
  - by apply elem_of_nil in Hin.
  - simpl. destruct (Nat.eqb (Fid g) (Fid f)) eqn:E; [by eexists|].
    apply elem_of_cons in Hin as [->|Hin]; [by rewrite Nat.eqb_refl in E|by apply IH].
Qed.

Lemma atHandle_updateFunction_is_Some F F' g TheModule :
  (∀ f, Fid (g f) = Fid f) →
  is_Some (atHandle F TheModule) → is_Some (atHandle F (updateFunction F' g TheModule)).
Proof.
  intros Hid. unfold atHandle, updateFunction. simpl.
  induction (Functions TheModule) as [|f Fs IH]; simpl; [done|].
  destruct (Nat.eqb (Fid f) F') eqn:E'; rewrite ?Hid; destruct (Nat.eqb (Fid f) F) eqn:E;
    try done; by eexists.
Qed.

Lemma sealedModule_eraseFromParent F TheModule :
  sealedModule TheModule → sealedModule (eraseFromParent F TheModule).
Proof.
  intros HS. apply Forall_forall. intros f [Hin _]%elem_of_eraseFromParent.
  unfold sealedModule in HS. rewrite Forall_forall in HS. by apply HS.
Qed.

Lemma sealedModule_BasicBlock_Create Name F TheModule :
  sealedModule TheModule → sealedModule (BasicBlock_Create Name F TheModule).2.
Proof.
  intros HS. unfold BasicBlock_Create. simpl.
  apply sealedModule_updateFunction; [|done|done].
  intros f Hf. unfold callFree in *. simpl. apply Forall_app. split; [done|].
  repeat constructor.
Qed.

Lemma FunctionAST_codegen_body_sealed Body F s :
  parsable Body = true → sealedModule (TheModule s) →
  sealedModule (TheModule (FunctionAST_codegen_body Body F s).2).
Proof.
  intros HP HS. unfold FunctionAST_codegen_body.
  destruct (atHandle F (TheModule s)) as [f|]; [|done].
  destruct (negb _); [done|].
  pose proof (sealedModule_BasicBlock_Create "entry" F (TheModule s) HS) as HB.
  destruct (BasicBlock_Create _ _ _) as [BB Mod]. simpl in HB.
  match goal with |- context [ExprAST_codegen ?e ?s0] =>
    pose proof (ExprAST_codegen_sealed e s0 HP HB) as HE;
    destruct (ExprAST_codegen e s0) as [[RetVal|] s1] end; simpl in *.
  - unfold CreateRet. pose proof (Insert_sealed (ReturnInst RetVal) s1 eq_refl HE).
    by destruct (Insert _ _).
  - by apply sealedModule_eraseFromParent.
Qed.

Lemma FunctionAST_codegen_body_reports Body F s :
  is_Some (atHandle F (TheModule s)) →
  let r := (FunctionAST_codegen_body Body F s).1 in
  let s' := (FunctionAST_codegen_body Body F s).2 in
  reports s r s' ∧ ∀ F', r = Some F' → is_Some (atHandle F' (TheModule s')).
Proof.
  intros [f Hf]. unfold FunctionAST_codegen_body. rewrite Hf.
  destruct (negb _); simpl; [split; [by apply failed_logged|done]|].
  assert (is_Some (atHandle F (BasicBlock_Create "entry" F (TheModule s)).2)) as HB.
  { unfold BasicBlock_Create. simpl. apply atHandle_updateFunction_is_Some; [done|].
    by eexists. }
  destruct (BasicBlock_Create _ _ _) as [BB Mod]. simpl in HB.
  match goal with |- context [ExprAST_codegen ?e ?s0] =>
    pose proof (ExprAST_codegen_reports e s0) as HR;
    pose proof (ExprAST_codegen_step e s0) as (_ & _ & _ & _ & _ & _ & _ & _ & Is & _ & HM);
    destruct (ExprAST_codegen e s0) as [[RetVal|] s1] end; simpl in *.
  - unfold CreateRet. pose proof (Insert_output (ReturnInst RetVal) s1) as HO.
    assert (is_Some (atHandle F (TheModule (Insert (ReturnInst RetVal) s1).2))) as HI.
    { unfold Insert. destruct (Builder s1). simpl.
      apply atHandle_updateFunction_is_Some; [done|]. rewrite HM. unfold appendInsts.
      do 2 (apply atHandle_updateFunction_is_Some; [done|]). by eexists. }
    destruct (Insert _ _) as [V s2]. simpl in *. split; [congruence|].
    by intros F' [= <-].
  - split; [|done]. by eapply failed_after.
Qed.

Lemma alnumOnly_unique n taken dot Base LU :
  alnumOnly Base = false → alnumOnly (makeUniqueName n taken dot Base LU).1 = false.
Proof.
  intros HB. revert LU. induction n as [|n IH]; intros LU; simpl;
    destruct (bool_decide _); simpl; auto; by rewrite alnumOnly_app, HB.
Qed.

Lemma createValueName_outOfReach taken dot Name LU :
  Name = EmptyString ∨ alnumOnly Name = false →
  (createValueName taken dot Name LU).1 = EmptyString ∨
  alnumOnly (createValueName taken dot Name LU).1 = false.
Proof.
  intros HN. unfold createValueName.
  destruct (String.eqb Name EmptyString) eqn:E; [by left|].
  apply String.eqb_neq in E. destruct HN as [HN|HN]; [done|].
  destruct (bool_decide _); simpl; right; [by apply alnumOnly_unique|done].
Qed.

Lemma PrototypeAST_codegen_sealed P s :
  getName P = EmptyString ∨ alnumOnly (getName P) = false →
  sealedModule (TheModule s) → sealedModule (TheModule (PrototypeAST_codegen P s).2).
Proof.
  intros HN HS. rewrite PrototypeAST_codegen_eq. simpl.
  apply Forall_app. split; [done|]. constructor; [|done]. split.
  - by constructor.
  - by apply createValueName_outOfReach.
Qed.

Lemma FunctionAST_codegen_sealed FnAST s :
  parsable (Body FnAST) = true →
  getName (Proto FnAST) = EmptyString ∨ alnumOnly (getName (Proto FnAST)) = false →
  sealedModule (TheModule s) → sealedModule (TheModule (FunctionAST_codegen FnAST s).2).
Proof.
  intros HP HN HS. unfold FunctionAST_codegen.
  destruct (getFunction _ _) as [f|].
  - by apply FunctionAST_codegen_body_sealed.
  - pose proof (PrototypeAST_codegen_sealed (Proto FnAST) s HN HS) as H.
    destruct (PrototypeAST_codegen _ _) as [F s0]. by apply FunctionAST_codegen_body_sealed.
Qed.

Lemma FunctionAST_codegen_reports FnAST s :
  let r := (FunctionAST_codegen FnAST s).1 in
  let s' := (FunctionAST_codegen FnAST s).2 in
  reports s r s' ∧ ∀ F, r = Some F → is_Some (atHandle F (TheModule s')).
Proof.
  unfold FunctionAST_codegen.
  destruct (getFunction _ _) as [f|] eqn:HG.
  - apply FunctionAST_codegen_body_reports.
    apply getFunction_Some in HG as (Hin & _ & _). by apply atHandle_elem.
  - rewrite PrototypeAST_codegen_eq.
    match goal with |- context [FunctionAST_codegen_body ?b ?F ?s0] =>
      assert (is_Some (atHandle F (TheModule s0))) as HS;
      [|pose proof (FunctionAST_codegen_body_reports b F s0 HS) as [H1 H2];
        destruct (FunctionAST_codegen_body b F s0) as [r s'] eqn:HB] end.
    { simpl. rewrite atHandle_last; [by eexists| |done]. intros f. apply newHandle_fresh. }
    simpl in *. split; [|done]. by destruct r.
Qed.

Lemma FunctionAST_codegen_sameFront FnAST s : sameFront s (FunctionAST_codegen FnAST s).2.
Proof.
  unfold FunctionAST_codegen. destruct (getFunction _ _) as [f|].
  - apply FunctionAST_codegen_body_sameFront.
  - rewrite PrototypeAST_codegen_eq.
    match goal with |- sameFront _ (FunctionAST_codegen_body ?b ?F ?s0).2 =>
      pose proof (FunctionAST_codegen_body_sameFront b F s0) as H end.
    unfold sameFront in *. by simpl in *.
Qed.


Lemma ExprAST_codegen_live e :
  ∀ s, parsable e = true → sealedModule (TheModule s) → spoke s (ExprAST_codegen e s).2.
Proof.
  induction e as [Val|Name|Op LHS RHS IHL IHR|Callee Args IHArgs] using ExprAST_ind';
    intros s HP HS; simpl in *.
  - reflexivity.
  - destruct (subscript (NamedValues s) Name None) as [[V|] m]; simpl.
    + by apply spoke_silent.
    + by apply (logged_spoke "Unknown variable name" (set_NamedValues m s)).
  - apply andb_true_iff in HP as [[HOp HPL]%andb_true_iff HPR].
    specialize (IHL s HPL HS). pose proof (ExprAST_codegen_sealed LHS s HPL HS) as HS1.
    destruct (ExprAST_codegen LHS s) as [L s1]. simpl in *.
    specialize (IHR s1 HPR HS1).
    destruct (ExprAST_codegen RHS s1) as [R s2]. simpl in *.
    assert (spoke s s2) as H12 by (by etrans).
    destruct L as [L|], R as [R|]; simpl in *; try done.
    unfold isStandardOp in HOp.
    repeat match goal with
    | |- context [if Ascii.eqb Op ?c then _ else _] => destruct (Ascii.eqb Op c)
    end; try done.
    1-4: match goal with |- context [CreateBinOp ?o ?l ?r ?n ?s0] =>
           pose proof (CreateBinOp_quiet o l r n s0) as [HO _];
           destruct (CreateBinOp o l r n s0); simpl in *;
           etrans; [exact H12|by apply spoke_silent] end.
    pose proof (CreateFCmpULT_quiet L R "cmptmp" s2) as [H1 _].
    destruct (CreateFCmpULT _ _ _ _) as [L' s3]. simpl in *.
    pose proof (CreateUIToFP_quiet L' "booltmp" s3) as [H2 _].
    destruct (CreateUIToFP _ _ _). simpl in *.
    etrans; [exact H12|]. apply spoke_silent. congruence.
  - apply andb_true_iff in HP as [HC _]. rewrite getFunction_sealed by done.
    by apply (logged_spoke "Unknown function referenced").
Qed.

Lemma FunctionAST_codegen_body_live Body F s :
  parsable Body = true → sealedModule (TheModule s) →
  spoke s (FunctionAST_codegen_body Body F s).2.
Proof.
  intros HP HS. unfold FunctionAST_codegen_body.
  destruct (atHandle F (TheModule s)) as [f|]; [|reflexivity].
  destruct (negb _); [by apply (logged_spoke "Function cannot be redefined.")|].
  pose proof (sealedModule_BasicBlock_Create "entry" F (TheModule s) HS) as HB.
  destruct (BasicBlock_Create _ _ _) as [BB Mod]. simpl in HB.
  match goal with |- context [ExprAST_codegen ?e ?s0] =>
    pose proof (ExprAST_codegen_live e s0 HP HB) as HE;
    destruct (ExprAST_codegen e s0) as [[RetVal|] s1] end; simpl in *.
  - unfold CreateRet. pose proof (Insert_output (ReturnInst RetVal) s1) as HO.
    destruct (Insert _ _) as [V s2]. simpl in *.
    destruct HE as (lines & HE & HL). exists lines. by rewrite HO.
  - done.
Qed.

Lemma FunctionAST_codegen_live FnAST s :
  parsable (Body FnAST) = true →
  getName (Proto FnAST) = EmptyString ∨ alnumOnly (getName (Proto FnAST)) = false →
  sealedModule (TheModule s) → spoke s (FunctionAST_codegen FnAST s).2.
Proof.
  intros HP HN HS. unfold FunctionAST_codegen.
  destruct (getFunction _ _) as [f|].
  - by apply FunctionAST_codegen_body_live.
  - pose proof (PrototypeAST_codegen_sealed (Proto FnAST) s HN HS) as H.
    rewrite PrototypeAST_codegen_eq in *.
    match goal with |- spoke _ (FunctionAST_codegen_body ?b ?F ?s0).2 =>
      pose proof (FunctionAST_codegen_body_live b F s0 HP H) as HL end.
    done.
Qed.

(** ** Definitions and declarations *)

Lemma append_nil_r (a : string) : a +:+ EmptyString = a.
Proof. induction a as [|x a IH]; [done|]. cbv [String.append]. fold String.append. by f_equal. Qed.

Lemma append_assoc (a b c : string) : (a +:+ b) +:+ c = a +:+ (b +:+ c).
Proof. induction a as [|x a IH]; [done|]. cbv [String.append]. fold String.append. by f_equal. Qed.

Lemma stem_unique (a b : string) c x y :
  isalnum (int_of_char c) = false → alnumOnly a = true → alnumOnly b = true →
  a +:+ String c x = b +:+ String c y → x = y.
Proof.
  intros Hc. revert b. induction a as [|p a IH]; intros [|q b] Ha Hb;
    cbv [String.append]; fold String.append; intros E; simpl in *.
  - by injection E.
  - injection E as E1 E2. subst q. by rewrite Hc in Hb.
  - injection E as E1 E2. subst p. by rewrite Hc in Ha.
  - injection E as E1 E2.
    apply andb_true_iff in Ha as [_ Ha]. apply andb_true_iff in Hb as [_ Hb]. eauto.
Qed.

Lemma defined_not_declared Name :
  mangled "_def" Name → ¬ ∃ rest, mangled ("_ext" +:+ rest) Name.
Proof.
  intros (Id & HI & ->) (rest & Id' & HI' & E).
  apply (stem_unique Id Id' "_" "def" ("ext" +:+ rest) eq_refl HI HI') in E.
  cbv [String.append] in E. done.
Qed.

Lemma getFunction_None Name TheModule :
  Name ≠ EmptyString → getFunction Name TheModule = None →
  Name ∉ map FName (Functions TheModule).
Proof.
  intros HN HG Hin. unfold getFunction in HG.
  apply String.eqb_neq in HN. rewrite HN in HG.
  apply list_elem_of_fmap in Hin as (f & -> & Hin).
  apply list_elem_of_In in Hin.
  eapply List.find_none in HG; [|exact Hin]. simpl in HG.
  by rewrite String.eqb_refl in HG.
Qed.

Lemma mangled_nonempty suffix Name : suffix ≠ EmptyString → mangled suffix Name → Name ≠ EmptyString.
Proof. intros HS (Id & _ & ->). by apply append_nonempty_r. Qed.

Lemma createValueName_free taken dot Name LU :
  Name ∉ taken → (createValueName taken dot Name LU).1 = Name.
Proof.
  intros HN. unfold createValueName. destruct (String.eqb Name EmptyString) eqn:E.
  - by apply String.eqb_eq in E.
  - by rewrite bool_decide_false.
Qed.

Lemma makeUniqueName_form n taken dot Base LU :
  ∃ k, (makeUniqueName n taken dot Base LU).1 = Base +:+ dot +:+ utostr k.
Proof.
  revert LU. induction n as [|n IH]; intros LU; simpl;
    destruct (bool_decide _); simpl; eauto.
Qed.

Lemma createValueName_declared taken Name LU :
  mangled "_ext" Name → ∃ rest, mangled ("_ext" +:+ rest) (createValueName taken "." Name LU).1.
Proof.
  intros (Id & HI & ->). unfold createValueName.
  destruct (String.eqb _ EmptyString) eqn:E.
  { apply String.eqb_eq in E. by apply append_nonempty_r in E. }
  destruct (bool_decide _).
  - destruct (makeUniqueName_form (length taken) taken "." (Id +:+ "_ext") LU) as [k ->].
    exists ("." +:+ utostr k), Id. split; [done|]. by rewrite append_assoc.
  - exists EmptyString, Id. split; [done|]. simpl. by rewrite append_nil_r.
Qed.

Lemma PrototypeAST_codegen_classified P s :
  mangled "_ext" (getName P) → classified (TheModule s) →
  classified (TheModule (PrototypeAST_codegen P s).2).
Proof.
  intros HN [HOK HC]. split; [by apply PrototypeAST_codegen_ok|].
  rewrite PrototypeAST_codegen_eq. simpl. apply Forall_app. split; [done|].
  constructor; [|done]. right. split; [done|]. simpl. by apply createValueName_declared.
Qed.

Lemma FunctionAST_codegen_classified FnAST s :
  mangled "_def" (getName (Proto FnAST)) → classified (TheModule s) →
  classified (TheModule (FunctionAST_codegen FnAST s).2).
Proof.
  intros HN [HOK HC].
  destruct (FunctionAST_codegen FnAST s) as [r s'] eqn:Hcg.
  split; [by eapply FunctionAST_codegen_ok|]. simpl.
  destruct (getFunction (getName (Proto FnAST)) (TheModule s)) as [f|] eqn:HG.
  - pose proof HG as (Hin & HF & _)%getFunction_Some.
    rewrite Forall_forall in HC. destruct (HC f Hin) as [[HB _]|[_ HD]].
    + rewrite (FunctionAST_codegen_redefinition FnAST s f (proj1 HOK) HG HB) in Hcg.
      injection Hcg as <- <-. simpl. by apply Forall_forall.
    + rewrite HF in HD. by apply defined_not_declared in HN.
  - assert (getName (Proto FnAST) ≠ EmptyString) as HNE by (by apply (mangled_nonempty "_def")).
    pose proof (getFunction_None _ _ HNE HG) as Hfree.
    destruct (FunctionAST_codegen_fresh FnAST s HG) as (r0 & s1 & Is & _ & _ & _ & Hr).
    destruct r0 as [RetVal|]; rewrite Hr in Hcg; injection Hcg as <- <-; simpl; [|done].
    apply Forall_app. split; [done|]. constructor; [|done]. left. split; [done|].
    simpl. by rewrite createValueName_free.
Qed.

(** ** The driver comes to its end *)

Lemma tokensLeft_sameFront s s' : sameFront s s' → tokensLeft s' = tokensLeft s.
Proof.
  intros (H1 & H2 & _ & _ & H5 & _). unfold tokensLeft, pending. by rewrite H1, H2, H5.
Qed.

Lemma front_sameFront s s' : sameFront s s' → front s → front s'.
Proof. intros (_ & _ & H3 & _ & _ & H6) [F1 F2]. split; [by rewrite H3|by rewrite H6]. Qed.

Lemma failed_callFreeOutput s s' :
  failed s s' → Forall callFreeOutput (output s) → Forall callFreeOutput (output s').
Proof.
  intros (lines & -> & _ & HL) HO. apply Forall_app. split; [done|].
  eapply Forall_impl; [exact HL|]. by intros o [Str ->].
Qed.

Lemma spoke_liveOutput s s' :
  spoke s s' → Forall (λ o, liveOutput o = true) (output s) →
  Forall (λ o, liveOutput o = true) (output s').
Proof. intros (lines & -> & HL) HO. apply Forall_app. by split. Qed.

Lemma sealedModule_callFree TheModule F f :
  sealedModule TheModule → atHandle F TheModule = Some f → callFree f.
Proof.
  intros HS [Hin _]%atHandle_Some. unfold sealedModule in HS.
  rewrite Forall_forall in HS. by apply HS.
Qed.

Lemma handled_printed Text s s' f :
  liveOutput (cout (Text +:+ endl)) = true →
  (tokensLeft s' < tokensLeft s)%nat →
  output s' = (output s ++ [cout (Text +:+ endl); errs_Function f; cout endl])%list →
  (sealed s → front s' ∧ sealedModule (TheModule s') ∧ classified (TheModule s') ∧
              callFree f) →
  handled Text s s'.
Proof.
  intros HL HT HO HS. split; [done|]. split; [|right; by exists f].
  intros Hs. destruct (HS Hs) as (H1 & H2 & H2' & H3). destruct Hs as (_ & _ & _ & H4 & H5).
  split; [done|]. split; [done|]. split; [done|]. rewrite HO.
  split; (apply Forall_app; split; [done|]); by repeat constructor.
Qed.

Lemma handled_failed Text s s' :
  (tokensLeft s' < tokensLeft s)%nat → failed s s' →
  (sealed s → front s' ∧ sealedModule (TheModule s') ∧ classified (TheModule s') ∧
              spoke s s') →
  handled Text s s'.
Proof.
  intros HT HO HS. split; [done|]. split; [|by left].
  intros Hs. destruct (HS Hs) as (H1 & H2 & H2' & H3). destruct Hs as (_ & _ & _ & H4 & H5).
  split; [done|]. split; [done|]. split; [done|].
  split; [by eapply failed_callFreeOutput|by eapply spoke_liveOutput].
Qed.

Lemma HandleDefinition_ensures fuel s :
  CurTok s = tok_def → (3 * tokensLeft s + 5 ≤ fuel)%nat →
  ensures (λ _ s', handled "Parsed a function definition:" s s') (HandleDefinition fuel s).
Proof.
  intros HT Hf. unfold HandleDefinition, bind.
  pose proof (ParseDefinition_satisfies fuel s) as HM.
  pose proof (ParseDefinition_spoke fuel s) as HSp.
  pose proof (ParseDefinition_ensures fuel s) as HP.
  destruct (ParseDefinition fuel s) as [[FnAST|] s1| |]; simpl in HP.
  - destruct HP as [(T1 & A1 & O1 & K1) L1]; [by rewrite HT|done|].
    destruct HM as (_ & M1 & _).
    pose proof (FunctionAST_codegen_reports FnAST s1) as [HR HH].
    pose proof (FunctionAST_codegen_sameFront FnAST s1) as HF.
    pose proof (FunctionAST_codegen_sealed FnAST s1) as HS.
    pose proof (FunctionAST_codegen_classified FnAST s1) as HCl.
    pose proof (FunctionAST_codegen_live FnAST s1) as HLv.
    pose proof (tokensLeft_sameFront _ _ HF) as HL.
    pose proof (front_sameFront _ _ HF) as HFr.
    assert (sealed s → front s1 ∧ sealedModule (TheModule (FunctionAST_codegen FnAST s1).2) ∧
              classified (TheModule (FunctionAST_codegen FnAST s1).2) ∧
              spoke s (FunctionAST_codegen FnAST s1).2) as Hsealed.
    { intros (Hs1 & Hs2 & Hs3 & _). destruct (K1 Hs1) as [K2 K3]. specialize (K3 HT).
      rewrite <- M1 in Hs2, Hs3.
      assert (alnumOnly (getName (Proto FnAST)) = false) as HN
        by (by apply (mangled_outOfReach "_def")).
      split; [auto|]. split; [apply HS; auto|]. split; [by apply HCl|].
      etrans; [exact HSp|]. apply HLv; auto. }
    unfold run. destruct (FunctionAST_codegen FnAST s1) as [[FnIR|] s2]; simpl in *.
    + destruct (HH FnIR eq_refl) as [f Hf']. unfold print. simpl. rewrite Hf'. simpl.
      apply (handled_printed _ _ _ f); [done| | |].
      * change (tokensLeft s2 < tokensLeft s)%nat. lia.
      * simpl. rewrite HR, O1, <- !app_assoc. done.
      * intros Hs. destruct (Hsealed Hs) as (H1 & H2 & H3 & _). simpl.
        split; [auto|]. split; [done|]. split; [done|]. by eapply sealedModule_callFree.
    + apply handled_failed; [lia|by eapply failed_before|].
      intros Hs. destruct (Hsealed Hs) as (H1 & H2 & H3 & H4). auto.
  - destruct HP as [(T1 & A1 & O1) L1]; [by rewrite HT|done|].
    destruct HM as (_ & M1 & _).
    pose proof (getNextToken_ensures s1) as HG.
    destruct (getNextToken s1) as [t s2| |]; simpl in *; [|done|done].
    destruct HG as (_ & T2 & O2 & A2 & M2).
    apply handled_failed; [lia|by eapply failed_after; [apply failedOnce_failed|]|].
    intros (Hs1 & Hs2 & Hs3 & _). split; [auto|]. rewrite M2, M1. split; [done|].
    split; [done|]. etrans; [exact HSp|by apply spoke_silent].
  - done.
  - by apply HP; [rewrite HT|].
Qed.

Lemma HandleExtern_ensures fuel s :
  CurTok s = tok_extern → (tokensLeft s ≤ fuel)%nat →
  ensures (λ _ s', handled "Parsed an extern:" s s') (HandleExtern fuel s).
Proof.
  intros HT Hf. unfold HandleExtern, ParseExtern, bind.
  pose proof (ParsePrototype_satisfies fuel s) as HM.
  pose proof (ParsePrototype_spoke fuel s) as HSp.
  pose proof (ParsePrototype_ensures fuel s) as HP.
  destruct (ParsePrototype fuel s) as [[P|] s1| |]; simpl in HP.
  - destruct HP as [(T1 & A1 & O1 & K1) L1]; [by rewrite HT|done|].
    destruct HM as (_ & M1 & _).
    pose proof (PrototypeAST_codegen_sealed P s1) as HS.
    pose proof (PrototypeAST_codegen_classified P s1) as HCl.
    unfold run. rewrite PrototypeAST_codegen_eq in *. unfold print. simpl.
    rewrite atHandle_last; [|intros f; apply newHandle_fresh|done]. simpl.
    apply (handled_printed _ _ _ (declaration P (TheModule s1))); [done| | |].
    + done.
    + simpl. rewrite O1, <- !app_assoc. done.
    + intros (Hs1 & Hs2 & Hs3 & _). simpl in *.
      destruct (K1 Hs1) as [_ K3]. specialize (K3 HT). rewrite <- M1 in Hs2, Hs3.
      assert (alnumOnly (getName P) = false) as HN by (by apply (mangled_outOfReach "_ext")).
      assert (sealedModule
                (mkModule (Functions (TheModule s1) ++ [declaration P (TheModule s1)])
                   (createValueName (map FName (Functions (TheModule s1))) "." (getName P)
                      (LastUnique (TheModule s1))).2)) as HS2 by (apply HS; auto).
      split; [auto|]. split; [done|]. split; [by apply HCl|].
      unfold sealedModule in HS2. simpl in HS2. apply Forall_app in HS2 as [_ HS2].
      by apply Forall_singleton in HS2 as [HS2 _].
  - destruct HP as [(T1 & A1 & O1) L1]; [by rewrite HT|done|].
    destruct HM as (_ & M1 & _).
    pose proof (getNextToken_ensures s1) as HG.
    destruct (getNextToken s1) as [t s2| |]; simpl in *; [|done|done].
    destruct HG as (_ & T2 & O2 & A2 & M2).
    apply handled_failed; [lia|by eapply failed_after; [apply failedOnce_failed|]|].
    intros (Hs1 & Hs2 & Hs3 & _). split; [auto|]. rewrite M2, M1. split; [done|].
    split; [done|]. etrans; [exact HSp|by apply spoke_silent].
  - done.
  - by apply HP; [rewrite HT|].
Qed.

Lemma HandleTopLevelExpression_ensures fuel s :
  CurTok s ≠ tok_eof → (3 * tokensLeft s + 5 ≤ fuel)%nat →
  ensures (λ _ s', handled "Parsed a top-level expression:" s s')
          (HandleTopLevelExpression fuel s).
Proof.
  intros HT Hf. unfold HandleTopLevelExpression, bind.
  pose proof (ParseTopLevelExpr_satisfies fuel s) as HM.
  pose proof (ParseTopLevelExpr_spoke fuel s) as HSp.
  pose proof (ParseTopLevelExpr_ensures fuel s Hf) as HP.
  destruct (ParseTopLevelExpr fuel s) as [[FnAST|] s1| |] eqn:HPT; simpl in HP;
    [| |done|done].
  - destruct HP as [(T1 & A1 & O1 & K1) [L1|[? _]]]; [|done].
    destruct HM as (_ & M1 & _).
    pose proof (ParseTopLevelExpr_Proto _ _ _ _ HPT) as HProto.
    destruct FnAST as [P Body]. simpl in HProto. subst P.
    pose proof (FunctionAST_codegen_anonymous Body s1) as HA. cbv zeta in HA.
    set (FnAST := mkFunctionAST (mkPrototypeAST EmptyString []) Body) in *.
    pose proof (FunctionAST_codegen_reports FnAST s1) as [HR HH].
    pose proof (FunctionAST_codegen_sameFront FnAST s1) as HF.
    pose proof (FunctionAST_codegen_sealed FnAST s1) as HS.
    pose proof (FunctionAST_codegen_live FnAST s1) as HLv.
    pose proof (tokensLeft_sameFront _ _ HF) as HL.
    pose proof (front_sameFront _ _ HF) as HFr.
    assert (sealed s → front s1 ∧ sealedModule (TheModule (FunctionAST_codegen FnAST s1).2) ∧
              spoke s (FunctionAST_codegen FnAST s1).2) as Hsealed.
    { intros (Hs1 & Hs2 & Hs3 & _). destruct (K1 Hs1) as [K2 K3].
      rewrite <- M1 in Hs2, Hs3.
      split; [auto|]. split; [apply HS; auto|].
      etrans; [exact HSp|]. apply HLv; auto. }
    unfold run. destruct (FunctionAST_codegen FnAST s1) as [[FnIR|] s2]; simpl in *.
    + destruct (HH FnIR eq_refl) as [f Hf']. unfold print. simpl. rewrite Hf'. simpl.
      destruct HA as (_ & _ & HE).
      apply (handled_printed _ _ _ f); [done| | |].
      * change (tokensLeft s2 < tokensLeft s)%nat. lia.
      * simpl. rewrite HR, O1, <- !app_assoc. done.
      * intros Hs. destruct (Hsealed Hs) as (H1 & H2 & _). simpl.
        split; [auto|].
        split; [by apply sealedModule_eraseFromParent|].
        split; [rewrite HE, M1; apply Hs|by eapply sealedModule_callFree].
    + apply handled_failed; [lia|by eapply failed_before|].
      intros Hs. destruct (Hsealed Hs) as (H1 & H2 & H3).
      split; [auto|]. split; [done|]. split; [rewrite HA, M1; apply Hs|done].
  - destruct HP as [(T1 & A1 & O1) L1]. destruct HM as (_ & M1 & _).
    pose proof (getNextToken_ensures s1) as HG.
    destruct (getNextToken s1) as [t s2| |]; simpl in *; [|done|done].
    destruct HG as (_ & T2 & O2 & A2 & M2).
    apply handled_failed; [|by eapply failed_after; [apply failedOnce_failed|]|].
    + destruct L1 as [L1|[_ L1]]; [lia|].
      rewrite L1 in T2. apply Z.eqb_neq in HT. rewrite HT in T2. lia.
    + intros (Hs1 & Hs2 & Hs3 & _). split; [auto|]. rewrite M2, M1. split; [done|].
      split; [done|]. etrans; [exact HSp|by apply spoke_silent].
Qed.

Lemma ensures_modify {B} (f : State → State) (k : unit → M B) s Q :
  ensures Q (k () (f s)) → ensures Q ((let* x := modify f in k x) s).
Proof. done. Qed.

Lemma MainLoop_ensures fuel : ∀ s,
  (3 * tokensLeft s + 6 ≤ fuel)%nat →
  ensures (λ _ s', CurTok s' = tok_eof ∧ (sealed s → sealed s')) (MainLoop fuel s).
Proof.
  induction fuel as [|fuel IH]; intros s Hf; [lia|]. simpl.
  apply ensures_get. cbv beta.
  destruct (CurTok s =? tok_eof) eqn:E0; [by apply Z.eqb_eq in E0|].
  pose proof E0 as HC. apply Z.eqb_neq in HC.
  destruct (CurTok s =? 59) eqn:E1.
  { apply ensures_modify. apply ensures_bind.
    eapply ensures_mono; [apply getNextToken_ensures|].
    intros t s1 (_ & T1 & O1 & A1 & M1). simpl in *. rewrite E0 in T1.
    change (tokensLeft (write (cout "ready> ") s)) with (tokensLeft s) in T1.
    eapply ensures_mono; [apply IH; lia|].
    intros _ s2 [C2 S2]. split; [done|]. intros (Hs1 & Hs2 & Hs2' & Hs3 & Hs4). apply S2.
    split; [by apply A1|]. rewrite M1. split; [done|]. split; [done|]. rewrite O1.
    split; (apply Forall_app; split; [done|]); by repeat constructor. }
  destruct (CurTok s =? tok_def) eqn:E2.
  { apply Z.eqb_eq in E2. apply ensures_bind.
    eapply ensures_mono; [apply HandleDefinition_ensures; [done|lia]|].
    intros _ s1 (T1 & S1 & _). cbv beta.
    eapply ensures_mono; [apply IH; lia|].
    intros _ s2 [C2 S2]. split; auto. }
  destruct (CurTok s =? tok_extern) eqn:E3.
  { apply Z.eqb_eq in E3. apply ensures_bind.
    eapply ensures_mono; [apply HandleExtern_ensures; [done|lia]|].
    intros _ s1 (T1 & S1 & _). cbv beta.
    eapply ensures_mono; [apply IH; lia|].
    intros _ s2 [C2 S2]. split; auto. }
  apply ensures_bind.
  eapply ensures_mono; [apply HandleTopLevelExpression_ensures; [done|lia]|].
  intros _ s1 (T1 & S1 & _). cbv beta.
  eapply ensures_mono; [apply IH; lia|].
  intros _ s2 [C2 S2]. split; auto.
Qed.

Lemma standardOps_installBinops : standardOps (installBinops ∅).
Proof.
  intros c p Hc _. unfold installBinops in Hc.
  repeat (apply lookup_insert_Some in Hc as [[<- _]|[_ Hc]]; [done|]).
  by rewrite lookup_empty in Hc.
Qed.

Lemma main_ensures input fuel :
  (3 * String.length input + 9 ≤ fuel)%nat →
  ensures (λ r s', r = 0 ∧ CurTok s' = tok_eof ∧ sealed s' ∧
                   ∃ before, output s' = (before ++ [errs_Module (Functions (TheModule s'))])%list)
          (main fuel (start input)).
Proof.
  intros Hf. unfold main. apply ensures_modify. apply ensures_modify. apply ensures_bind.
  eapply ensures_mono; [apply getNextToken_ensures|].
  intros t s1 (_ & T1 & O1 & A1 & M1). simpl in *.
  unfold InitializeModule. apply ensures_bind. simpl. apply ensures_bind.
  eapply ensures_mono; [apply MainLoop_ensures|].
  { change (tokensLeft s1 + 1 ≤ String.length input + 1 + 1)%nat in T1.
    match goal with |- context [tokensLeft ?s0] =>
      change (tokensLeft s0) with (tokensLeft s1) end. lia. }
  intros _ s2 [C2 S2]. simpl.
  assert (sealed s2) as (S21 & S22 & S22' & S23 & S24).
  { apply S2. split; [apply A1; split; [done|apply standardOps_installBinops]|].
    split; [by constructor|]. split; [by repeat constructor|].
    simpl. rewrite O1. by split; repeat constructor. }
  split; [done|]. split; [done|]. split; [|by eexists].
  split; [done|]. split; [done|]. split; [done|]. simpl.
  split; (apply Forall_app; split; [done|]); repeat constructor.
  unfold sealedModule in S22. eapply Forall_impl; [exact S22|]. by intros f [? _].
Qed.

(** ** What the parser, the code generation and the driver come to *)

Lemma ensures_Done {A} (Q : A → State → Prop) (m : M A) s a s' :
  ensures Q (m s) → m s = Done a s' → Q a s'.
Proof. intros H E. by rewrite E in H. Qed.

(** X16: [main] comes to its end on every input: with fuel for
    [3 * length + 9] nested calls it returns 0, with the end of the input as
    the current token, or it exits with status 1; more fuel changes
    nothing. *)
Theorem main_terminates input fuel :
  (3 * String.length input + 9 ≤ fuel)%nat →
  main fuel (start input) = main (3 * String.length input + 9) (start input) ∧
  ((∃ s', main fuel (start input) = Done 0 s' ∧ CurTok s' = tok_eof) ∨
   (∃ s', main fuel (start input) = Exited 1 s')).
Proof.
  intros Hf.
  pose proof (main_ensures input _ (Nat.le_refl _)) as HE.
  pose proof (main_driver (3 * String.length input + 9) input) as HD.
  destruct (main_refines _ _ Hf (start input)) as [HR|HR].
  { by rewrite HR in HE. }
  rewrite <- HR. split; [done|].
  destruct (main (3 * String.length input + 9) (start input)) as [r s'|status s'|];
    simpl in *; [|destruct HD as [-> _]|done].
  - destruct HE as (-> & HC & _). left. by exists s'.
  - right. by exists s'.
Qed.

Lemma main_terminates_witness :
  (∃ s', main 100 (start "def f(x) x+1; f(2); 1.2.3") = Done 0 s' ∧ CurTok s' = tok_eof) ∨
  (∃ s', main 100 (start "def f(x) x+1; f(2); 1.2.3") = Exited 1 s').
Proof.
  apply (main_terminates "def f(x) x+1; f(2); 1.2.3" 100). vm_compute. lia.
Defined.

Lemma enough_fuel {A} (f : nat → M A) (bound : nat) (Q : A → State → Prop) fuel s a s' :
  (∀ n m, (n ≤ m)%nat → refines (f n) (f m)) →
  (∀ m, (bound ≤ m)%nat → ensures Q (f m s)) →
  f fuel s = Done a s' → Q a s'.
Proof.
  intros Hr He HD.
  apply (refines_Done _ _ _ _ _ (Hr fuel (Nat.max fuel bound) (Nat.le_max_l _ _))) in HD.
  eapply ensures_Done; [|exact HD]. apply He. apply Nat.le_max_r.
Qed.

Lemma parsed_reports {A} (ok : A → Prop) s r s' :
  parsed ok s r s' → reports s r s' ∧ (tokensLeft s' ≤ tokensLeft s)%nat.
Proof.
  intros (T & _ & O). split; [|done].
  destruct r; [by destruct O|by apply failedOnce_failed].
Qed.

Lemma advanced_Some {A} s (r : option A) s' :
  advanced s r s' → is_Some r → (tokensLeft s' < tokensLeft s)%nat.
Proof. intros [H|[-> _]]; [done|]. by intros [? ?]. Qed.

Lemma ParseExpression_reports fuel s r s' :
  ParseExpression fuel s = Done r s' →
  reports s r s' ∧ (tokensLeft s' ≤ tokensLeft s)%nat ∧
  (is_Some r → (tokensLeft s' < tokensLeft s)%nat).
Proof.
  apply (enough_fuel ParseExpression (3 * tokensLeft s + 5)
           (λ r s', reports s r s' ∧ (tokensLeft s' ≤ tokensLeft s)%nat ∧
                    (is_Some r → (tokensLeft s' < tokensLeft s)%nat))).
  - intros n m Hm. by apply expression_parser_refines.
  - intros m Hm. eapply ensures_mono; [by apply (proj1 (expression_parser_ensures m) s)|].
    intros r1 s1 [[H1 H2]%parsed_reports H3]. split; [done|]. split; [done|].
    by apply advanced_Some.
Qed.

Lemma ParseDefinition_reports fuel s r s' :
  CurTok s = tok_def → ParseDefinition fuel s = Done r s' →
  reports s r s' ∧ (tokensLeft s' < tokensLeft s)%nat.
Proof.
  intros HT.
  apply (enough_fuel ParseDefinition (3 * tokensLeft s + 5)
           (λ r s', reports s r s' ∧ (tokensLeft s' < tokensLeft s)%nat)).
  - intros n m Hm. by apply ParseDefinition_refines.
  - intros m Hm. eapply ensures_mono; [apply ParseDefinition_ensures; [by rewrite HT|done]|].
    intros r1 s1 [[H1 H2]%parsed_reports H3]. done.
Qed.

Lemma ParsePrototype_reports fuel s r s' :
  CurTok s = tok_extern → ParsePrototype fuel s = Done r s' →
  reports s r s' ∧ (tokensLeft s' < tokensLeft s)%nat.
Proof.
  intros HT.
  apply (enough_fuel ParsePrototype (tokensLeft s)
           (λ r s', reports s r s' ∧ (tokensLeft s' < tokensLeft s)%nat)).
  - intros n m Hm. by apply ParsePrototype_refines.
  - intros m Hm. eapply ensures_mono; [apply ParsePrototype_ensures; [by rewrite HT|done]|].
    intros r1 s1 [[H1 H2]%parsed_reports H3]. done.
Qed.

Lemma ParseTopLevelExpr_reports fuel s r s' :
  ParseTopLevelExpr fuel s = Done r s' →
  reports s r s' ∧ (tokensLeft s' ≤ tokensLeft s)%nat ∧
  (is_Some r → (tokensLeft s' < tokensLeft s)%nat).
Proof.
  apply (enough_fuel ParseTopLevelExpr (3 * tokensLeft s + 5)
           (λ r s', reports s r s' ∧ (tokensLeft s' ≤ tokensLeft s)%nat ∧
                    (is_Some r → (tokensLeft s' < tokensLeft s)%nat))).
  - intros n m Hm. by apply ParseTopLevelExpr_refines.
  - intros m Hm. eapply ensures_mono; [by apply ParseTopLevelExpr_ensures|].
    intros r1 s1 [[H1 H2]%parsed_reports H3]. split; [done|]. split; [done|].
    by apply advanced_Some.
Qed.

(** X17: what a parse returns tells what it wrote.  An expression, a
    definition, an extern or a top-level expression is returned with nothing
    written and with input consumed ([tokensLeft] decreases); the null
    pointer is returned with error messages written, one at least, and
    nothing else; nothing is ever put back ([tokensLeft] never grows). *)
Theorem a_failed_parse_is_reported fuel s :
  (∀ r s', ParseExpression fuel s = Done r s' →
     reports s r s' ∧ (tokensLeft s' ≤ tokensLeft s)%nat ∧
     (is_Some r → (tokensLeft s' < tokensLeft s)%nat)) ∧
  (∀ r s', CurTok s = tok_def → ParseDefinition fuel s = Done r s' →
     reports s r s' ∧ (tokensLeft s' < tokensLeft s)%nat) ∧
  (∀ r s', CurTok s = tok_extern → ParseExtern fuel s = Done r s' →
     reports s r s' ∧ (tokensLeft s' < tokensLeft s)%nat) ∧
  (∀ r s', ParseTopLevelExpr fuel s = Done r s' →
     reports s r s' ∧ (tokensLeft s' ≤ tokensLeft s)%nat ∧
     (is_Some r → (tokensLeft s' < tokensLeft s)%nat)).
Proof.
  split; [|split; [|split]].
  - intros r s'. apply ParseExpression_reports.
  - intros r s'. apply ParseDefinition_reports.
  - intros r s'. apply ParsePrototype_reports.
  - intros r s'. apply ParseTopLevelExpr_reports.
Qed.

Lemma a_failed_parse_is_reported_witness :
  let s := set_CurTok 40 (set_lexer "1+" 32 (set_BinopPrecedence (installBinops ∅) (start ""))) in
  ∃ s', ParseExpression 20 s = Done None s' ∧ failed s s'.
Proof.
  intros s. eexists. split; [vm_compute; reflexivity|].
  match goal with |- failed _ ?s1 =>
    apply (proj1 (a_failed_parse_is_reported 20 s) None s1) end.
  vm_compute. reflexivity.
Defined.

(** X18: what a code generation returns tells what it wrote.  The code
    generation of an expression and of a function returns a value with
    nothing written, and the null pointer with error messages written, one at
    least, and nothing else; the code generation of a prototype writes
    nothing. *)
Theorem a_failed_codegen_is_reported s :
  (∀ e, reports s (ExprAST_codegen e s).1 (ExprAST_codegen e s).2) ∧
  (∀ FnAST, reports s (FunctionAST_codegen FnAST s).1 (FunctionAST_codegen FnAST s).2) ∧
  (∀ P, output (PrototypeAST_codegen P s).2 = output s).
Proof.
  split; [|split].
  - intros e. apply ExprAST_codegen_reports.
  - intros FnAST. apply FunctionAST_codegen_reports.
  - intros P. by rewrite PrototypeAST_codegen_eq.
Qed.

Lemma HandleDefinition_handled fuel s s' :
  CurTok s = tok_def → HandleDefinition fuel s = Done () s' →
  handled "Parsed a function definition:" s s'.
Proof.
  intros HT.
  apply (enough_fuel HandleDefinition (3 * tokensLeft s + 5)
           (λ _ s', handled "Parsed a function definition:" s s')).
  - intros n m Hm. by apply HandleDefinition_refines.
  - intros m Hm. by apply HandleDefinition_ensures.
Qed.

Lemma HandleExtern_handled fuel s s' :
  CurTok s = tok_extern → HandleExtern fuel s = Done () s' →
  handled "Parsed an extern:" s s'.
Proof.
  intros HT.
  apply (enough_fuel HandleExtern (tokensLeft s) (λ _ s', handled "Parsed an extern:" s s')).
  - intros n m Hm. by apply HandleExtern_refines.
  - intros m Hm. by apply HandleExtern_ensures.
Qed.

Lemma HandleTopLevelExpression_handled fuel s s' :
  CurTok s ≠ tok_eof → HandleTopLevelExpression fuel s = Done () s' →
  handled "Parsed a top-level expression:" s s'.
Proof.
  intros HT.
  apply (enough_fuel HandleTopLevelExpression (3 * tokensLeft s + 5)
           (λ _ s', handled "Parsed a top-level expression:" s s')).
  - intros n m Hm. by apply HandleTopLevelExpression_refines.
  - intros m Hm. by apply HandleTopLevelExpression_ensures.
Qed.

(** X19: every top-level item is answered and takes input away.  A
    definition, an extern and a top-level expression that are handled write
    either error messages, one at least, and nothing else, or their line, the
    function and an empty line; and input is consumed ([tokensLeft]
    decreases), whatever the item. *)
Theorem every_item_is_answered fuel s s' :
  (CurTok s = tok_def → HandleDefinition fuel s = Done () s' →
     answered "Parsed a function definition:" s s' ∧ (tokensLeft s' < tokensLeft s)%nat) ∧
  (CurTok s = tok_extern → HandleExtern fuel s = Done () s' →
     answered "Parsed an extern:" s s' ∧ (tokensLeft s' < tokensLeft s)%nat) ∧
  (CurTok s ≠ tok_eof → HandleTopLevelExpression fuel s = Done () s' →
     answered "Parsed a top-level expression:" s s' ∧ (tokensLeft s' < tokensLeft s)%nat).
Proof.
  split; [|split]; intros HT HD.
  - by destruct (HandleDefinition_handled fuel s s' HT HD) as (? & _ & ?).
  - by destruct (HandleExtern_handled fuel s s' HT HD) as (? & _ & ?).
  - by destruct (HandleTopLevelExpression_handled fuel s s' HT HD) as (? & _ & ?).
Qed.

Lemma every_item_is_answered_witness :
  let s := set_CurTok tok_def
             (set_lexer "f(x) y" 32 (set_BinopPrecedence (installBinops ∅) (start ""))) in
  ∃ s', HandleDefinition 30 s = Done () s' ∧
        answered "Parsed a function definition:" s s' ∧ (tokensLeft s' < tokensLeft s)%nat.
Proof.
  intros s. eexists. split; [vm_compute; reflexivity|].
  match goal with |- answered _ _ ?s1 ∧ _ =>
    apply (proj1 (every_item_is_answered 30 s s1)) end; vm_compute; reflexivity.
Defined.

(** X20: in a run of [main] no call is ever lowered.  When [main] returns,
    no function of the module has a name that an identifier can spell (each
    has no name, or a name with a character that is no letter and no digit),
    no function of the module holds a call instruction, and no function and
    no module that was printed holds one. *)
Theorem no_call_is_ever_lowered input fuel r s' :
  main fuel (start input) = Done r s' →
  sealedModule (TheModule s') ∧ Forall callFreeOutput (output s').
Proof.
  apply (enough_fuel main (3 * String.length input + 9)
           (λ _ s', sealedModule (TheModule s') ∧ Forall callFreeOutput (output s'))).
  - intros n m Hm. by apply main_refines.
  - intros m Hm. eapply ensures_mono; [by apply main_ensures|].
    by intros r1 s1 (_ & _ & (_ & H1 & _ & H2 & _) & _).
Qed.

Lemma no_call_is_ever_lowered_witness :
  ∃ s', main 100 (start "def f(x) x+1; extern g(y); def h(z) f(z)+g(2); f(1);") = Done 0 s' ∧
        sealedModule (TheModule s') ∧ Forall callFreeOutput (output s').
Proof.
  eexists. split; [vm_compute; reflexivity|].
  match goal with |- sealedModule (TheModule ?s1) ∧ _ =>
    apply (no_call_is_ever_lowered
             "def f(x) x+1; extern g(y); def h(z) f(z)+g(2); f(1);" 100 0 s1) end.
  vm_compute. reflexivity.
Defined.

(** X21: two messages of the code generation are never written in a run of
    [main].  The operators of a parsed expression are among the five that
    [main] installs, and no call finds its callee; so when [main] returns,
    neither "invalid binary operator" nor "Incorrect # arguments passed" is
    among the lines written. *)
Theorem two_messages_are_never_written input fuel r s' :
  main fuel (start input) = Done r s' →
  (cout ("Error: invalid binary operator" +:+ endl) ∉ output s') ∧
  (cout ("Error: Incorrect # arguments passed" +:+ endl) ∉ output s').
Proof.
  intros HD.
  assert (Forall (λ o, liveOutput o = true) (output s')) as HL.
  { revert HD.
    apply (enough_fuel main (3 * String.length input + 9)
             (λ _ s', Forall (λ o, liveOutput o = true) (output s'))).
    - intros n m Hm. by apply main_refines.
    - intros m Hm. eapply ensures_mono; [by apply main_ensures|].
      by intros r1 s1 (_ & _ & (_ & _ & _ & _ & H) & _). }
  rewrite Forall_forall in HL. split; intros Hin; by apply HL in Hin.
Qed.

Lemma two_messages_are_never_written_witness :
  ∃ s', main 100 (start "def f(x) x+1; f(1,2); 3 ! 4; 5 < 6;") = Done 0 s' ∧
        (cout ("Error: invalid binary operator" +:+ endl) ∉ output s') ∧
        (cout ("Error: Incorrect # arguments passed" +:+ endl) ∉ output s').
Proof.
  eexists. split; [vm_compute; reflexivity|].
  match goal with |- (_ ∉ output ?s1) ∧ _ =>
    apply (two_messages_are_never_written "def f(x) x+1; f(1,2); 3 ! 4; 5 < 6;" 100 0 s1) end.
  vm_compute. reflexivity.
Defined.

(** X22: an extern is never completed by a definition.  When [main]
    returns, every function of the module either has a body and the name
    [Id_def] of a definition, or has no body and the name [Id_ext] of an
    extern (followed by what made it unique, when the name was taken), [Id]
    being letters and digits: a definition never gives a body to the
    function that an extern declared, and the lookup of
    [FunctionAST::codegen] only ever finds a function that has a body. *)
Theorem an_extern_is_never_completed input fuel r s' :
  main fuel (start input) = Done r s' →
  Forall (λ f, defined f ∨ declared f) (Functions (TheModule s')).
Proof.
  apply (enough_fuel main (3 * String.length input + 9)
           (λ _ s', Forall (λ f, defined f ∨ declared f) (Functions (TheModule s')))).
  - intros n m Hm. by apply main_refines.
  - intros m Hm. eapply ensures_mono; [by apply main_ensures|].
    by intros r1 s1 (_ & _ & (_ & _ & [_ H] & _) & _).
Qed.

Lemma an_extern_is_never_completed_witness :
  ∃ s', main 100 (start "extern f(x); def f(x) x; extern f(y); def f(z) z;") = Done 0 s' ∧
        map FName (Functions (TheModule s')) = ["f_ext"; "f_def"; "f_ext.1"] ∧
        Forall (λ f, defined f ∨ declared f) (Functions (TheModule s')).
Proof.
  eexists. split; [vm_compute; reflexivity|]. split; [vm_compute; reflexivity|].
  match goal with |- Forall _ (Functions (TheModule ?s1)) =>
    apply (an_extern_is_never_completed
             "extern f(x); def f(x) x; extern f(y); def f(z) z;" 100 0 s1) end.
  vm_compute. reflexivity.
Defined.
(** ** The name of a prototype *)

Lemma gettok_char_identifier input c s s' :
  isChar c → gettok_char input c s ≠ Done tok_identifier s'.
Proof.
  intros Hc. unfold gettok_char. destruct (c =? EOF); [done|].
  assert (c ≠ tok_identifier) by (destruct Hc as [->|Hc]; [done|unfold tok_identifier; lia]).
  destruct input; congruence.
Qed.

Lemma gettok_rec_identifier n : ∀ s s',
  isChar (LastChar s) → gettok_rec n s = Done tok_identifier s' →
  alnumOnly (IdentifierStr s') = true ∧ IdentifierStr s' ≠ EmptyString.
Proof.
  induction n as [|n IH]; intros s s' Hs; simpl;
    pose proof (skipWhitespace_isChar (stdin s) _ Hs) as HW;
    destruct (skipWhitespace (stdin s) (LastChar s)) as [input c]; simpl in HW.
  all: destruct (isalpha c) eqn:Ha.
  1,3: destruct (readIdentifier_spec input (String (char_of_int c) EmptyString))
         as (input' & c' & HR); rewrite HR;
       assert (alnumOnly (String (char_of_int c) EmptyString +:+ identifierRun input) = true)
         as HA by (rewrite alnumOnly_app, alnumOnly_identifierRun; simpl;
                   by rewrite (isalpha_char c Ha));
       destruct (String.eqb _ "def"); [done|destruct (String.eqb _ "extern"); [done|]];
       intros [= <-]; simpl; split; [exact HA|done].
  all: destruct (isdigit c || (c =? 46)).
  1,3: destruct (readNumber input c _ _ _) as [[[input' c'] NumStr] de];
       destruct de; done.
  all: destruct (c =? 35); [|intros H; by apply gettok_char_identifier in H].
  all: pose proof (skipComment_isChar input) as HC;
       destruct (skipComment input) as [input' c']; simpl in HC.
  all: destruct (negb (c' =? EOF)); [|intros H; by apply gettok_char_identifier in H].
  - done.
  - by apply IH.
Qed.

Lemma getNextToken_identifier s s' :
  isChar (LastChar s) → getNextToken s = Done tok_identifier s' →
  alnumOnly (IdentifierStr s') = true ∧ IdentifierStr s' ≠ EmptyString.
Proof.
  intros Hs H. unfold getNextToken in H. apply bind_Done in H as (t & s1 & HG & H).
  simpl in H. injection H as -> <-. simpl. by eapply gettok_rec_identifier.
Qed.

(** X8: the name of a parsed prototype is the identifier that follows the
    keyword, with the mark of the keyword: when a definition is parsed, the
    token after [def] is an identifier and the prototype is named by
    [IdentifierStr], as it is when that token has been read, followed by
    [_def]; likewise an extern, with [_ext].  When [LastChar] holds a
    character or [EOF], as the lexer leaves it, that identifier is a text of
    letters and digits which is not empty.  The prototype of a top-level
    expression has the empty name and no parameter. *)
Theorem prototype_names_are_mangled fuel s s' :
  (∀ FnAST, CurTok s = tok_def → ParseDefinition fuel s = Done (Some FnAST) s' →
            ∃ s1, getNextToken s = Done tok_identifier s1 ∧
                  getName (Proto FnAST) = IdentifierStr s1 +:+ "_def" ∧
                  (isChar (LastChar s) →
                   alnumOnly (IdentifierStr s1) = true ∧ IdentifierStr s1 ≠ EmptyString)) ∧
  (∀ P, CurTok s = tok_extern → ParseExtern fuel s = Done (Some P) s' →
        ∃ s1, getNextToken s = Done tok_identifier s1 ∧
              getName P = IdentifierStr s1 +:+ "_ext" ∧
              (isChar (LastChar s) →
               alnumOnly (IdentifierStr s1) = true ∧ IdentifierStr s1 ≠ EmptyString)) ∧
  (∀ FnAST, ParseTopLevelExpr fuel s = Done (Some FnAST) s' →
            Proto FnAST = mkPrototypeAST EmptyString []).
Proof.
  split; [|split].
  - intros FnAST HT H. unfold ParseDefinition in H.
    apply bind_Done in H as ([P|] & s1 & HP & H); [|done].
    apply bind_Done in H as ([E|] & s2 & _ & H); [|done].
    injection H as <- _. simpl. apply ParsePrototype_mangled in HP as (s0 & HG & HP).
    rewrite HT in HP. exists s0. split; [done|]. split; [done|].
    intros Hc. by eapply getNextToken_identifier.
  - intros P HT H. apply ParsePrototype_mangled in H as (s0 & HG & HP).
    rewrite HT in HP. exists s0. split; [done|]. split; [done|].
    intros Hc. by eapply getNextToken_identifier.
  - intros FnAST. apply ParseTopLevelExpr_Proto.
Qed.

(** ["def foo(x) x"] and ["extern sin(x)"]: the identifiers read are [foo]
    and [sin]. *)
Lemma prototype_names_are_mangled_witness :
  (∃ s1, getNextToken (set_CurTok tok_def (start "foo(x) x")) = Done tok_identifier s1 ∧
         "foo_def" = IdentifierStr s1 +:+ "_def" ∧
         (isChar 32 → alnumOnly (IdentifierStr s1) = true ∧ IdentifierStr s1 ≠ EmptyString)) ∧
  (∃ s1, getNextToken (set_CurTok tok_extern (start "sin(x)")) = Done tok_identifier s1 ∧
         "sin_ext" = IdentifierStr s1 +:+ "_ext" ∧
         (isChar 32 → alnumOnly (IdentifierStr s1) = true ∧ IdentifierStr s1 ≠ EmptyString)).
Proof.
  split.
  - apply (proj1 (prototype_names_are_mangled 10
             (set_CurTok tok_def (start "foo(x) x"))
             (set_CurTok tok_eof (set_IdentifierStr "x"
                (set_lexer "" EOF (set_CurTok tok_def (start "foo(x) x"))))))
             (mkFunctionAST (mkPrototypeAST "foo_def" ["x"]) (VariableExprAST "x")));
      [reflexivity|vm_compute; reflexivity].
  - apply (proj1 (proj2 (prototype_names_are_mangled 10
             (set_CurTok tok_extern (start "sin(x)"))
             (set_CurTok tok_eof (set_IdentifierStr "x"
                (set_lexer "" EOF (set_CurTok tok_extern (start "sin(x)")))))))
             (mkPrototypeAST "sin_ext" ["x"]));
      [reflexivity|vm_compute; reflexivity].
Defined.
(** ** Recovery: what the loop goes on with *)

Lemma failsAt_once fuel s s' : CurTok s ≠ tok_eof → failsAt fuel s s' → failedOnce s s'.
Proof.
  intros HC. unfold failsAt.
  destruct (CurTok s =? tok_def); [|destruct (CurTok s =? tok_extern)].
  - apply (enough_fuel ParseDefinition (3 * tokensLeft s + 5)
             (λ r s', match r with None => failedOnce s s' | Some _ => True end)).
    + intros n m Hm. by apply ParseDefinition_refines.
    + intros m Hm. eapply ensures_mono; [by apply ParseDefinition_ensures|].
      intros [F|] s1 [(_ & _ & H) _]; done.
  - unfold ParseExtern.
    apply (enough_fuel ParsePrototype (tokensLeft s)
             (λ r s', match r with None => failedOnce s s' | Some _ => True end)).
    + intros n m Hm. by apply ParsePrototype_refines.
    + intros m Hm. eapply ensures_mono; [by apply ParsePrototype_ensures|].
      intros [F|] s1 [(_ & _ & H) _]; done.
  - apply (enough_fuel ParseTopLevelExpr (3 * tokensLeft s + 5)
             (λ r s', match r with None => failedOnce s s' | Some _ => True end)).
    + intros n m Hm. by apply ParseTopLevelExpr_refines.
    + intros m Hm. eapply ensures_mono; [by apply ParseTopLevelExpr_ensures|].
      intros [F|] s1 [(_ & _ & H) _]; done.
Qed.

Lemma failsAt_parserStep fuel s s' : failsAt fuel s s' → parserStep s s'.
Proof.
  unfold failsAt.
  destruct (CurTok s =? tok_def); [|destruct (CurTok s =? tok_extern)]; intros H.
  - pose proof (ParseDefinition_satisfies fuel s) as HS. by rewrite H in HS.
  - pose proof (ParsePrototype_satisfies fuel s) as HS. unfold ParseExtern in H.
    by rewrite H in HS.
  - pose proof (ParseTopLevelExpr_satisfies fuel s) as HS. by rewrite H in HS.
Qed.

Lemma MainLoop_failsAt fuel s s' :
  CurTok s ≠ tok_eof → CurTok s ≠ 59 → failsAt fuel s s' →
  MainLoop (S fuel) s = (getNextToken >> MainLoop fuel) s'.
Proof.
  intros H1%Z.eqb_neq H2%Z.eqb_neq. unfold failsAt. simpl.
  unfold bind at 1, get. rewrite H1, H2.
  destruct (CurTok s =? tok_def); [|destruct (CurTok s =? tok_extern)]; intros H.
  - unfold HandleDefinition, bind. rewrite H. by destruct (getNextToken s').
  - unfold HandleExtern, bind. rewrite H. by destruct (getNextToken s').
  - unfold HandleTopLevelExpression, bind. rewrite H. by destruct (getNextToken s').
Qed.

(** *** Two runs that the program cannot tell apart *)

Lemma sameLines_refl s c : sameLines s s c c.
Proof. exists []. by rewrite !app_nil_r. Qed.

Lemma sameLines_trans s s1 s2 c c1 c2 :
  sameLines s s1 c c1 → sameLines s1 s2 c1 c2 → sameLines s s2 c c2.
Proof.
  intros (l1 & H1 & K1) (l2 & H2 & K2). exists (l1 ++ l2)%list.
  by rewrite H2, K2, H1, K1, !app_assoc.
Qed.

Lemma sameLines_write o s c : sameLines s (write o s) c (write o c).
Proof. by exists [o]. Qed.

Lemma alike_write o s c : alike s c → alike (write o s) (write o c).
Proof. done. Qed.

Lemma alike_CurTok s c : alike s c → CurTok s = CurTok c.
Proof. by intros (_ & _ & _ & H & _). Qed.

Lemma alike_TheModule s c : alike s c → TheModule s = TheModule c.
Proof. by intros (_ & _ & _ & _ & _ & _ & _ & H). Qed.

Lemma sameRun_bind {A B} (m : M A) (k : A → M B) s c :
  sameRun s c (m s) (m c) →
  (∀ a s1 c1, m s = Done a s1 → m c = Done a c1 → alike s1 c1 →
              sameRun s1 c1 (k a s1) (k a c1)) →
  sameRun s c ((let* x := m in k x) s) ((let* x := m in k x) c).
Proof.
  intros H K. unfold bind.
  destruct (m s) as [a s1|st s1|], (m c) as [a' c1|st' c1|]; simpl in *; try done.
  destruct H as (<- & Ha & HL). specialize (K a s1 c1 eq_refl eq_refl Ha).
  destruct (k a s1) as [b s2|st s2|], (k a c1) as [b' c2|st' c2|]; simpl in *; try done.
  - destruct K as (-> & Hb & HL'). split; [done|]. split; [done|]. by eapply sameLines_trans.
  - destruct K as (-> & HL'). split; [done|]. by eapply sameLines_trans.
Qed.

Lemma sameRun_get {A B} (f : State → A) (k : A → M B) s c :
  f s = f c → sameRun s c (k (f c) s) (k (f c) c) →
  sameRun s c ((let* x := get f in k x) s) ((let* x := get f in k x) c).
Proof. intros E H. unfold bind, get. by rewrite E. Qed.

Lemma sameRun_ret {A} (a : A) s c : alike s c → sameRun s c (ret a s) (ret a c).
Proof. intros H. simpl. split; [done|]. split; [done|]. apply sameLines_refl. Qed.

Lemma sameRun_write o s c :
  alike s c → sameRun s c (modify (write o) s) (modify (write o) c).
Proof. intros H. simpl. split; [done|]. split; [done|]. apply sameLines_write. Qed.

Lemma LogError_alike Str s c : alike s c → sameRun s c (LogError Str s) (LogError Str c).
Proof. intros H. simpl. split; [done|]. split; [done|]. apply sameLines_write. Qed.

Lemma LogErrorP_alike Str s c : alike s c → sameRun s c (LogErrorP Str s) (LogErrorP Str c).
Proof. intros H. simpl. split; [done|]. split; [done|]. apply sameLines_write. Qed.

Lemma gettok_char_alike input ch s c :
  isChar ch → lexed s c (gettok_char input ch s) (gettok_char input ch c).
Proof.
  intros Hc. unfold gettok_char. destruct (ch =? EOF) eqn:E; simpl.
  - apply Z.eqb_eq in E. subst ch. repeat split; try done; by left.
  - apply Z.eqb_neq in E. destruct Hc as [Hc|Hc]; [done|].
    assert (ch ≠ tok_identifier ∧ ch ≠ tok_number) as [N1 N2]
      by (unfold tok_identifier, tok_number; lia).
    destruct input; simpl; repeat split; try done;
      try (by left); apply int_of_char_isChar.
Qed.

Lemma gettok_rec_alike n : ∀ s c,
  stdin s = stdin c → LastChar s = LastChar c → isChar (LastChar c) →
  lexed s c (gettok_rec n s) (gettok_rec n c).
Proof.
  induction n as [|n IH]; intros s c Hs Hl Hc; simpl; rewrite Hs, Hl;
    pose proof (skipWhitespace_isChar (stdin c) _ Hc) as HW;
    destruct (skipWhitespace (stdin c) (LastChar c)) as [input ch]; simpl in HW;
    (destruct (isalpha ch);
     [pose proof (readIdentifier_isChar input (String (char_of_int ch) EmptyString)) as HI;
      destruct (readIdentifier input _) as [[input' ch'] Id]; simpl in HI;
      destruct (String.eqb Id "def"); [|destruct (String.eqb Id "extern")];
      simpl; repeat split; done|]);
    (destruct (isdigit ch || (ch =? 46));
     [pose proof (readNumber_isChar input ch EmptyString false false) as HN;
      destruct (readNumber input ch _ _ _) as [[[input' ch'] NumStr] de]; simpl in HN;
      destruct de; simpl; [split; [done|]; by eexists [_]|repeat split; done]|]);
    (destruct (ch =? 35); [|by apply gettok_char_alike]);
    pose proof (skipComment_isChar input) as HC;
    destruct (skipComment input) as [input' ch']; simpl in HC;
    (destruct (negb (ch' =? EOF)); [|by apply gettok_char_alike]).
  - done.
  - specialize (IH (set_lexer input' ch' s) (set_lexer input' ch' c) eq_refl eq_refl HC).
    destruct (gettok_rec n (set_lexer input' ch' s)), (gettok_rec n (set_lexer input' ch' c));
      simpl in *; done.
Qed.

Lemma getNextToken_alike s c : alike s c → sameRun s c (getNextToken s) (getNextToken c).
Proof.
  intros (Hs & Hl & Hc & HT & HI & HN & HB & HM).
  unfold getNextToken, gettok, bind. rewrite Hs at 1.
  pose proof (gettok_rec_alike (String.length (stdin c)) s c Hs Hl Hc) as H.
  destruct (gettok_rec _ s) as [t s'|st s'|], (gettok_rec _ c) as [t' c'|st' c'|];
    simpl in *; try done.
  destruct H as (<- & H1 & H2 & H3 & H4 & H5 & (H6 & H7 & H8) & (K6 & K7 & K8)).
  split; [done|]. split.
  - repeat split; simpl; try done.
    + intros k. by rewrite H6, K6.
    + by rewrite H7, K7.
  - exists []. by rewrite !app_nil_r.
Qed.

Lemma alike_set_BinopPrecedence m m' s c :
  alike s c → (∀ k, default 0 (m !! k) = default 0 (m' !! k)) →
  alike (set_BinopPrecedence m s) (set_BinopPrecedence m' c).
Proof. intros (Hs & Hl & Hc & HT & HI & HN & HB & HM) H. by repeat split. Qed.

Lemma precedence_insert (m m' : gmap ascii Z) k :
  (∀ k', default 0 (m !! k') = default 0 (m' !! k')) → m' !! k = None →
  ∀ k', default 0 (m !! k') = default 0 (<[k := 0]> m' !! k').
Proof.
  intros Hm Hk k'. destruct (decide (k = k')) as [<-|Hne].
  - rewrite lookup_insert. rewrite decide_True by done. simpl.
    specialize (Hm k). by rewrite Hk in Hm.
  - rewrite lookup_insert_ne by done. apply Hm.
Qed.

Lemma getTokPrecedence_alike s c :
  alike s c → sameRun s c (getTokPrecedence s) (getTokPrecedence c).
Proof.
  intros Ha. pose proof Ha as (_ & _ & _ & HT & _ & _ & HB & _).
  unfold getTokPrecedence. apply sameRun_get; [done|].
  destruct (negb (isascii (CurTok c))); [by apply sameRun_ret|].
  unfold bind, subscript. pose proof (HB (char_of_int (CurTok c))) as HK.
  assert (∀ m m' v, (∀ k, default 0 (m !! k) = default 0 (m' !! k)) →
            sameRun s c
              ((if v <=? 0 then ret (-1) else ret v) (set_BinopPrecedence m s))
              ((if v <=? 0 then ret (-1) else ret v) (set_BinopPrecedence m' c))) as Hend.
  { intros m m' v Hm. destruct (v <=? 0); simpl; (split; [done|]);
      (split; [by apply alike_set_BinopPrecedence|];
      exists []; simpl; by rewrite !app_nil_r). }
  destruct (BinopPrecedence s !! char_of_int (CurTok c)) as [v|] eqn:E1,
           (BinopPrecedence c !! char_of_int (CurTok c)) as [v'|] eqn:E2; simpl in HK.
  - subst v'. by apply Hend.
  - subst v. apply Hend. by apply precedence_insert.
  - subst v'. apply Hend. intros k. symmetry. apply precedence_insert; [|done].
    intros k'. symmetry. apply HB.
  - apply Hend. intros k'.
    destruct (decide (char_of_int (CurTok c) = k')) as [<-|Hne].
    + rewrite !lookup_insert. by rewrite !decide_True by done.
    + rewrite !lookup_insert_ne by done. apply HB.
Qed.

Lemma ParseNumberExpr_alike s c :
  alike s c → CurTok c = tok_number →
  sameRun s c (ParseNumberExpr s) (ParseNumberExpr c).
Proof.
  intros Ha HT. unfold ParseNumberExpr. apply sameRun_get; [by apply Ha|].
  apply sameRun_bind; [by apply getNextToken_alike|].
  intros _ s1 c1 _ _ H1. by apply sameRun_ret.
Qed.

Lemma expression_parser_alike fuel :
  (∀ s c, alike s c → sameRun s c (ParseExpression fuel s) (ParseExpression fuel c)) ∧
  (∀ s c, alike s c → sameRun s c (ParsePrimary fuel s) (ParsePrimary fuel c)) ∧
  (∀ s c, alike s c → sameRun s c (ParseParenExpr fuel s) (ParseParenExpr fuel c)) ∧
  (∀ s c, alike s c → CurTok c = tok_identifier →
          sameRun s c (ParseIdentifierExpr fuel s) (ParseIdentifierExpr fuel c)) ∧
  (∀ Args s c, alike s c → sameRun s c (ParseArgs fuel Args s) (ParseArgs fuel Args c)) ∧
  (∀ ExprPrec LHS s c, alike s c →
          sameRun s c (ParseBinOpRHS fuel ExprPrec LHS s) (ParseBinOpRHS fuel ExprPrec LHS c)).
Proof.
  induction fuel as [|fuel (IHE & IHP & IHPar & IHId & IHArgs & IHBin)]; [done|].
  split; [|split; [|split; [|split; [|split]]]].
  - intros s c Ha. simpl. apply sameRun_bind; [by apply IHP|].
    intros [LHS|] s1 c1 _ _ H1; [by apply IHBin|by apply sameRun_ret].
  - intros s c Ha. simpl. apply sameRun_get; [by apply alike_CurTok|].
    destruct (CurTok c =? tok_identifier) eqn:E1.
    { apply IHId; [done|by apply Z.eqb_eq]. }
    destruct (CurTok c =? tok_number) eqn:E2.
    { apply ParseNumberExpr_alike; [done|by apply Z.eqb_eq]. }
    destruct (CurTok c =? 40); [by apply IHPar|by apply LogError_alike].
  - intros s c Ha. simpl. apply sameRun_bind; [by apply getNextToken_alike|].
    intros _ s1 c1 _ _ H1. apply sameRun_bind; [by apply IHE|].
    intros [V|] s2 c2 _ _ H2; [|by apply sameRun_ret].
    apply sameRun_get; [by apply alike_CurTok|].
    destruct (negb (CurTok c2 =? 41)); [by apply LogError_alike|].
    apply sameRun_bind; [by apply getNextToken_alike|].
    intros _ s3 c3 _ _ H3. by apply sameRun_ret.
  - intros s c Ha HT. simpl. apply sameRun_get; [by apply Ha|].
    apply sameRun_bind; [by apply getNextToken_alike|].
    intros _ s1 c1 _ _ H1. apply sameRun_get; [by apply alike_CurTok|].
    destruct (negb (CurTok c1 =? 40)); [by apply sameRun_ret|].
    apply sameRun_bind; [by apply getNextToken_alike|].
    intros _ s2 c2 _ _ H2. apply sameRun_get; [by apply alike_CurTok|].
    apply sameRun_bind.
    { destruct (negb (CurTok c2 =? 41)); [by apply IHArgs|by apply sameRun_ret]. }
    intros [Args|] s3 c3 _ _ H3; [|by apply sameRun_ret].
    apply sameRun_bind; [by apply getNextToken_alike|].
    intros _ s4 c4 _ _ H4. by apply sameRun_ret.
  - intros Args s c Ha. simpl. apply sameRun_bind; [by apply IHE|].
    intros [Arg|] s1 c1 _ _ H1; [|by apply sameRun_ret].
    apply sameRun_get; [by apply alike_CurTok|].
    destruct (CurTok c1 =? 41); [by apply sameRun_ret|].
    destruct (negb (CurTok c1 =? 44)).
    + apply sameRun_bind; [by apply LogError_alike|].
      intros _ s2 c2 _ _ H2. by apply sameRun_ret.
    + apply sameRun_bind; [by apply getNextToken_alike|].
      intros _ s2 c2 _ _ H2. by apply IHArgs.
  - intros ExprPrec LHS s c Ha. simpl.
    apply sameRun_bind; [by apply getTokPrecedence_alike|].
    intros TokPrec s1 c1 _ _ H1.
    destruct (TokPrec <? ExprPrec); [by apply sameRun_ret|].
    apply sameRun_get; [by apply alike_CurTok|].
    apply sameRun_bind; [by apply getNextToken_alike|].
    intros _ s2 c2 _ _ H2. apply sameRun_bind; [by apply IHP|].
    intros [RHS|] s3 c3 _ _ H3; [|by apply sameRun_ret].
    apply sameRun_bind; [by apply getTokPrecedence_alike|].
    intros NextPrec s4 c4 _ _ H4. apply sameRun_bind.
    { destruct (TokPrec <? NextPrec); [by apply IHBin|by apply sameRun_ret]. }
    intros [RHS'|] s5 c5 _ _ H5; [by apply IHBin|by apply sameRun_ret].
Qed.

Lemma ParseArgNames_alike fuel : ∀ ArgNames s c,
  alike s c → sameRun s c (ParseArgNames fuel ArgNames s) (ParseArgNames fuel ArgNames c).
Proof.
  induction fuel as [|fuel IH]; intros ArgNames s c Ha; [done|]. simpl.
  apply sameRun_bind; [by apply getNextToken_alike|].
  intros Tok s1 c1 _ E1%getNextToken_CurTok H1.
  destruct (Tok =? tok_identifier) eqn:E; [|by apply sameRun_ret].
  apply Z.eqb_eq in E. apply sameRun_get; [apply H1; congruence|]. by apply IH.
Qed.

Lemma ParsePrototype_alike fuel s c :
  alike s c → sameRun s c (ParsePrototype fuel s) (ParsePrototype fuel c).
Proof.
  intros Ha. unfold ParsePrototype. apply sameRun_get; [by apply alike_CurTok|].
  apply sameRun_bind; [by apply getNextToken_alike|].
  intros _ s1 c1 _ _ H1. apply sameRun_get; [by apply alike_CurTok|].
  destruct (CurTok c1 =? tok_identifier) eqn:E; simpl negb; cbv iota;
    [|by apply LogErrorP_alike].
  apply Z.eqb_eq in E. apply sameRun_get; [by apply H1|].
  apply sameRun_bind; [by apply getNextToken_alike|].
  intros _ s2 c2 _ _ H2. apply sameRun_get; [by apply alike_CurTok|].
  destruct (negb (CurTok c2 =? 40)); [by apply LogErrorP_alike|].
  apply sameRun_bind; [by apply ParseArgNames_alike|].
  intros ArgNames s3 c3 _ _ H3. apply sameRun_get; [by apply alike_CurTok|].
  destruct (negb (CurTok c3 =? 41)); [by apply LogErrorP_alike|].
  apply sameRun_bind; [by apply getNextToken_alike|].
  intros _ s4 c4 _ _ H4. by apply sameRun_ret.
Qed.

Lemma ParseDefinition_alike fuel s c :
  alike s c → sameRun s c (ParseDefinition fuel s) (ParseDefinition fuel c).
Proof.
  intros Ha. unfold ParseDefinition. apply sameRun_bind; [by apply ParsePrototype_alike|].
  intros [P|] s1 c1 _ _ H1; [|by apply sameRun_ret].
  apply sameRun_bind; [by apply expression_parser_alike|].
  intros [E|] s2 c2 _ _ H2; by apply sameRun_ret.
Qed.

Lemma ParseTopLevelExpr_alike fuel s c :
  alike s c → sameRun s c (ParseTopLevelExpr fuel s) (ParseTopLevelExpr fuel c).
Proof.
  intros Ha. unfold ParseTopLevelExpr. apply sameRun_bind; [by apply expression_parser_alike|].
  intros [E|] s2 c2 _ _ H2; by apply sameRun_ret.
Qed.

(** *** The code generation in two states with the same module *)

Lemma sameLines_same s s' c c' :
  output s' = output s → output c' = output c → sameLines s s' c c'.
Proof. intros H K. exists []. by rewrite H, K, !app_nil_r. Qed.

Lemma alikeStep_ret {A} (a : A) : alikeStep (λ s, (a, s)).
Proof. intros s c H. simpl. split; [done|]. split; [done|apply sameLines_refl]. Qed.

Lemma LogErrorV_alike Str : alikeStep (LogErrorV Str).
Proof. intros s c H. simpl. split; [done|]. split; [done|apply sameLines_write]. Qed.

Lemma Insert_alike Ins : alikeStep (Insert Ins).
Proof.
  intros s c (HM & HB & HN). unfold Insert. rewrite HB, HM.
  destruct (Builder c) as [F BB] eqn:E. simpl.
  split; [done|]. split; [|by apply sameLines_same].
  split; [done|]. split; simpl; congruence.
Qed.

Lemma CreateBinOp_alike Opc L R Name : alikeStep (CreateBinOp Opc L R Name).
Proof. unfold CreateBinOp. destruct L, R; try apply Insert_alike; apply alikeStep_ret. Qed.

Lemma CreateFCmpULT_alike L R Name : alikeStep (CreateFCmpULT L R Name).
Proof. unfold CreateFCmpULT. destruct L, R; try apply Insert_alike; apply alikeStep_ret. Qed.

Lemma CreateUIToFP_alike V Name : alikeStep (CreateUIToFP V Name).
Proof. unfold CreateUIToFP. destruct V; try apply Insert_alike; apply alikeStep_ret. Qed.

Lemma codegenArgs_alike codegen Args :
  Forall (λ e, alikeStep (codegen e)) Args →
  ∀ ArgsV, alikeStep (codegenArgs codegen Args ArgsV).
Proof.
  induction 1 as [|Arg Args HArg _ IH]; intros ArgsV s c Hb; simpl.
  { split; [done|]. split; [done|apply sameLines_refl]. }
  destruct (HArg s c Hb) as (E1 & B1 & L1).
  destruct (codegen Arg s) as [V s1], (codegen Arg c) as [V' c1]. simpl in *. subst V'.
  destruct V as [V|]; simpl; [|done].
  destruct (IH (ArgsV ++ [V])%list s1 c1 B1) as (E2 & B2 & L2).
  split; [done|]. split; [done|]. by eapply sameLines_trans.
Qed.

Lemma ExprAST_codegen_alike e : alikeStep (ExprAST_codegen e).
Proof.
  induction e as [Val|Name|Op LHS RHS IHL IHR|Callee Args IHArgs] using ExprAST_ind';
    intros s c Hb.
  - by apply (alikeStep_ret (Some (Const (ConstantFP Val)))).
  - destruct Hb as (HM & HB & HN). simpl. rewrite HN.
    destruct (subscript (NamedValues c) Name None) as [[V|] m]; simpl.
    + split; [done|]. split; [done|by apply sameLines_same].
    + split; [done|]. split; [done|]. by exists [cout ("Error: Unknown variable name" +:+ endl)].
  - simpl. destruct (IHL s c Hb) as (E1 & B1 & L1).
    destruct (ExprAST_codegen LHS s) as [L s1], (ExprAST_codegen LHS c) as [L' c1].
    simpl in *. subst L'. destruct (IHR s1 c1 B1) as (E2 & B2 & L2).
    destruct (ExprAST_codegen RHS s1) as [R s2], (ExprAST_codegen RHS c1) as [R' c2].
    simpl in *. subst R'.
    pose proof (sameLines_trans _ _ _ _ _ _ L1 L2) as L12.
    destruct L as [L|], R as [R|]; simpl; try done.
    repeat match goal with
    | |- context [if Ascii.eqb Op ?ch then _ else _] => destruct (Ascii.eqb Op ch)
    end.
    1-4: match goal with |- context [CreateBinOp ?o ?l ?r ?n _] =>
           destruct (CreateBinOp_alike o l r n s2 c2 B2) as (E3 & B3 & L3);
           destruct (CreateBinOp o l r n s2), (CreateBinOp o l r n c2); simpl in *;
           subst; split; [done|]; split; [done|]; by eapply sameLines_trans end.
    + destruct (CreateFCmpULT_alike L R "cmptmp" s2 c2 B2) as (E3 & B3 & L3).
      destruct (CreateFCmpULT L R "cmptmp" s2) as [V s3],
               (CreateFCmpULT L R "cmptmp" c2) as [V' c3]. simpl in *. subst V'.
      destruct (CreateUIToFP_alike V "booltmp" s3 c3 B3) as (E4 & B4 & L4).
      destruct (CreateUIToFP V "booltmp" s3), (CreateUIToFP V "booltmp" c3). simpl in *.
      subst. split; [done|]. split; [done|].
      eapply sameLines_trans; [|exact L4]. by eapply sameLines_trans.
    + destruct (LogErrorV_alike "invalid binary operator" s2 c2 B2) as (E3 & B3 & L3).
      split; [done|]. split; [done|]. by eapply sameLines_trans.
  - simpl. pose proof Hb as (HM & _). rewrite HM.
    destruct (getFunction Callee (TheModule c)) as [CalleeF|];
      [|by apply LogErrorV_alike].
    destruct (negb _); [by apply LogErrorV_alike|].
    destruct (codegenArgs_alike ExprAST_codegen Args IHArgs [] s c Hb) as (E1 & B1 & L1).
    destruct (codegenArgs ExprAST_codegen Args [] s) as [ArgsV s1],
             (codegenArgs ExprAST_codegen Args [] c) as [ArgsV' c1]. simpl in *. subst ArgsV'.
    destruct ArgsV as [ArgsV|]; simpl; [|done]. unfold CreateCall.
    destruct (Insert_alike (CallInst (Fid CalleeF) ArgsV "calltmp") s1 c1 B1)
      as (E2 & B2 & L2).
    destruct (Insert _ s1), (Insert _ c1). simpl in *. subst.
    split; [done|]. split; [done|]. by eapply sameLines_trans.
Qed.

Lemma PrototypeAST_codegen_alike P s c :
  TheModule s = TheModule c →
  (PrototypeAST_codegen P s).1 = (PrototypeAST_codegen P c).1 ∧
  TheModule (PrototypeAST_codegen P s).2 = TheModule (PrototypeAST_codegen P c).2 ∧
  sameFront s (PrototypeAST_codegen P s).2 ∧ sameFront c (PrototypeAST_codegen P c).2 ∧
  output (PrototypeAST_codegen P s).2 = output s ∧
  output (PrototypeAST_codegen P c).2 = output c.
Proof.
  intros HM. unfold PrototypeAST_codegen. rewrite HM.
  destruct (Function_Create _ _ _) as [F Mod]. simpl. by repeat split.
Qed.

Lemma FunctionAST_codegen_body_alike Body F s c :
  TheModule s = TheModule c →
  (FunctionAST_codegen_body Body F s).1 = (FunctionAST_codegen_body Body F c).1 ∧
  TheModule (FunctionAST_codegen_body Body F s).2 =
    TheModule (FunctionAST_codegen_body Body F c).2 ∧
  sameLines s (FunctionAST_codegen_body Body F s).2 c (FunctionAST_codegen_body Body F c).2.
Proof.
  intros HM. unfold FunctionAST_codegen_body. rewrite HM.
  destruct (atHandle F (TheModule c)) as [f|];
    [|simpl; split; [done|]; split; [done|apply sameLines_refl]].
  destruct (negb _); [simpl; split; [done|]; split; [done|apply sameLines_write]|].
  destruct (BasicBlock_Create "entry" F (TheModule c)) as [BB Mod].
  set (s0 := set_NamedValues (recordArgs F 0 (FArgs f) ∅)
               (set_Builder (F, BB) (set_TheModule Mod s))).
  set (c0 := set_NamedValues (recordArgs F 0 (FArgs f) ∅)
               (set_Builder (F, BB) (set_TheModule Mod c))).
  assert (sameBack s0 c0) as Hb by done.
  destruct (ExprAST_codegen_alike Body s0 c0 Hb) as (E1 & B1 & L1).
  destruct (ExprAST_codegen Body s0) as [RetVal s1],
           (ExprAST_codegen Body c0) as [RetVal' c1].
  simpl in *. subst RetVal'. destruct RetVal as [RetVal|]; simpl.
  - unfold CreateRet. destruct (Insert_alike (ReturnInst RetVal) s1 c1 B1) as (E2 & B2 & L2).
    destruct (Insert _ s1), (Insert _ c1). simpl in *.
    split; [done|]. split; [apply B2|]. by eapply sameLines_trans.
  - split; [done|]. destruct B1 as (B1 & _). by rewrite B1.
Qed.

Lemma FunctionAST_codegen_alike FnAST s c :
  TheModule s = TheModule c →
  (FunctionAST_codegen FnAST s).1 = (FunctionAST_codegen FnAST c).1 ∧
  TheModule (FunctionAST_codegen FnAST s).2 = TheModule (FunctionAST_codegen FnAST c).2 ∧
  sameLines s (FunctionAST_codegen FnAST s).2 c (FunctionAST_codegen FnAST c).2.
Proof.
  intros HM. unfold FunctionAST_codegen. rewrite HM.
  destruct (getFunction _ (TheModule c)) as [f|].
  - by apply FunctionAST_codegen_body_alike.
  - destruct (PrototypeAST_codegen_alike (Proto FnAST) s c HM) as (E1 & M1 & _ & _ & O1 & O2).
    destruct (PrototypeAST_codegen (Proto FnAST) s) as [F s1],
             (PrototypeAST_codegen (Proto FnAST) c) as [F' c1]. simpl in *. subst F'.
    destruct (FunctionAST_codegen_body_alike (Body FnAST) F s1 c1 M1) as (E2 & M2 & L2).
    split; [done|]. split; [done|].
    eapply sameLines_trans; [by apply sameLines_same|exact L2].
Qed.

(** *** The driver in two states that are alike *)

Lemma alike_sameFront s c s' c' :
  alike s c → sameFront s s' → sameFront c c' → TheModule s' = TheModule c' → alike s' c'.
Proof.
  intros (Hs & Hl & Hc & HT & HI & HN & HB & HM)
         (S1 & S2 & S3 & S4 & S5 & S6) (C1 & C2 & C3 & C4 & C5 & C6) HM'.
  unfold alike. rewrite S1, S2, S3, S4, S5, S6, C1, C2, C3, C4, C5, C6. done.
Qed.

Lemma run_FunctionAST_codegen_alike FnAST s c :
  alike s c →
  sameRun s c (run (FunctionAST_codegen FnAST) s) (run (FunctionAST_codegen FnAST) c).
Proof.
  intros Ha. unfold run.
  destruct (FunctionAST_codegen_alike FnAST s c (alike_TheModule _ _ Ha)) as (E & HM & HL).
  pose proof (FunctionAST_codegen_sameFront FnAST s) as F1.
  pose proof (FunctionAST_codegen_sameFront FnAST c) as F2.
  destruct (FunctionAST_codegen FnAST s) as [r s1], (FunctionAST_codegen FnAST c) as [r' c1].
  simpl in *. split; [done|]. split; [by eapply alike_sameFront|done].
Qed.

Lemma run_PrototypeAST_codegen_alike P s c :
  alike s c →
  sameRun s c (run (PrototypeAST_codegen P) s) (run (PrototypeAST_codegen P) c).
Proof.
  intros Ha. unfold run.
  destruct (PrototypeAST_codegen_alike P s c (alike_TheModule _ _ Ha))
    as (E & HM & F1 & F2 & O1 & O2).
  destruct (PrototypeAST_codegen P s) as [r s1], (PrototypeAST_codegen P c) as [r' c1].
  simpl in *. split; [done|]. split; [by eapply alike_sameFront|by apply sameLines_same].
Qed.

Lemma print_alike FnIR s c : alike s c → sameRun s c (print FnIR s) (print FnIR c).
Proof.
  intros Ha. unfold print. rewrite (alike_TheModule _ _ Ha).
  destruct (atHandle FnIR (TheModule c)) as [f|]; [|by apply sameRun_ret].
  simpl. split; [done|]. split; [done|apply sameLines_write].
Qed.

Lemma printed_alike Text FnIR s c :
  alike s c →
  sameRun s c
    ((modify (write (cout Text)) >> print FnIR >> modify (write (cout endl))) s)
    ((modify (write (cout Text)) >> print FnIR >> modify (write (cout endl))) c).
Proof.
  intros Ha. apply sameRun_bind; [by apply sameRun_write|].
  intros _ s1 c1 _ _ H1. apply sameRun_bind; [by apply print_alike|].
  intros _ s2 c2 _ _ H2. by apply sameRun_write.
Qed.

Lemma HandleDefinition_alike fuel s c :
  alike s c → sameRun s c (HandleDefinition fuel s) (HandleDefinition fuel c).
Proof.
  intros Ha. unfold HandleDefinition. apply sameRun_bind; [by apply ParseDefinition_alike|].
  intros [FnAST|] s1 c1 _ _ H1.
  - apply sameRun_bind; [by apply run_FunctionAST_codegen_alike|].
    intros [FnIR|] s2 c2 _ _ H2; [by apply printed_alike|by apply sameRun_ret].
  - apply sameRun_bind; [by apply getNextToken_alike|].
    intros _ s2 c2 _ _ H2. by apply sameRun_ret.
Qed.

Lemma HandleExtern_alike fuel s c :
  alike s c → sameRun s c (HandleExtern fuel s) (HandleExtern fuel c).
Proof.
  intros Ha. unfold HandleExtern, ParseExtern.
  apply sameRun_bind; [by apply ParsePrototype_alike|].
  intros [P|] s1 c1 _ _ H1.
  - apply sameRun_bind; [by apply run_PrototypeAST_codegen_alike|].
    intros FnIR s2 c2 _ _ H2. by apply printed_alike.
  - apply sameRun_bind; [by apply getNextToken_alike|].
    intros _ s2 c2 _ _ H2. by apply sameRun_ret.
Qed.

Lemma HandleTopLevelExpression_alike fuel s c :
  alike s c →
  sameRun s c (HandleTopLevelExpression fuel s) (HandleTopLevelExpression fuel c).
Proof.
  intros Ha. unfold HandleTopLevelExpression.
  apply sameRun_bind; [by apply ParseTopLevelExpr_alike|].
  intros [FnAST|] s1 c1 _ _ H1.
  - apply sameRun_bind; [by apply run_FunctionAST_codegen_alike|].
    intros [FnIR|] s2 c2 _ _ H2; [|by apply sameRun_ret].
    apply sameRun_bind; [by apply sameRun_write|].
    intros _ s3 c3 _ _ H3. apply sameRun_bind; [by apply print_alike|].
    intros _ s4 c4 _ _ H4. apply sameRun_bind; [by apply sameRun_write|].
    intros _ s5 c5 _ _ H5. simpl. split; [done|].
    split; [|by apply sameLines_same].
    destruct H5 as (? & ? & ? & ? & ? & ? & ? & HM). unfold alike. simpl. by rewrite HM.
  - apply sameRun_bind; [by apply getNextToken_alike|].
    intros _ s2 c2 _ _ H2. by apply sameRun_ret.
Qed.

Lemma MainLoop_alike fuel : ∀ s c,
  alike s c → sameRun s c (MainLoop fuel s) (MainLoop fuel c).
Proof.
  induction fuel as [|fuel IH]; intros s c Ha; [done|]. simpl.
  apply sameRun_get; [by apply alike_CurTok|].
  destruct (CurTok c =? tok_eof); [by apply sameRun_ret|].
  destruct (CurTok c =? 59).
  { apply sameRun_bind; [by apply sameRun_write|].
    intros _ s1 c1 _ _ H1. apply sameRun_bind; [by apply getNextToken_alike|].
    intros _ s2 c2 _ _ H2. by apply IH. }
  destruct (CurTok c =? tok_def).
  { apply sameRun_bind; [by apply HandleDefinition_alike|].
    intros _ s1 c1 _ _ H1. by apply IH. }
  destruct (CurTok c =? tok_extern).
  { apply sameRun_bind; [by apply HandleExtern_alike|].
    intros _ s1 c1 _ _ H1. by apply IH. }
  apply sameRun_bind; [by apply HandleTopLevelExpression_alike|].
  intros _ s1 c1 _ _ H1. by apply IH.
Qed.

(** ** Precedence climbing *)

Lemma set_BinopPrecedence_same s : set_BinopPrecedence (BinopPrecedence s) s = s.
Proof. by destruct s. Qed.

Lemma getTokPrecedence_operator s p :
  isascii (CurTok s) = true → BinopPrecedence s !! char_of_int (CurTok s) = Some p →
  0 < p → getTokPrecedence s = Done p s.
Proof.
  intros Ha Hl Hp. unfold getTokPrecedence, bind, get, subscript. cbv beta.
  rewrite Ha. cbn [negb]. cbv beta iota. rewrite Hl. cbv beta iota.
  rewrite set_BinopPrecedence_same.
  by destruct (p <=? 0) eqn:E; [apply Z.leb_le in E; lia|].
Qed.

Lemma getTokPrecedence_again s p s' :
  getTokPrecedence s = Done p s' → getTokPrecedence s' = Done p s'.
Proof.
  unfold getTokPrecedence, bind, get, subscript. cbv beta.
  destruct (isascii (CurTok s)) eqn:Ha; cbn [negb]; cbv beta iota.
  - destruct (BinopPrecedence s !! char_of_int (CurTok s)) as [v|] eqn:Hl; cbv beta iota.
    + destruct (v <=? 0) eqn:Hv; intros [= <- <-];
        change (CurTok (set_BinopPrecedence (BinopPrecedence s) s)) with (CurTok s);
        rewrite Ha; cbn [negb]; cbv beta iota;
        change (BinopPrecedence (set_BinopPrecedence (BinopPrecedence s) s))
          with (BinopPrecedence s);
        rewrite Hl; cbv beta iota; rewrite Hv; by rewrite !set_BinopPrecedence_same.
    + change (0 <=? 0) with true. cbv iota. intros [= <- <-].
      change (CurTok (set_BinopPrecedence ?m s)) with (CurTok s).
      rewrite Ha. cbn [negb]. cbv beta iota.
      change (BinopPrecedence (set_BinopPrecedence ?m s)) with m.
      rewrite lookup_insert_eq. cbv beta iota. change (0 <=? 0) with true. cbv iota.
      unfold ret. f_equal.
  - intros [= <- <-]. rewrite Ha. done.
Qed.

Lemma chain_first n s l links s' :
  chain n s (l :: links) s' → getTokPrecedence s = Done (LinkPrec l) s.
Proof.
  intros (Ha & Hc & Hl & Hp & _). apply getTokPrecedence_operator; [done| |done].
  by rewrite Hc.
Qed.

Lemma chain_settled n s links s' :
  chain n s links s' →
  ∃ p s1, getTokPrecedence s = Done p s1 ∧ chain n s1 links s' ∧
          (links = [] → s1 = s') ∧
          (∀ l rest, links = l :: rest → p = LinkPrec l).
Proof.
  destruct links as [|l links]; intros H.
  - exists (-1), s'. split; [done|]. split; [|done]. simpl.
    by eapply getTokPrecedence_again.
  - exists (LinkPrec l), s. split; [by eapply chain_first|]. split; [done|].
    split; [done|]. by intros ? ? [= <- _].
Qed.

Lemma climbs_graft X links2 T :
  climbs X links2 T →
  ∀ A links1 q, climbs A links1 X →
    Forall (λ x, q ≤ LinkPrec x) links1 →
    (∀ x rest, links2 = x :: rest → LinkPrec x ≤ q) →
    climbs A (links1 ++ links2)%list T.
Proof.
  induction 1 as [X|X before l after TL TR HL IHL HR _ HB HA]; intros A links1 q HX H1 Hq.
  - by rewrite app_nil_r.
  - rewrite app_assoc. apply climbs_operator; [|done| |done].
    + eapply IHL; [done|done|]. intros x rest ->. by eapply Hq.
    + apply Forall_app. split; [|done].
      assert (LinkPrec l ≤ q) as Hlq.
      { destruct before as [|x before]; [by eapply Hq|].
        apply Forall_cons in HB as [HB _]. specialize (Hq x _ eq_refl). lia. }
      eapply Forall_impl; [exact H1|]. simpl. intros x Hx. lia.
Qed.

Lemma split_unique (before1 : list Link) l1 after1 before2 l2 after2 :
  (before1 ++ l1 :: after1 = before2 ++ l2 :: after2)%list →
  Forall (λ x, LinkPrec l1 ≤ LinkPrec x) before1 →
  Forall (λ x, LinkPrec l1 < LinkPrec x) after1 →
  Forall (λ x, LinkPrec l2 ≤ LinkPrec x) before2 →
  Forall (λ x, LinkPrec l2 < LinkPrec x) after2 →
  before1 = before2 ∧ l1 = l2 ∧ after1 = after2.
Proof.
  revert before2. induction before1 as [|y before1 IH]; intros [|x before2] E B1 A1 B2 A2;
    simpl in E; injection E as E1 E2.
  - by subst.
  - subst. apply Forall_cons in B2 as [B2 _].
    apply Forall_app in A1 as [_ A1]. apply Forall_cons in A1 as [A1 _]. lia.
  - subst. apply Forall_cons in B1 as [B1 _].
    apply Forall_app in A2 as [_ A2]. apply Forall_cons in A2 as [A2 _]. lia.
  - subst. apply Forall_cons in B1 as [_ B1]. apply Forall_cons in B2 as [_ B2].
    destruct (IH before2 E2 B1 A1 B2 A2) as (-> & -> & ->). done.
Qed.

Lemma climbs_inv A links T :
  climbs A links T →
  (links = [] ∧ T = A) ∨
  ∃ before l after TL TR,
    links = (before ++ l :: after)%list ∧ T = BinaryExprAST (LinkOp l) TL TR ∧
    climbs A before TL ∧ climbs (LinkRHS l) after TR ∧
    Forall (λ x, LinkPrec l ≤ LinkPrec x) before ∧
    Forall (λ x, LinkPrec l < LinkPrec x) after.
Proof.
  destruct 1 as [A|A before l after TL TR HL HR HB HA]; [by left|].
  right. by exists before, l, after, TL, TR.
Qed.

Lemma climbs_unique A links T1 :
  climbs A links T1 → ∀ T2, climbs A links T2 → T1 = T2.
Proof.
  induction 1 as [A|A before l after TL TR HL IHL HR IHR HB HA]; intros T2 H2;
    apply climbs_inv in H2
      as [[E ->]|(before2 & l2 & after2 & TL2 & TR2 & E & -> & HL2 & HR2 & HB2 & HA2)].
  - done.
  - by destruct before2.
  - by destruct before.
  - destruct (split_unique _ _ _ _ _ _ E HB HA HB2 HA2) as (-> & -> & ->).
    f_equal; [by apply IHL|by apply IHR].
Qed.

Lemma ParseBinOpRHS_returns f ExprPrec LHS s p s1 :
  getTokPrecedence s = Done p s1 → p < ExprPrec →
  ParseBinOpRHS (S f) ExprPrec LHS s = Done (Some LHS) s1.
Proof.
  intros HP Hlt. simpl. unfold bind. rewrite HP.
  by apply Z.ltb_lt in Hlt as ->.
Qed.

Lemma ParseBinOpRHS_takes f ExprPrec LHS s p t s1 RHS s2 p' s3 :
  getTokPrecedence s = Done p s → ExprPrec ≤ p →
  getNextToken s = Done t s1 →
  ParsePrimary f s1 = Done (Some RHS) s2 →
  getTokPrecedence s2 = Done p' s3 →
  ParseBinOpRHS (S f) ExprPrec LHS s =
  if p <? p' then
    match ParseBinOpRHS f (p + 1) RHS s3 with
    | Done (Some RHS') s4 =>
        ParseBinOpRHS f ExprPrec (BinaryExprAST (char_of_int (CurTok s)) LHS RHS') s4
    | Done None s4 => Done None s4
    | Exited st s4 => Exited st s4
    | OutOfFuel => OutOfFuel
    end
  else ParseBinOpRHS f ExprPrec (BinaryExprAST (char_of_int (CurTok s)) LHS RHS) s3.
Proof.
  intros HP Hge HN HR HP'. simpl. unfold bind, get. rewrite HP.
  apply Z.ltb_ge in Hge as ->. rewrite HN, HR, HP'.
  destruct (p <? p'); [|done].
  by destruct (ParseBinOpRHS f (p + 1) RHS s3) as [[RHS'|] s4| |].
Qed.

Lemma ParseBinOpRHS_climbs n k : ∀ links, (length links ≤ k)%nat →
  ∀ fuel ExprPrec LHS s s_end,
    chain n s links s_end → 0 ≤ ExprPrec → (n + length links + 1 ≤ fuel)%nat →
    ∃ T s' taken left,
      ParseBinOpRHS fuel ExprPrec LHS s = Done (Some T) s' ∧
      links = (taken ++ left)%list ∧
      Forall (λ x, ExprPrec ≤ LinkPrec x) taken ∧
      (∀ x rest, left = x :: rest → LinkPrec x < ExprPrec) ∧
      climbs LHS taken T ∧
      chain n s' left s_end ∧
      (left = [] → s' = s_end).
Proof.
  induction k as [|k IH]; intros [|l rest] Hk fuel ExprPrec LHS s s_end HC HE Hf;
    simpl in Hk; try lia.
  1,2: destruct fuel as [|f]; [lia|]; simpl in HC;
       exists LHS, s_end, [], []; split;
       [apply (ParseBinOpRHS_returns f ExprPrec LHS s (-1) s_end HC); lia|];
       split; [done|]; split; [done|]; split; [done|]; split; [constructor|];
       split; [simpl; by eapply getTokPrecedence_again|done].
  destruct fuel as [|f]; [lia|]. simpl in Hf.
  pose proof (chain_first _ _ _ _ _ HC) as HP.
  destruct HC as (Ha & Hc & Hl & Hp & t & s1 & s2 & HN & HR & HC2).
  destruct (Z.lt_ge_cases (LinkPrec l) ExprPrec) as [Hlt|Hge].
  { exists LHS, s, [], (l :: rest). split; [by eapply ParseBinOpRHS_returns|].
    split; [done|]. split; [done|]. split; [by intros ? ? [= <- _]|].
    split; [constructor|]. split; [|done]. simpl. eauto 10. }
  assert (ParsePrimary f s1 = Done (Some (LinkRHS l)) s2) as HR'.
  { eapply refines_Done; [|exact HR]. apply expression_parser_refines. lia. }
  destruct (chain_settled _ _ _ _ HC2) as (p' & s3 & HP' & HC3 & Hend & Hp').
  rewrite (ParseBinOpRHS_takes f ExprPrec LHS s (LinkPrec l) t s1 (LinkRHS l) s2 p' s3
             HP Hge HN HR' HP').
  rewrite Hc.
  assert (∃ TR s4 taken1 left1,
            (if LinkPrec l <? p'
             then ParseBinOpRHS f (LinkPrec l + 1) (LinkRHS l) s3 = Done (Some TR) s4
             else TR = LinkRHS l ∧ s4 = s3) ∧
            rest = (taken1 ++ left1)%list ∧
            Forall (λ x, LinkPrec l < LinkPrec x) taken1 ∧
            (∀ x r, left1 = x :: r → LinkPrec x ≤ LinkPrec l) ∧
            climbs (LinkRHS l) taken1 TR ∧
            chain n s4 left1 s_end ∧ (left1 = [] → s4 = s_end))
    as (TR & s4 & taken1 & left1 & Hinner & -> & HF1 & HH1 & HT1 & HC4 & Hend4).
  { destruct (LinkPrec l <? p') eqn:E.
    - destruct (IH rest ltac:(lia) f (LinkPrec l + 1) (LinkRHS l) s3 s_end HC3
                  ltac:(lia) ltac:(lia))
        as (TR & s4 & taken1 & left1 & H1 & H2 & H3 & H4 & H5 & H6 & H7).
      exists TR, s4, taken1, left1. split; [done|]. split; [done|].
      split; [eapply Forall_impl; [exact H3|]; simpl; intros; lia|].
      split; [intros x r Hx; specialize (H4 x r Hx); lia|]. done.
    - apply Z.ltb_ge in E. exists (LinkRHS l), s3, [], rest.
      split; [done|]. split; [done|]. split; [done|].
      split; [intros x r Hx; rewrite <- (Hp' x r Hx); lia|].
      split; [constructor|]. done. }
  rewrite length_app in Hk, Hf.
  destruct (IH left1 ltac:(lia) f ExprPrec (BinaryExprAST (LinkOp l) LHS TR) s4 s_end HC4
              HE ltac:(lia))
    as (T & s' & taken2 & left2 & H1 & -> & H3 & H4 & H5 & H6 & H7).
  exists T, s', (l :: taken1 ++ taken2)%list, left2.
  split.
  { destruct (LinkPrec l <? p'); [by rewrite Hinner|]. by destruct Hinner as [-> ->]. }
  split; [simpl; by rewrite app_assoc|].
  split.
  { constructor; [done|]. apply Forall_app. split; [|done].
    eapply Forall_impl; [exact HF1|]. simpl. intros. lia. }
  split; [done|]. split; [|done].
  change (l :: taken1 ++ taken2)%list with ((l :: taken1) ++ taken2)%list.
  apply (climbs_graft _ _ _ H5 LHS (l :: taken1) (LinkPrec l)).
  - apply (climbs_operator LHS [] l taken1 LHS TR); [constructor|done|done|done].
  - constructor; [lia|]. eapply Forall_impl; [exact HF1|]. simpl. intros. lia.
  - intros x r ->. by eapply HH1.
Qed.

Lemma chain_positive n s links s' :
  chain n s links s' → Forall (λ x, 0 < LinkPrec x) links.
Proof.
  revert s. induction links as [|l links IH]; intros s H; [done|].
  destruct H as (_ & _ & _ & Hp & t & s1 & s2 & _ & _ & HC). constructor; eauto.
Qed.

(** The expression that an operand and a chain are parsed to. *)
Lemma ParseExpression_tree n fuel s0 A s links s_end :
  ParsePrimary n s0 = Done (Some A) s → chain n s links s_end →
  (n + length links + 2 ≤ fuel)%nat →
  ∃ T, climbs A links T ∧ ParseExpression fuel s0 = Done (Some T) s_end.
Proof.
  intros HA HC Hf. destruct fuel as [|f]; [lia|]. simpl. unfold bind.
  assert (ParsePrimary f s0 = Done (Some A) s) as ->.
  { eapply refines_Done; [|exact HA]. apply expression_parser_refines. lia. }
  destruct (ParseBinOpRHS_climbs n (length links) links (Nat.le_refl _) f 0 A s s_end HC
              (Z.le_refl _) ltac:(lia))
    as (T & s' & taken & left & H1 & -> & H3 & H4 & H5 & H6 & H7).
  destruct left as [|x left].
  - rewrite app_nil_r. exists T. by rewrite H1, (H7 eq_refl).
  - specialize (H4 x left eq_refl). apply chain_positive in HC.
    apply Forall_app in HC as [_ HC]. apply Forall_cons in HC as [HC _]. lia.
Qed.

Lemma ParseExpression_climbs n fuel s0 A s links s_end T :
  ParsePrimary n s0 = Done (Some A) s → chain n s links s_end →
  (n + length links + 2 ≤ fuel)%nat → climbs A links T →
  ParseExpression fuel s0 = Done (Some T) s_end.
Proof.
  intros HA HC Hf HT.
  destruct (ParseExpression_tree n fuel s0 A s links s_end HA HC Hf) as (T' & HT' & ->).
  do 2 f_equal. by eapply climbs_unique.
Qed.

Lemma climbs_foldLeft A links :
  (∀ before x after, links = (before ++ x :: after)%list →
     Forall (λ y, LinkPrec x ≤ LinkPrec y) before) →
  climbs A links (foldLeft A links).
Proof.
  induction links as [|l init IH] using rev_ind; intros H; [constructor|].
  unfold foldLeft. rewrite fold_left_app. simpl.
  apply (climbs_operator A init l [] _ (LinkRHS l)).
  - apply IH. intros before x after ->. apply (H before x (after ++ [l])%list).
    by rewrite <- app_assoc.
  - constructor.
  - by apply (H init l []).
  - done.
Qed.

(** ** Precedence climbing *)

(** C6: the parser resolves precedence by the table, whatever the operands
    and the operators.  When an operand [A] is followed by operators of the
    table and operands, [links], the expression parsed is the one tree that
    precedence gives them: at each operator, the operators before it down to
    its left operand bind at least as tightly, those after it in its right
    operand strictly more tightly.  In particular, of two operators the one
    on the right takes the operand between them when its precedence is the
    higher one: [A op1 B op2 C] is parsed as [A op1 (B op2 C)]. *)
Theorem precedence_decides_the_tree n fuel s0 A s links s_end :
  ParsePrimary n s0 = Done (Some A) s →
  chain n s links s_end →
  (n + length links + 2 ≤ fuel)%nat →
  (∃ T, climbs A links T ∧ ParseExpression fuel s0 = Done (Some T) s_end ∧
        ∀ T', climbs A links T' → T' = T) ∧
  (∀ l1 l2, links = [l1; l2] → LinkPrec l1 < LinkPrec l2 →
     ParseExpression fuel s0 =
       Done (Some (BinaryExprAST (LinkOp l1) A
                     (BinaryExprAST (LinkOp l2) (LinkRHS l1) (LinkRHS l2)))) s_end).
Proof.
  intros HA HC Hf. split.
  - destruct (ParseExpression_tree n fuel s0 A s links s_end HA HC Hf) as (T & HT & HP).
    exists T. split; [done|]. split; [done|]. intros T' HT'. by eapply climbs_unique.
  - intros l1 l2 -> Hlt. eapply ParseExpression_climbs; [done|done|done|].
    apply (climbs_operator A [] l1 [l2] A); [constructor| |done|by repeat constructor].
    apply (climbs_operator (LinkRHS l1) [] l2 [] (LinkRHS l1)); by constructor.
Qed.

(** ["1+2*3"] and ["1<2+3"], with the precedences that [main] installs. *)
Lemma precedence_decides_the_tree_witness :
  let one := NumberExprAST (strtod "1") in
  let two := NumberExprAST (strtod "2") in
  let three := NumberExprAST (strtod "3") in
  result (parseText 5 "1+2*3") =
    Some (Some (BinaryExprAST "+" one (BinaryExprAST "*" two three))) ∧
  result (parseText 5 "1<2+3") =
    Some (Some (BinaryExprAST "<" one (BinaryExprAST "+" two three))).
Proof.
  intros one two three.
  pose (table := set_BinopPrecedence (installBinops ∅) (start "")).
  split.
  - pose (s0 := set_CurTok tok_number (set_NumVal (strtod "1") (set_lexer "2*3" 43 table))).
    assert (parseText 5 "1+2*3" = ParseExpression 5 s0) as ->.
    { change (parseText 5 "1+2*3") with
        ((getNextToken >> ParseExpression 5)
           (set_BinopPrecedence (installBinops ∅) (start "1+2*3"))).
      unfold bind.
      assert (getNextToken (set_BinopPrecedence (installBinops ∅) (start "1+2*3")) =
              Done tok_number s0) as -> by (vm_compute; reflexivity).
      reflexivity. }
    edestruct (λ s se, precedence_decides_the_tree 1 5 s0 one s
                 [mkLink "+" 20 two; mkLink "*" 40 three] se) as [_ H].
    + vm_compute. reflexivity.
    + simpl. repeat (split; [vm_compute; reflexivity|]).
      do 3 eexists. split; [vm_compute; reflexivity|]. split; [vm_compute; reflexivity|].
      repeat (split; [vm_compute; reflexivity|]).
      do 3 eexists. split; [vm_compute; reflexivity|]. split; [vm_compute; reflexivity|].
      vm_compute. reflexivity.
    + simpl. lia.
    + rewrite (H _ _ eq_refl); reflexivity.
  - pose (s0 := set_CurTok tok_number (set_NumVal (strtod "1") (set_lexer "2+3" 60 table))).
    assert (parseText 5 "1<2+3" = ParseExpression 5 s0) as ->.
    { change (parseText 5 "1<2+3") with
        ((getNextToken >> ParseExpression 5)
           (set_BinopPrecedence (installBinops ∅) (start "1<2+3"))).
      unfold bind.
      assert (getNextToken (set_BinopPrecedence (installBinops ∅) (start "1<2+3")) =
              Done tok_number s0) as -> by (vm_compute; reflexivity).
      reflexivity. }
    edestruct (λ s se, precedence_decides_the_tree 1 5 s0 one s
                 [mkLink "<" 10 two; mkLink "+" 20 three] se) as [_ H].
    + vm_compute. reflexivity.
    + simpl. repeat (split; [vm_compute; reflexivity|]).
      do 3 eexists. split; [vm_compute; reflexivity|]. split; [vm_compute; reflexivity|].
      repeat (split; [vm_compute; reflexivity|]).
      do 3 eexists. split; [vm_compute; reflexivity|]. split; [vm_compute; reflexivity|].
      vm_compute. reflexivity.
    + simpl. lia.
    + rewrite (H _ _ eq_refl); reflexivity.
Defined.

(** C7: operators of equal precedence fold to the left, and the climb into
    the right operand is strict.  When no operator of [links] binds more
    tightly than one before it (so when all have the same precedence), the
    expression parsed is the left fold; and an operator takes into its right
    operand only operators that bind strictly more tightly than itself: in
    [A op1 B op2 C op3 D] with [op2] above [op1] and [op3] not above [op1],
    [op3] combines [A op1 (B op2 C)] with [D]. *)
Theorem equal_precedence_folds_left n fuel s0 A s links s_end :
  ParsePrimary n s0 = Done (Some A) s →
  chain n s links s_end →
  (n + length links + 2 ≤ fuel)%nat →
  (∀ p, Forall (λ x, LinkPrec x = p) links →
     ParseExpression fuel s0 = Done (Some (foldLeft A links)) s_end) ∧
  ((∀ before x after, links = (before ++ x :: after)%list →
      Forall (λ y, LinkPrec x ≤ LinkPrec y) before) →
   ParseExpression fuel s0 = Done (Some (foldLeft A links)) s_end) ∧
  (∀ l1 l2 l3, links = [l1; l2; l3] →
     LinkPrec l1 < LinkPrec l2 → LinkPrec l3 ≤ LinkPrec l1 →
     ParseExpression fuel s0 =
       Done (Some (BinaryExprAST (LinkOp l3)
                     (BinaryExprAST (LinkOp l1) A
                        (BinaryExprAST (LinkOp l2) (LinkRHS l1) (LinkRHS l2)))
                     (LinkRHS l3))) s_end).
Proof.
  intros HA HC Hf.
  assert ((∀ before x after, links = (before ++ x :: after)%list →
             Forall (λ y, LinkPrec x ≤ LinkPrec y) before) →
          ParseExpression fuel s0 = Done (Some (foldLeft A links)) s_end) as Hfold.
  { intros H. eapply ParseExpression_climbs; [done|done|done|]. by apply climbs_foldLeft. }
  split; [|split; [done|]].
  - intros p Hp. apply Hfold. intros before x after ->.
    apply Forall_app in Hp as [Hb Hx]. apply Forall_cons in Hx as [<- _].
    eapply Forall_impl; [exact Hb|]. simpl. intros y ->. lia.
  - intros l1 l2 l3 -> H12 H31. eapply ParseExpression_climbs; [done|done|done|].
    apply (climbs_operator A [l1; l2] l3 [] _ (LinkRHS l3)).
    + apply (climbs_operator A [] l1 [l2] A); [constructor| |done|by repeat constructor].
      apply (climbs_operator (LinkRHS l1) [] l2 [] (LinkRHS l1)); by constructor.
    + constructor.
    + repeat constructor; lia.
    + done.
Qed.

(** ["a+b+c"] and ["1+2*3+4"], with the precedences that [main] installs. *)
Lemma equal_precedence_folds_left_witness :
  let a := VariableExprAST "a" in
  let b := VariableExprAST "b" in
  let c := VariableExprAST "c" in
  let num text := NumberExprAST (strtod text) in
  result (parseText 6 "a+b+c") =
    Some (Some (BinaryExprAST "+" (BinaryExprAST "+" a b) c)) ∧
  result (parseText 6 "1+2*3+4") =
    Some (Some (BinaryExprAST "+"
                  (BinaryExprAST "+" (num "1") (BinaryExprAST "*" (num "2") (num "3")))
                  (num "4"))).
Proof.
  intros a b c num.
  pose (table := set_BinopPrecedence (installBinops ∅) (start "")).
  split.
  - pose (s0 := set_CurTok tok_identifier (set_IdentifierStr "a" (set_lexer "b+c" 43 table))).
    assert (parseText 6 "a+b+c" = ParseExpression 6 s0) as ->.
    { change (parseText 6 "a+b+c") with
        ((getNextToken >> ParseExpression 6)
           (set_BinopPrecedence (installBinops ∅) (start "a+b+c"))).
      unfold bind.
      assert (getNextToken (set_BinopPrecedence (installBinops ∅) (start "a+b+c")) =
              Done tok_identifier s0) as -> by (vm_compute; reflexivity).
      reflexivity. }
    edestruct (λ s se, equal_precedence_folds_left 2 6 s0 a s
                 [mkLink "+" 20 b; mkLink "+" 20 c] se) as [H _].
    + vm_compute. reflexivity.
    + simpl. repeat (split; [vm_compute; reflexivity|]).
      do 3 eexists. split; [vm_compute; reflexivity|]. split; [vm_compute; reflexivity|].
      repeat (split; [vm_compute; reflexivity|]).
      do 3 eexists. split; [vm_compute; reflexivity|]. split; [vm_compute; reflexivity|].
      vm_compute. reflexivity.
    + simpl. lia.
    + rewrite (H 20); [reflexivity|by repeat constructor].
  - pose (s0 := set_CurTok tok_number (set_NumVal (strtod "1") (set_lexer "2*3+4" 43 table))).
    assert (parseText 6 "1+2*3+4" = ParseExpression 6 s0) as ->.
    { change (parseText 6 "1+2*3+4") with
        ((getNextToken >> ParseExpression 6)
           (set_BinopPrecedence (installBinops ∅) (start "1+2*3+4"))).
      unfold bind.
      assert (getNextToken (set_BinopPrecedence (installBinops ∅) (start "1+2*3+4")) =
              Done tok_number s0) as -> by (vm_compute; reflexivity).
      reflexivity. }
    edestruct (λ s se, equal_precedence_folds_left 1 6 s0 (num "1") s
                 [mkLink "+" 20 (num "2"); mkLink "*" 40 (num "3");
                  mkLink "+" 20 (num "4")] se) as (_ & _ & H).
    + vm_compute. reflexivity.
    + simpl. repeat (split; [vm_compute; reflexivity|]).
      do 3 eexists. split; [vm_compute; reflexivity|]. split; [vm_compute; reflexivity|].
      repeat (split; [vm_compute; reflexivity|]).
      do 3 eexists. split; [vm_compute; reflexivity|]. split; [vm_compute; reflexivity|].
      repeat (split; [vm_compute; reflexivity|]).
      do 3 eexists. split; [vm_compute; reflexivity|]. split; [vm_compute; reflexivity|].
      vm_compute. reflexivity.
    + simpl. lia.
    + rewrite (H _ _ _ eq_refl); reflexivity || (vm_compute; discriminate).
Defined.

(** ** Error recovery: the rule *)

(** C9, amended: when the parse of a top-level construct (a definition, an
    extern or a top-level expression) fails, exactly one error message has
    been written and the module is as it was; the handler then reads exactly
    one more token and returns to the loop, which dispatches on that token,
    whatever it is.  When the state after that token is one that the loop
    cannot tell from a state [c] (the same input left, the same current token
    with its text or value, the same precedences and the same module), the
    rest of the run is the run from [c]: the same lines are written after the
    error message, and the run ends in the same way, with the same module.
    With fuel for [3 * tokensLeft + 6] nested calls the loop comes to its
    end. *)
Theorem one_token_is_discarded fuel s s_f :
  CurTok s ≠ tok_eof → CurTok s ≠ 59 → failsAt fuel s s_f →
  failedOnce s s_f ∧
  TheModule s_f = TheModule s ∧
  MainLoop (S fuel) s = (getNextToken >> MainLoop fuel) s_f ∧
  (∀ t s1 c, getNextToken s_f = Done t s1 → alike s1 c →
             sameRun s1 c (MainLoop (S fuel) s) (MainLoop fuel c)) ∧
  ((3 * tokensLeft s + 6 ≤ S fuel)%nat → MainLoop (S fuel) s ≠ OutOfFuel).
Proof.
  intros H1 H2 HF. split; [by eapply failsAt_once|].
  split; [by apply failsAt_parserStep in HF as (_ & HM & _)|].
  pose proof (MainLoop_failsAt fuel s s_f H1 H2 HF) as HL.
  split; [done|]. split.
  - intros t s1 c HG Ha. rewrite HL. unfold bind. rewrite HG. by apply MainLoop_alike.
  - intros Hf HO. pose proof (MainLoop_ensures (S fuel) s Hf) as HE. by rewrite HO in HE.
Qed.

(** ["def 1"] followed by ["def f(x) x"]: the parse stops at [1], the token
    read next is the [def] of the valid line, and the run goes on as the run
    on the valid line alone. *)
Lemma one_token_is_discarded_witness :
  let table := set_BinopPrecedence (installBinops ∅) (start "") in
  let s := set_CurTok tok_def (set_IdentifierStr "def" (set_lexer "1
def f(x) x
" 32 table)) in
  let c := set_CurTok tok_def (set_IdentifierStr "def" (set_lexer "f(x) x
" 32 table)) in
  let s_f := logged "Expected function name in prototype"
               (set_CurTok tok_number (set_NumVal (strtod "1") (set_lexer "def f(x) x
" 10 s))) in
  let s1 := set_CurTok tok_def (set_IdentifierStr "def" (set_lexer "f(x) x
" 32 s_f)) in
  failsAt 10 s s_f ∧ getNextToken s_f = Done tok_def s1 ∧ alike s1 c ∧
  sameRun s1 c (MainLoop 11 s) (MainLoop 10 c).
Proof.
  intros table s c s_f s1.
  assert (failsAt 10 s s_f) as HF by (vm_compute; reflexivity).
  assert (getNextToken s_f = Done tok_def s1) as HG by (vm_compute; reflexivity).
  assert (alike s1 c) as Ha.
  { split; [reflexivity|]. split; [reflexivity|].
    split; [right; vm_compute; split; discriminate|]. split; [reflexivity|].
    split; [intros H; vm_compute in H; discriminate H|].
    split; [intros H; vm_compute in H; discriminate H|].
    split; [intros k; reflexivity|reflexivity]. }
  split; [exact HF|]. split; [exact HG|]. split; [exact Ha|].
  assert (CurTok s ≠ tok_eof) as H1 by (vm_compute; discriminate).
  assert (CurTok s ≠ 59) as H2 by (vm_compute; discriminate).
  exact (proj1 (proj2 (proj2 (proj2 (one_token_is_discarded 10 s s_f H1 H2 HF))))
           tok_def s1 c HG Ha).
Defined.
